(** * maf::messaging — component runtime, timers and the named-pipe sender

    A shallow embedding of
      - src/maf/messaging/Component.cpp
      - src/maf/messaging/Timer.cpp
      - src/maf/messaging/client-server/ipc/platforms/windows/NamedPipeSenderBase.h

    C++ objects that are shared between closures and threads (components,
    timer managers, timer façades) live in a store indexed by their address;
    member functions are state transformers on that store.  A [std::function]
    or a pointer that may be null is an [option].  Code supplied by the
    application (handlers, callbacks, entry and exit hooks) is a parameter of
    the development, see [UserCode].  A worker thread is followed in
    sequence with its callers: its function runs when it is scheduled
    ([ComponentImpl.thread_body]) and, at the latest, inside the [join] that
    waits for it. *)

From stdpp Require Import gmap strings list fin_maps pretty.

Open Scope string_scope.
Open Scope list_scope.

(** ** Identities *)

Abbreviation ThreadId := nat (only parsing).   (* std::thread::id of a running thread *)
Abbreviation CompId := nat (only parsing).     (* address of a Component *)
Abbreviation MgrId := nat (only parsing).      (* address of a threading::TimerManager *)
Abbreviation TimerPtr := nat (only parsing).   (* address of a Timer façade *)
Abbreviation JobID := nat (only parsing).      (* TimerManager::JobID *)
Abbreviation Closure := nat (only parsing).    (* code pointer of an application callable *)
Abbreviation HandlerObj := nat (only parsing). (* address of a MessageHandler object *)

(** [std::weak_ptr<Component>]: empty, or the address it was taken from. *)
Definition ComponentRef := option CompId.

(** [std::shared_ptr<threading::TimerManager>] (null or an address). *)
Definition TimerMgrPtr := option MgrId.

(** [std::thread]: [Some t] is a joinable thread whose [get_id()] is [t];
    [None] is a default-constructed or already joined thread, whose
    [get_id()] is the id that represents no thread. *)
Definition thread := option ThreadId.

(** ** Exceptions and the log *)

Inductive Exn :=
| bad_alloc (what : string)        (* std::bad_alloc, a std::exception *)
| std_exception (what : string)    (* any other std::exception *)
| unknown_exception.               (* anything not derived from std::exception *)

Inductive LogLevel := Err | Warn | Info.

Definition LogEntry : Type := LogLevel * string.

(** ** Messages *)

(** [MessageBase::Type]: the identity of a concrete message class.  The
    header that declares it is not part of the sources; the type is taken as
    the two built-in classes plus a numbered family of application classes. *)
Inductive MessageType :=
| idof_TimeoutMessage
| idof_CallbackExcMsg
| idof_user (n : nat).

#[global] Instance MessageType_eq_dec : EqDecision MessageType.
Proof. solve_decision. Defined.

#[global] Instance MessageType_countable : Countable MessageType.
Proof.
  refine (inj_countable'
    (λ t, match t with
          | idof_TimeoutMessage => 0
          | idof_CallbackExcMsg => 1
          | idof_user n => S (S n)
          end)
    (λ k, match k with
          | 0 => idof_TimeoutMessage
          | 1 => idof_CallbackExcMsg
          | S (S n) => idof_user n
          end) _).
  by intros [].
Defined.

(** Modelled from the spec: maf/messaging/BasicMessages.h is not part of the
    sources.  Section 6: TimeoutMessage {timerID, callback} and
    CallbackExcMsg {callback}; every other message is a variant of the
    application. *)
Inductive Message :=
| TimeoutMessage (timerID : JobID) (callback : option Closure)
| CallbackExcMsg (callback : option Closure)
| UserMessage (variant : nat) (payload : nat).

(** [MessageBasePtr]: a shared pointer to a message, possibly null. *)
Definition MessageBasePtr := option Message.

(** [MessageBase::idof] of a live message. *)
Definition idof (msg : Message) : MessageType :=
  match msg with
  | TimeoutMessage _ _ => idof_TimeoutMessage
  | CallbackExcMsg _ => idof_CallbackExcMsg
  | UserMessage v _ => idof_user v
  end.

(** ** Handler functions

    The callables stored in the handler map: the two lambdas of the
    constructor, the wrapper lambda around a [MessageHandler*], or a callable
    of the application. *)
Inductive HandlerFunc :=
| ExecuteTimeout                     (* Component.cpp:43 *)
| ExecuteCallback                    (* Component.cpp:47 *)
| OnMessageOf (handler : HandlerObj) (* Component.cpp:110 *)
| UserFunc (f : Closure).

(** [BaseMessageHandlerFunc]: a [std::function], empty when [None]. *)
Definition BaseMessageHandlerFunc := option HandlerFunc.

(** ** The message queue *)

(** Modelled from the spec: maf/messaging/MessageQueue.h is not part of the
    sources.  Section 3 of the specification: an ordered sequence of messages
    with two states, Open and Closed. *)
Record MessageQueue := mkQueue {
  closed : bool;
  items : list MessageBasePtr
}.

(** Modelled from the spec: the outcomes of [wait] (section 4.1). *)
Inductive WaitResult :=
| Popped (msg : MessageBasePtr) (q : MessageQueue)   (* wait returned true *)
| Drained                                            (* wait returned false *)
| Waiting.                                           (* wait does not return *)

Module MessageQueue.

(** Modelled from the spec: a new queue is open and empty. *)
Definition empty : MessageQueue := mkQueue false [].

(** Modelled from the spec: push (section 4.1) enqueues at the tail, is
    rejected once the queue is closed, and reports an allocation failure to
    the caller without corrupting the state.  [fault] is the failure the
    allocator raises during this call, if any. *)
Definition push (fault : option Exn) (msg : MessageBasePtr) (q : MessageQueue)
  : Exn + MessageQueue :=
  match fault with
  | Some e => inl e
  | None =>
      if closed q then inr q
      else inr (mkQueue (closed q) (items q ++ [msg]))
  end.

(** Modelled from the spec: wait (section 4.1) pops the head when a message
    is available, returns false when the queue is closed and empty, and
    blocks otherwise. *)
Definition wait (q : MessageQueue) : WaitResult :=
  match items q with
  | msg :: rest => Popped msg (mkQueue (closed q) rest)
  | [] => if closed q then Drained else Waiting
  end.

(** Modelled from the spec: close (section 4.1) is idempotent and takes the
    queue from Open to Closed. *)
Definition close (q : MessageQueue) : MessageQueue :=
  mkQueue true (items q).

End MessageQueue.

(** ** The timer manager and the timer façade: data *)

(** The callables handed to [TimerManager::start]: the marshalling lambda of
    [Timer::start] with its captures, or a callable of the application. *)
Inductive TimerCallback :=
| OnTimeout (componentRef : ComponentRef) (callback : Closure) (this : TimerPtr)
| UserJob (f : Closure).

(** Modelled from the spec: maf/threading/TimerManager.h is not part of the
    sources.  Section 3: a job is a record {id, duration, cyclic, callback},
    the id drawn from a monotonic IDManager. *)
Record Job := mkJob {
  duration : Z;
  cyclic : bool;
  job_callback : TimerCallback
}.

(** Modelled from the spec: the state of a timer manager (section 4.4): the
    scheduled jobs, the next id of its IDManager, and whether [stop()] has
    terminated it. *)
Record TimerManager := mkManager {
  jobs : gmap JobID Job;
  next_id : JobID;
  stopped : bool
}.

(** The fields of the façade, as Timer.cpp uses them (Timer.h is not part of
    the sources). *)
Record Timer := mkTimer {
  _id : JobID;
  _cyclic : bool;
  _myMgr : TimerMgrPtr
}.

(** ** Threads

    A thread started by [run] in [Async] mode (Component.cpp:62-65).  Its
    function is the lambda [[this, compref, onEntry, onExit]], which calls
    [startMessageLoop]; the record holds the captures and how far the body
    has got, so that the thread can be followed in pieces: up to the point
    where it waits, and on from there. *)
Inductive Progress :=
| NotStarted     (* the body has not begun *)
| InLoop         (* the body is in the message loop, at a call of wait *)
| Ended.         (* the body has returned; the thread can still be joined *)

Record Worker := mkWorker {
  w_this : CompId;
  w_compref : ComponentRef;
  w_onEntry : option Closure;
  w_onExit : option Closure;
  w_progress : Progress
}.

(** ** Components and the store *)

Record ComponentImpl := mkImpl {
  _compref : ComponentRef;
  _workerThread : thread;
  _msgQueue : MessageQueue;
  _msgHandlers : gmap MessageType HandlerFunc;
  _timerMgr : TimerMgrPtr
}.

(** The store.  [components] holds the components that are still owned by a
    [shared_ptr] (a weak handle upgrades exactly when its address is there);
    [_tlwpInstance] is the thread-local weak handle of every thread, absent
    when empty; [threads] holds the worker threads that were started. *)
Record World := mkWorld {
  components : gmap CompId ComponentImpl;
  _tlwpInstance : gmap ThreadId CompId;
  managers : gmap MgrId TimerManager;
  timers : gmap TimerPtr Timer;
  next_manager : MgrId;
  log : list LogEntry;
  threads : gmap ThreadId Worker
}.

(** ** Application code

    A call into application code returns or throws, and may have changed
    anything in the store on the way. *)
Inductive UserRes :=
| Returned (w : World)
| Threw (e : Exn) (w : World).

(** What the application supplies: the bodies of its callables and handler
    objects, and its message classes, of which the runtime uses the name.
    [MessageBase::Type::name()] is declared in a header that is not part of
    the sources and its text is left to the implementation, so the name of
    a type is a parameter as well. *)
Class UserCode := {
  (** the body of a [std::function<void()>] *)
  call : Closure → World → UserRes;
  (** the body of a handler callable, applied to a message *)
  handle : Closure → Message → World → UserRes;
  (** [MessageHandler::onMessage] of a handler object *)
  onMessage : HandlerObj → Message → World → UserRes;
  (** [MessageBase::idof(msg).name()] *)
  MessageType_name : MessageType → string
}.

(** ** Execution monad

    The functions of the runtime run over the store and leave a trace of the
    calls they make to their collaborators and to application code.  The
    trace is kept apart from the store, out of reach of application code. *)

Inductive Event :=
| EvQueueClose (c : CompId)                        (* _msgQueue.close() *)
| EvTimerMgrStop (m : MgrId)                       (* _timerMgr->stop() *)
| EvTimerMgrReset (c : CompId)                     (* _timerMgr.reset() *)
| EvJoin (t : ThreadId)                            (* _workerThread.join() has returned *)
| EvBindActive (t : ThreadId) (ref : ComponentRef) (* _tlwpInstance = compref *)
| EvOnEntry (f : Closure)                          (* onEntry() *)
| EvOnExit (f : Closure)                           (* onExit() *)
| EvHandler (h : HandlerFunc) (msg : Message).     (* handlerFunc(msg) *)

Record St := mkSt {
  world : World;
  trace : list Event
}.

(** Why a call never comes back to its caller. *)
Inductive Halt :=
| Terminated     (* std::terminate was called *)
| Waits          (* the call waits for a thread that is inside wait on an open, empty queue *)
| Unbounded.     (* the thread it waits for reached the bound on its iterations *)

Inductive Res (A : Type) :=
| Val (a : A) (s : St)      (* the call returns [a] *)
| Exc (e : Exn) (s : St)    (* the call leaves by an exception *)
| Undef (s : St)            (* the call uses an object that is not in the store *)
| Halted (h : Halt) (s : St). (* the call does not return *)

Arguments Val {A} a s.
Arguments Exc {A} e s.
Arguments Undef {A} s.
Arguments Halted {A} h s.

Definition M (A : Type) : Type := St → Res A.

Definition ret {A} (a : A) : M A := λ s, Val a s.

Definition bind {A B} (m : M A) (k : A → M B) : M B :=
  λ s, match m s with
       | Val a s' => k a s'
       | Exc e s' => Exc e s'
       | Undef s' => Undef s'
       | Halted h s' => Halted h s'
       end.

Notation "x <~ m ;; k" := (bind m (λ x, k))
  (at level 100, m at next level, right associativity,
   format "'[v' x  <~  m  ;;  '/' k ']'").
Notation "m ;;; k" := (bind m (λ _, k))
  (at level 100, right associativity, format "'[v' m  ;;;  '/' k ']'").

Definition throw {A} (e : Exn) : M A := λ s, Exc e s.

Definition undefined {A} : M A := λ s, Undef s.

Definition halt {A} (h : Halt) : M A := λ s, Halted h s.

Definition gets {A} (f : World → A) : M A := λ s, Val (f (world s)) s.

Definition modify (f : World → World) : M unit :=
  λ s, Val () (mkSt (f (world s)) (trace s)).

Definition emit (ev : Event) : M unit :=
  λ s, Val () (mkSt (world s) (trace s ++ [ev])).

(** A call into application code. *)
Definition user (body : World → UserRes) : M unit :=
  λ s, match body (world s) with
       | Returned w => Val () (mkSt w (trace s))
       | Threw e w => Exc e (mkSt w (trace s))
       end.

(** A catch clause: the handler to run when the clause matches the
    exception in flight. *)
Definition CatchClause (A : Type) : Type := Exn → option (M A).

(** [catch (const std::bad_alloc& ba)] *)
Definition catch_bad_alloc {A} (h : string → M A) : CatchClause A :=
  λ e, match e with bad_alloc what => Some (h what) | _ => None end.

(** [catch (const std::exception& e)]; [std::bad_alloc] derives from it. *)
Definition catch_std_exception {A} (h : string → M A) : CatchClause A :=
  λ e, match e with
       | bad_alloc what | std_exception what => Some (h what)
       | unknown_exception => None
       end.

(** [catch (...)] *)
Definition catch_all {A} (h : M A) : CatchClause A := λ _, Some h.

Fixpoint select_clause {A} (clauses : list (CatchClause A)) (e : Exn)
  : option (M A) :=
  match clauses with
  | [] => None
  | c :: rest =>
      match c e with
      | Some h => Some h
      | None => select_clause rest e
      end
  end.

(** [try { body } catch ...]: the first clause that matches handles the
    exception; with no matching clause the exception goes on to the caller. *)
Definition try_catch {A} (body : M A) (clauses : list (CatchClause A)) : M A :=
  λ s, match body s with
       | Exc e s' =>
           match select_clause clauses e with
           | Some h => h s'
           | None => Exc e s'
           end
       | r => r
       end.

(** ** Store access *)

Definition set_components (f : gmap CompId ComponentImpl → gmap CompId ComponentImpl)
    (w : World) : World :=
  mkWorld (f (components w)) (_tlwpInstance w) (managers w) (timers w)
          (next_manager w) (log w) (threads w).

Definition set_tlwpInstance (f : gmap ThreadId CompId → gmap ThreadId CompId)
    (w : World) : World :=
  mkWorld (components w) (f (_tlwpInstance w)) (managers w) (timers w)
          (next_manager w) (log w) (threads w).

Definition set_managers (f : gmap MgrId TimerManager → gmap MgrId TimerManager)
    (w : World) : World :=
  mkWorld (components w) (_tlwpInstance w) (f (managers w)) (timers w)
          (next_manager w) (log w) (threads w).

Definition set_timers (f : gmap TimerPtr Timer → gmap TimerPtr Timer)
    (w : World) : World :=
  mkWorld (components w) (_tlwpInstance w) (managers w) (f (timers w))
          (next_manager w) (log w) (threads w).

Definition set_next_manager (n : MgrId) (w : World) : World :=
  mkWorld (components w) (_tlwpInstance w) (managers w) (timers w) n (log w)
          (threads w).

Definition add_log (entry : LogEntry) (w : World) : World :=
  mkWorld (components w) (_tlwpInstance w) (managers w) (timers w)
          (next_manager w) (log w ++ [entry]) (threads w).

Definition set_threads (f : gmap ThreadId Worker → gmap ThreadId Worker)
    (w : World) : World :=
  mkWorld (components w) (_tlwpInstance w) (managers w) (timers w)
          (next_manager w) (log w) (f (threads w)).

(** The logging macros of maf/utils/debugging/Debug.h. *)
Definition mafErr (text : string) : M unit := modify (add_log (Err, text)).
Definition mafWarn (text : string) : M unit := modify (add_log (Warn, text)).
Definition mafInfo (text : string) : M unit := modify (add_log (Info, text)).

(** Access to the fields of the object at an address; a member function
    called on an address that is not in the store has no defined behaviour. *)
Definition this_impl (this : CompId) : M ComponentImpl :=
  λ s, match components (world s) !! this with
       | Some impl => Val impl s
       | None => Undef s
       end.

Definition this_timer (this : TimerPtr) : M Timer :=
  λ s, match timers (world s) !! this with
       | Some t => Val t s
       | None => Undef s
       end.

Definition this_manager (m : MgrId) : M TimerManager :=
  λ s, match managers (world s) !! m with
       | Some mgr => Val mgr s
       | None => Undef s
       end.

Definition this_thread (t : ThreadId) : M Worker :=
  λ s, match threads (world s) !! t with
       | Some w => Val w s
       | None => Undef s
       end.

Definition update_impl (this : CompId) (f : ComponentImpl → ComponentImpl) : M unit :=
  impl <~ this_impl this ;;
  modify (set_components <[this := f impl]>).

Definition update_timer (this : TimerPtr) (f : Timer → Timer) : M unit :=
  t <~ this_timer this ;;
  modify (set_timers <[this := f t]>).

Definition update_manager (m : MgrId) (f : TimerManager → TimerManager) : M unit :=
  mgr <~ this_manager m ;;
  modify (set_managers <[m := f mgr]>).

Definition with_compref (r : ComponentRef) (i : ComponentImpl) : ComponentImpl :=
  mkImpl r (_workerThread i) (_msgQueue i) (_msgHandlers i) (_timerMgr i).

Definition with_workerThread (t : thread) (i : ComponentImpl) : ComponentImpl :=
  mkImpl (_compref i) t (_msgQueue i) (_msgHandlers i) (_timerMgr i).

Definition with_msgQueue (q : MessageQueue) (i : ComponentImpl) : ComponentImpl :=
  mkImpl (_compref i) (_workerThread i) q (_msgHandlers i) (_timerMgr i).

Definition with_msgHandlers (h : gmap MessageType HandlerFunc) (i : ComponentImpl)
  : ComponentImpl :=
  mkImpl (_compref i) (_workerThread i) (_msgQueue i) h (_timerMgr i).

Definition with_timerMgr (m : TimerMgrPtr) (i : ComponentImpl) : ComponentImpl :=
  mkImpl (_compref i) (_workerThread i) (_msgQueue i) (_msgHandlers i) m.

Definition with_progress (p : Progress) (w : Worker) : Worker :=
  mkWorker (w_this w) (w_compref w) (w_onEntry w) (w_onExit w) p.

Definition with_id (id : JobID) (t : Timer) : Timer :=
  mkTimer id (_cyclic t) (_myMgr t).

Definition with_cyclic (c : bool) (t : Timer) : Timer :=
  mkTimer (_id t) c (_myMgr t).

Definition with_myMgr (m : TimerMgrPtr) (t : Timer) : Timer :=
  mkTimer (_id t) (_cyclic t) m.

(** [std::weak_ptr::lock]: the upgrade succeeds when the component is still
    owned. *)
Definition lock (ref : ComponentRef) : M (option CompId) :=
  gets (λ w, c ← ref; _ ← components w !! c; Some c).

(** Assignment to the thread-local weak handle of thread [tid]. *)
Definition assign_tlwpInstance (tid : ThreadId) (ref : ComponentRef) : M unit :=
  modify (set_tlwpInstance
            (match ref with
             | Some c => <[tid := c]>
             | None => delete tid
             end)).

(** [std::map::insert]: the pair is stored only when the key is new. *)
Definition std_map_insert {V} (k : MessageType) (v : V) (m : gmap MessageType V)
  : gmap MessageType V :=
  match m !! k with
  | Some _ => m
  | None => <[k := v]> m
  end.

(** ** threading::TimerManager *)

Module TimerManager.

(** maf/threading/TimerManager.h is not part of the sources; the operations
    follow section 4.4 of the specification.  Time itself is not modelled: a
    job is scheduled while it is in [jobs], and its expiry is an event of the
    environment (see [TimerThread.expire]). *)

(** Modelled from the spec: invalidJobID() is the sentinel id meaning no job
    (section 3: id = 0). *)
Definition invalidJobID : JobID := 0.

(** Modelled from the spec: a new manager has no job; its ids start after
    the sentinel. *)
Definition new : TimerManager := mkManager ∅ 1 false.

(** Modelled from the spec: start(duration, callback, cyclic) registers a new
    job and returns a fresh id; it is a no-op on a manager that has been
    stopped. *)
Definition start (d : Z) (cb : TimerCallback) (cyc : bool) (m : TimerManager)
  : JobID * TimerManager :=
  if stopped m then (invalidJobID, m)
  else (next_id m,
        mkManager (<[next_id m := mkJob d cyc cb]> (jobs m)) (S (next_id m)) false).

(** Modelled from the spec: stop(id) cancels the job if present. *)
Definition stop_job (id : JobID) (m : TimerManager) : TimerManager :=
  mkManager (delete id (jobs m)) (next_id m) (stopped m).

(** Modelled from the spec: restart(id) re-arms an existing job with its
    original duration; the set of scheduled jobs does not change. *)
Definition restart (id : JobID) (m : TimerManager) : TimerManager := m.

(** Modelled from the spec: setCyclic(id, cyclic) flips the cyclicity of an
    existing job. *)
Definition setCyclic (id : JobID) (c : bool) (m : TimerManager) : TimerManager :=
  mkManager (alter (λ j, mkJob (duration j) c (job_callback j)) id (jobs m))
            (next_id m) (stopped m).

(** Modelled from the spec: isRunning(id) is true iff a job with that id is
    currently scheduled. *)
Definition isRunning (id : JobID) (m : TimerManager) : bool :=
  bool_decide (is_Some (jobs m !! id)).

(** Modelled from the spec: stop() terminates the manager, cancelling all
    jobs. *)
Definition stop (m : TimerManager) : TimerManager :=
  mkManager ∅ (next_id m) true.

(** Modelled from the spec: what an expiry does to the job table (section 3):
    a one-shot job is removed, a cyclic job stays scheduled. *)
Definition expired (id : JobID) (m : TimerManager) : TimerManager :=
  match jobs m !! id with
  | Some job => if cyclic job then m else stop_job id m
  | None => m
  end.

End TimerManager.

(** ** Component::ComponentImpl (Component.cpp) *)

(** [LaunchMode] of Component.h. *)
Inductive LaunchMode := Async | Sync.

Inductive LoopEnd :=
| Finished      (* the loop was left because wait returned false *)
| Blocked       (* the loop is inside wait on an open, empty queue *)
| OutOfFuel.    (* the bound on the number of iterations was reached *)

Module ComponentImpl.
Section WithUserCode.
Context {U : UserCode}.

(** Component.cpp:114-121 *)
Definition registerMessageHandler (this : CompId) (msgType : MessageType)
    (onMessageFunc : BaseMessageHandlerFunc) : M unit :=
  match onMessageFunc with
  | Some f =>
      update_impl this
        (λ impl, with_msgHandlers (std_map_insert msgType f (_msgHandlers impl)) impl)
  | None => ret ()
  end.

(** Component.cpp:106-112, the overload taking a [MessageHandler*]. *)
Definition registerMessageHandler_obj (this : CompId) (msgType : MessageType)
    (handler : option HandlerObj) : M unit :=
  match handler with
  | Some h => registerMessageHandler this msgType (Some (OnMessageOf h))
  | None => ret ()
  end.

(** Component.cpp:41-51.  The members are default-constructed (the queue
    open and empty, section 3), then the two built-in handlers are
    registered. *)
Definition ctor (this : CompId) : M unit :=
  modify (set_components
            <[this := mkImpl None None MessageQueue.empty ∅ None]>) ;;;
  registerMessageHandler this idof_TimeoutMessage (Some ExecuteTimeout) ;;;
  registerMessageHandler this idof_CallbackExcMsg (Some ExecuteCallback).

(** [_msgQueue.push(std::move(msg))] *)
Definition msgQueue_push (fault : option Exn) (this : CompId)
    (msg : MessageBasePtr) : M unit :=
  impl <~ this_impl this ;;
  match MessageQueue.push fault msg (_msgQueue impl) with
  | inl e => throw e
  | inr q => update_impl this (with_msgQueue q)
  end.

(** Component.cpp:86-104 *)
Definition postMessage (fault : option Exn) (this : CompId)
    (msg : MessageBasePtr) : M unit :=
  try_catch
    (msgQueue_push fault this msg)
    [ catch_bad_alloc (λ what, mafErr ("Queue overflow: " +:+ what));
      catch_std_exception
        (λ what, mafErr ("Exception occurred when pushing data to queue: " +:+ what));
      catch_all (mafErr "Unkown exception occurred when pushing data to queue!") ].

(** [std::make_shared<threading::TimerManager>()] *)
Definition make_shared_TimerManager : M MgrId :=
  m <~ gets next_manager ;;
  modify (set_managers <[m := TimerManager.new]>) ;;;
  modify (set_next_manager (S m)) ;;;
  ret m.

(** Component.cpp:123-130 *)
Definition getTimerManager (this : CompId) : M TimerMgrPtr :=
  (impl <~ this_impl this ;;
   match _timerMgr impl with
   | None =>
       m <~ make_shared_TimerManager ;;
       update_impl this (with_timerMgr (Some m))
   | Some _ => ret ()
   end) ;;;
  impl <~ this_impl this ;;
  ret (_timerMgr impl).

(** Modelled from the spec: maf/messaging/BasicMessages.h is not part of
    the sources.  Section 6: the default handler of a TimeoutMessage or a
    CallbackExcMsg calls its callback; calling an empty [std::function]
    throws [std::bad_function_call]. *)
Definition execute (msg : Message) : M unit :=
  match msg with
  | TimeoutMessage _ (Some cb) | CallbackExcMsg (Some cb) => user (call cb)
  | TimeoutMessage _ None | CallbackExcMsg None =>
      throw (std_exception "bad_function_call")
  | UserMessage _ _ => undefined
  end.

(** [handlerFunc(msg)]: the call of a stored handler. *)
Definition invoke (handlerFunc : HandlerFunc) (msg : Message) : M unit :=
  match handlerFunc with
  | ExecuteTimeout => execute msg
  | ExecuteCallback => execute msg
  | OnMessageOf h => user (onMessage h msg)
  | UserFunc f => user (handle f msg)
  end.

(** Component.cpp:150-158: the handler copied out of the map, empty when
    the type has none. *)
Definition find_handler (impl : ComponentImpl) (msg : Message)
  : BaseMessageHandlerFunc :=
  _msgHandlers impl !! idof msg.

(** Component.cpp:143-179: the body of the loop for a popped message. *)
Definition dispatch (this : CompId) (msg : MessageBasePtr) : M unit :=
  match msg with
  | None => mafErr "Got nullptr message"
  | Some m =>
      impl <~ this_impl this ;;
      match find_handler impl m with
      | Some handlerFunc =>
          try_catch
            (emit (EvHandler handlerFunc m) ;;;
             invoke handlerFunc m)
            [ catch_std_exception
                (λ what, mafErr ("Exception occurred while executing messageHandler function: " +:+ what));
              catch_all
                (mafErr "Unknown exception occurred while executing messageHandler function: ") ]
      | None =>
          mafWarn ("There's no handler for message " +:+ MessageType_name (idof m))
      end
  end.

(** Component.cpp:141-180: [while (_msgQueue.wait(msg)) { ... }], with a
    bound on the number of iterations. *)
Fixpoint message_loop (fuel : nat) (this : CompId) : M LoopEnd :=
  match fuel with
  | 0 => ret OutOfFuel
  | S fuel' =>
      impl <~ this_impl this ;;
      match MessageQueue.wait (_msgQueue impl) with
      | Popped msg q =>
          update_impl this (with_msgQueue q) ;;;
          dispatch this msg ;;;
          message_loop fuel' this
      | Drained => ret Finished
      | Waiting => ret Blocked
      end
  end.

(** Component.cpp:135-138 and 182-185: a hook is called when it is not
    empty and [_compref.lock()] succeeds. *)
Definition call_hook (this : CompId) (ev : Closure → Event)
    (hook : option Closure) : M unit :=
  match hook with
  | Some f =>
      impl <~ this_impl this ;;
      component <~ lock (_compref impl) ;;
      match component with
      | Some _ => emit (ev f) ;;; user (call f)
      | None => ret ()
      end
  | None => ret ()
  end.

(** Component.cpp:140-185: the loop, then the exit hook once the loop has
    been left. *)
Definition loop_then_exit (fuel : nat) (this : CompId) (onExit : option Closure)
  : M LoopEnd :=
  r <~ message_loop fuel this ;;
  match r with
  | Finished => call_hook this EvOnExit onExit ;;; ret Finished
  | Blocked => ret Blocked
  | OutOfFuel => ret OutOfFuel
  end.

(** Component.cpp:132-186.  [tid] is the thread the loop runs on. *)
Definition startMessageLoop (fuel : nat) (tid : ThreadId) (this : CompId)
    (compref : ComponentRef) (onEntry onExit : option Closure) : M LoopEnd :=
  assign_tlwpInstance tid compref ;;;
  emit (EvBindActive tid compref) ;;;
  update_impl this (with_compref compref) ;;;
  call_hook this EvOnEntry onEntry ;;;
  loop_then_exit fuel this onExit.

(** An exception that leaves the function of a thread ends the program. *)
Definition thread_function {A} (body : M A) : M A :=
  λ s, match body s with
       | Exc _ s' => Halted Terminated s'
       | r => r
       end.

Definition set_progress (t : ThreadId) (w : Worker) (p : Progress) : M unit :=
  modify (set_threads <[t := with_progress p w]>).

(** Component.cpp:62-65: the function of the worker thread [t], followed
    from where the thread stands until it returns or waits.  A thread that
    has not begun runs [startMessageLoop] on its captures; a thread that was
    left inside the loop goes on with the loop and the exit hook. *)
Definition thread_body (fuel : nat) (t : ThreadId) : M LoopEnd :=
  w <~ this_thread t ;;
  match w_progress w with
  | Ended => ret Finished
  | NotStarted =>
      set_progress t w InLoop ;;;
      r <~ thread_function
             (startMessageLoop fuel t (w_this w) (w_compref w) (w_onEntry w) (w_onExit w)) ;;
      match r with
      | Finished => set_progress t w Ended ;;; ret Finished
      | _ => ret r
      end
  | InLoop =>
      r <~ thread_function (loop_then_exit fuel (w_this w) (w_onExit w)) ;;
      match r with
      | Finished => set_progress t w Ended ;;; ret Finished
      | _ => ret r
      end
  end.

(** [std::thread::join] on the thread [t]: the call returns once the
    function of [t] has returned, so whatever [t] still has to do is done
    before the caller goes on.  When [t] waits on an open, empty queue the
    call does not return. *)
Definition thread_join (fuel : nat) (t : ThreadId) : M unit :=
  r <~ thread_body fuel t ;;
  match r with
  | Finished => emit (EvJoin t)
  | Blocked => halt Waits
  | OutOfFuel => halt Unbounded
  end.

(** Component.cpp:75-76 *)
Definition close_and_release (this : CompId) : M unit :=
  (impl <~ this_impl this ;;
   emit (EvQueueClose this) ;;;
   update_impl this (with_msgQueue (MessageQueue.close (_msgQueue impl)))) ;;;
  (impl <~ this_impl this ;;
   match _timerMgr impl with
   | Some m =>
       emit (EvTimerMgrStop m) ;;;
       update_manager m TimerManager.stop ;;;
       emit (EvTimerMgrReset this) ;;;
       update_impl this (with_timerMgr None)
   | None => ret ()
   end).

(** Component.cpp:77-83.  [tid] is [std::this_thread::get_id()]; after
    [join] the thread object is no longer joinable. *)
Definition join_worker (fuel : nat) (tid : ThreadId) (this : CompId) : M unit :=
  impl <~ this_impl this ;;
  if decide (Some tid ≠ _workerThread impl) then
    match _workerThread impl with
    | Some t =>
        thread_join fuel t ;;;
        update_impl this (with_workerThread None)
    | None => ret ()
    end
  else ret ().

(** Component.cpp:73-84 *)
Definition stop (fuel : nat) (tid : ThreadId) (this : CompId) : M unit :=
  close_and_release this ;;;
  join_worker fuel tid this.

(** Component.cpp:53-56 *)
Definition dtor (fuel : nat) (tid : ThreadId) (this : CompId) : M unit :=
  stop fuel tid this.

(** Component.cpp:58-71.  In [Async] mode a new thread, [spawned], is
    created on the lambda and move-assigned to [_workerThread]; the
    assignment calls [std::terminate] when [_workerThread] is joinable.  The
    call returns without waiting for the thread, whose body is followed by
    [thread_body].  In [Sync] mode the loop runs on the calling thread
    [tid]. *)
Definition run (fuel : nat) (tid spawned : ThreadId) (this : CompId)
    (compref : ComponentRef) (mode : LaunchMode) (onEntry onExit : option Closure)
  : M (option LoopEnd) :=
  match mode with
  | Async =>
      impl <~ this_impl this ;;
      match _workerThread impl with
      | Some _ => halt Terminated
      | None =>
          modify (set_threads
                    <[spawned := mkWorker this compref onEntry onExit NotStarted]>) ;;;
          update_impl this (with_workerThread (Some spawned)) ;;;
          ret None
      end
  | Sync =>
      r <~ startMessageLoop fuel tid this compref onEntry onExit ;;
      ret (Some r)
  end.

End WithUserCode.
End ComponentImpl.

(** ** Component (Component.cpp:188-213)

    A [Component] and its [_pImpl] share one address in the store. *)

Module Component.
Section WithUserCode.
Context {U : UserCode}.

(** Component.cpp:188 *)
Definition ctor (this : CompId) : M unit := ComponentImpl.ctor this.

(** Component.cpp:195 *)
Definition stop (fuel : nat) (tid : ThreadId) (this : CompId) : M unit :=
  ComponentImpl.stop fuel tid this.

(** Component.cpp:196 *)
Definition postMessage (fault : option Exn) (this : CompId)
    (msg : MessageBasePtr) : M unit :=
  ComponentImpl.postMessage fault this msg.

(** Component.cpp:197 *)
Definition registerMessageHandler_obj (this : CompId) (msgType : MessageType)
    (handler : option HandlerObj) : M unit :=
  ComponentImpl.registerMessageHandler_obj this msgType handler.

(** Component.cpp:198 *)
Definition registerMessageHandler (this : CompId) (msgType : MessageType)
    (onMessageFunc : BaseMessageHandlerFunc) : M unit :=
  ComponentImpl.registerMessageHandler this msgType onMessageFunc.

(** Component.cpp:199.  [tid] is the calling thread. *)
Definition getActiveWeakPtr (tid : ThreadId) : M ComponentRef :=
  gets (λ w, _tlwpInstance w !! tid).

(** Component.cpp:200 *)
Definition getActiveSharedPtr (tid : ThreadId) : M (option CompId) :=
  ref <~ getActiveWeakPtr tid ;;
  lock ref.

(** Component.cpp:202-213 *)
Definition getTimerManager (tid : ThreadId) : M TimerMgrPtr :=
  spInstance <~ getActiveSharedPtr tid ;;
  match spInstance with
  | Some c => ComponentImpl.getTimerManager c
  | None => ret None
  end.

End WithUserCode.
End Component.

(** ** Timer (Timer.cpp) *)

Module Timer.
Section WithUserCode.
Context {U : UserCode}.

(** Timer.cpp:14-16 *)
Definition ctor (this : TimerPtr) : M unit :=
  modify (set_timers <[this := mkTimer TimerManager.invalidJobID false None]>).

(** Timer.cpp:67-73 *)
Definition restart (this : TimerPtr) : M unit :=
  t <~ this_timer this ;;
  match _myMgr t with
  | Some m => update_manager m (TimerManager.restart (_id t))
  | None => ret ()
  end.

(** Timer.cpp:75-81 *)
Definition stop (this : TimerPtr) : M unit :=
  t <~ this_timer this ;;
  match _myMgr t with
  | Some m => update_manager m (TimerManager.stop_job (_id t))
  | None => ret ()
  end.

(** Timer.cpp:18-21 *)
Definition dtor (this : TimerPtr) : M unit :=
  stop this ;;;
  modify (set_timers (delete this)).

(** Timer.cpp:83-86 *)
Definition running (this : TimerPtr) : M bool :=
  t <~ this_timer this ;;
  match _myMgr t with
  | Some m =>
      mgr <~ this_manager m ;;
      ret (TimerManager.isRunning (_id t) mgr)
  | None => ret false
  end.

(** Timer.cpp:88-98 *)
Definition setCyclic (this : TimerPtr) (cyclic : bool) : M unit :=
  t <~ this_timer this ;;
  if decide (cyclic ≠ _cyclic t) then
    update_timer this (with_cyclic cyclic) ;;;
    match _myMgr t with
    | Some m => update_manager m (TimerManager.setCyclic (_id t) cyclic)
    | None => ret ()
    end
  else ret ().

(** Timer.cpp:37-60: the body of the lambda [onTimeout], applied to its
    captures.  It runs on the thread of the timer manager; [fault] is the
    failure of the allocator during the push, if any. *)
Definition onTimeout (fault : option Exn) (componentRef : ComponentRef)
    (callback : Closure) (this : TimerPtr) : M unit :=
  t <~ this_timer this ;;
  let msg := TimeoutMessage (_id t) (Some callback) in
  component <~ lock componentRef ;;
  match component with
  | Some c => Component.postMessage fault c (Some msg)
  | None =>
      (t <~ this_timer this ;;
       match _cyclic t, _myMgr t with
       | true, Some m => update_manager m (TimerManager.stop_job (_id t))
       | _, _ => ret ()
       end) ;;;
      update_timer this (with_id TimerManager.invalidJobID)
  end ;;;
  t <~ this_timer this ;;
  if negb (_cyclic t) then
    update_timer this (with_id TimerManager.invalidJobID)
  else ret ().

(** [_myMgr->start(milliseconds, onTimeout, _cyclic)] *)
Definition myMgr_start (m : MgrId) (milliseconds : Z) (cb : TimerCallback)
    (cyclic : bool) : M JobID :=
  mgr <~ this_manager m ;;
  let r := TimerManager.start milliseconds cb cyclic mgr in
  modify (set_managers <[m := r.2]>) ;;;
  ret r.1.

(** Timer.cpp:23-65.  [tid] is the calling thread. *)
Definition start (tid : ThreadId) (this : TimerPtr) (milliseconds : Z)
    (callback : option Closure) : M unit :=
  match callback with
  | None => mafErr "[Timer]: Please specify not null callback"
  | Some cb =>
      mgr <~ Component.getTimerManager tid ;;
      update_timer this (with_myMgr mgr) ;;;
      match mgr with
      | Some m =>
          r <~ running this ;;
          (if r then
             mafInfo "Timer is still running, then stop!" ;;;
             stop this
           else ret ()) ;;;
          componentRef <~ Component.getActiveWeakPtr tid ;;
          t <~ this_timer this ;;
          id <~ myMgr_start m milliseconds (OnTimeout componentRef cb this) (_cyclic t) ;;
          update_timer this (with_id id) ;;;
          mafInfo ("Start new timer with id = " +:+ pretty id)
      | None => ret ()
      end
  end.

End WithUserCode.
End Timer.

(** ** The thread of the timer manager *)

Module TimerThread.
Section WithUserCode.
Context {U : UserCode}.

(** The call of a job's callback. *)
Definition run_callback (fault : option Exn) (cb : TimerCallback) : M unit :=
  match cb with
  | OnTimeout componentRef callback this =>
      Timer.onTimeout fault componentRef callback this
  | UserJob f => user (call f)
  end.

(** Modelled from the spec: the scheduler of maf/threading/TimerManager.h
    is not part of the sources.  Sections 3 and 4.4: when a scheduled job
    expires, a one-shot job is removed and its callback is called on the
    manager's thread; an id that is not scheduled never fires. *)
Definition expire (fault : option Exn) (m : MgrId) (id : JobID) : M unit :=
  mgr <~ this_manager m ;;
  match jobs mgr !! id with
  | Some job =>
      modify (set_managers <[m := TimerManager.expired id mgr]>) ;;;
      run_callback fault (job_callback job)
  | None => ret ()
  end.

End WithUserCode.
End TimerThread.

(** ** NamedPipeSenderBase (NamedPipeSenderBase.h) *)

Module NamedPipeSenderBase.
Section WithAddress.

(** Address.h and PipeShared.h are not part of the sources: the address
    type with its comparison, [Address::INVALID_ADDRESS] and
    [constructPipeName] are parameters. *)
Context {Address : Type} `{EqDecision Address}.
Variable INVALID_ADDRESS : Address.
Variable constructPipeName : Address → string.

Record t := mk {
  _pipeName : string;
  _receiverAddress : Address
}.

(** NamedPipeSenderBase.h:19-26 *)
Definition initConnection (addr : Address) (this : t) : t :=
  if decide (addr ≠ INVALID_ADDRESS ∧ _receiverAddress this ≠ addr) then
    mk (constructPipeName addr) addr
  else this.

(** NamedPipeSenderBase.h:32-35 *)
Definition receiverAddress (this : t) : Address := _receiverAddress this.

End WithAddress.
End NamedPipeSenderBase.

(** ** Observations on a run *)

(** The state a call ends in, however it ends. *)
Definition final {A} (r : Res A) : St :=
  match r with
  | Val _ s => s
  | Exc _ s => s
  | Undef s => s
  | Halted _ s => s
  end.

(** The call does not leave by an exception. *)
Definition no_exception {A} (r : Res A) : Prop :=
  match r with
  | Exc _ _ => False
  | _ => True
  end.

(** [a] occurs in the trace strictly before [b]. *)
Definition precedes (a b : Event) (tr : list Event) : Prop :=
  ∃ l1 l2 l3, tr = l1 ++ a :: l2 ++ b :: l3.

(** The event is the call of a message handler. *)
Definition is_handler_call (ev : Event) : Prop :=
  match ev with
  | EvHandler _ _ => True
  | _ => False
  end.

(** The weak handle [ref] upgrades in store [w]. *)
Definition upgrades (ref : ComponentRef) (w : World) : Prop :=
  ∃ c, ref = Some c ∧ is_Some (components w !! c).

(** The state once [startMessageLoop], on thread [tid] and on a component
    whose fields were [impl], has made the two assignments of
    Component.cpp:134. *)
Definition bound (tid : ThreadId) (this : CompId) (compref : ComponentRef)
    (impl : ComponentImpl) (s : St) : St :=
  mkSt (set_components <[this := with_compref compref impl]>
          (set_tlwpInstance
             (match compref with
              | Some c => <[tid := c]>
              | None => delete tid
              end : gmap ThreadId CompId → gmap ThreadId CompId)
             (world s)))
       (trace s ++ [EvBindActive tid compref]).

(** The handler map holds the two handlers installed by the constructor. *)
Definition has_builtin_handlers (impl : ComponentImpl) : Prop :=
  _msgHandlers impl !! idof_TimeoutMessage = Some ExecuteTimeout
  ∧ _msgHandlers impl !! idof_CallbackExcMsg = Some ExecuteCallback.

(** The text logged by the message loop for a handler's exception
    (Component.cpp:166-173). *)
Definition handler_fault_text (e : Exn) : string :=
  match e with
  | bad_alloc what | std_exception what =>
      "Exception occurred while executing messageHandler function: " +:+ what
  | unknown_exception =>
      "Unknown exception occurred while executing messageHandler function: "
  end.

(** The text logged by [postMessage] for a failed push (Component.cpp:92-103). *)
Definition push_fault_text (e : Exn) : string :=
  match e with
  | bad_alloc what => "Queue overflow: " +:+ what
  | std_exception what => "Exception occurred when pushing data to queue: " +:+ what
  | unknown_exception => "Unkown exception occurred when pushing data to queue!"
  end.

(** ** Drivers *)

(** One call of either overload of [Component::registerMessageHandler]. *)
Inductive Registration :=
| RegisterFunc (msgType : MessageType) (onMessageFunc : BaseMessageHandlerFunc)
| RegisterObj (msgType : MessageType) (handler : option HandlerObj).

Definition register (this : CompId) (r : Registration) : M unit :=
  match r with
  | RegisterFunc msgType f => Component.registerMessageHandler this msgType f
  | RegisterObj msgType h => Component.registerMessageHandler_obj this msgType h
  end.

(** A sequence of registrations on one component, in order. *)
Fixpoint register_all (this : CompId) (rs : list Registration) : M unit :=
  match rs with
  | [] => ret ()
  | r :: rest => register this r ;;; register_all this rest
  end.

(** Successive expiry attempts of one job id, one per entry of [faults]. *)
Fixpoint expire_all {U : UserCode} (faults : list (option Exn)) (m : MgrId) (id : JobID)
  : M unit :=
  match faults with
  | [] => ret ()
  | fault :: rest => TimerThread.expire fault m id ;;; expire_all rest m id
  end.

(** ** What [stop] leaves behind

    The fields of a component, the store and the calls made once lines 75
    and 76 of Component.cpp have run, before [stop] turns to the worker
    thread. *)

Definition timer_events (this : CompId) (impl : ComponentImpl) : list Event :=
  match _timerMgr impl with
  | Some m => [EvTimerMgrStop m; EvTimerMgrReset this]
  | None => []
  end.

Definition released_impl (impl : ComponentImpl) : ComponentImpl :=
  with_timerMgr None (with_msgQueue (MessageQueue.close (_msgQueue impl)) impl).

Definition released_world (this : CompId) (impl : ComponentImpl) (w : World) : World :=
  set_components <[this := released_impl impl]>
    (match _timerMgr impl with
     | Some m => set_managers (alter TimerManager.stop m) w
     | None => w
     end).

Definition released (this : CompId) (impl : ComponentImpl) (s : St) : St :=
  mkSt (released_world this impl (world s))
       (trace s ++ EvQueueClose this :: timer_events this impl).

(** [stop] on thread [tid] joins no thread: the component has no joinable
    worker, or the caller is the worker. *)
Definition joins_nothing (tid : ThreadId) (impl : ComponentImpl) : Prop :=
  _workerThread impl = None ∨ _workerThread impl = Some tid.

(** The event is a call made by the message loop of a component. *)
Definition loop_event (ev : Event) : Prop :=
  match ev with
  | EvBindActive _ _ | EvOnEntry _ | EvOnExit _ | EvHandler _ _ => True
  | _ => False
  end.

(** The event is a call made by a worker thread, or the return of a [join]. *)
Definition worker_event (ev : Event) : Prop :=
  loop_event ev ∨ ∃ t, ev = EvJoin t.

(** However it ends, a run of [m] adds to the trace only events that
    satisfy [P]. *)
Definition appends {A} (P : Event → Prop) (m : M A) : Prop :=
  ∀ s, ∃ evs, trace (final (m s)) = trace s ++ evs ∧ Forall P evs.

(** ** A small application, for concrete runs

    Callable 0 returns, callable 1 throws a [std::exception], every other
    callable throws something that is not one. *)
Definition sample_body (f : Closure) (w : World) : UserRes :=
  match f with
  | 0 => Returned (add_log (Info, "pong") w)
  | 1 => Threw (std_exception "boom") w
  | _ => Threw unknown_exception w
  end.

Definition sample_name (t : MessageType) : string :=
  match t with
  | idof_TimeoutMessage => "TimeoutMessage"
  | idof_CallbackExcMsg => "CallbackExcMsg"
  | idof_user n => "Message#" +:+ pretty n
  end.

Definition sample_code : UserCode :=
  {| call := sample_body;
     handle := λ f _, sample_body f;
     onMessage := λ h _, sample_body h;
     MessageType_name := sample_name |}.

Definition empty_world : World := mkWorld ∅ ∅ ∅ ∅ 0 [] ∅.

Definition empty_state : St := mkSt empty_world [].

(** Component 1, freshly constructed. *)
Definition fresh_component : St :=
  final (Component.ctor 1 empty_state).

(** Component 1 after its first use of a timer: it owns timer manager 0. *)
Definition component_with_timers : St :=
  final ((Component.ctor 1 ;;; ComponentImpl.getTimerManager 1) empty_state).

(** The same component, launched in [Async] mode with worker thread 4. *)
Definition component_with_worker : St :=
  final (ComponentImpl.run (U := sample_code) 0 9 4 1 (Some 1) Async None None
           component_with_timers).




(** Scenario S2 of the specification, before the loop runs: on component 1
    the handler of type 7 throws, the handler of type 8 returns; one message
    of each type is queued, the faulty one first. *)
Definition scenario_S2 : St :=
  final ((ComponentImpl.registerMessageHandler 1 (idof_user 7) (Some (UserFunc 1)) ;;;
          ComponentImpl.registerMessageHandler 1 (idof_user 8) (Some (UserFunc 0)) ;;;
          ComponentImpl.postMessage None 1 (Some (UserMessage 7 0)) ;;;
          ComponentImpl.postMessage None 1 (Some (UserMessage 8 0)))
           fresh_component).

(** Timer 7, constructed and started as a one-shot timer (20 ms, callable 0)
    on thread 3, whose active component is component 1. *)
Definition armed_timer : St :=
  final ((Component.ctor 1 ;;;
          assign_tlwpInstance 3 (Some 1) ;;;
          Timer.ctor 7 ;;;
          Timer.start 3 7 20 (Some 0)) empty_state).

(** ** Observations and drivers for the further properties *)

(** The message type a registration is for. *)
Definition registered_type (r : Registration) : MessageType :=
  match r with
  | RegisterFunc msgType _ => msgType
  | RegisterObj msgType _ => msgType
  end.

(** The registration passes a null callable or a null handler object. *)
Definition null_registration (r : Registration) : bool :=
  match r with
  | RegisterFunc _ None | RegisterObj _ None => true
  | _ => false
  end.

(** Everything in the store but the components. *)
Definition outside_components (w : World)
  : gmap ThreadId CompId * gmap MgrId TimerManager * gmap TimerPtr Timer
    * MgrId * list LogEntry * gmap ThreadId Worker :=
  (_tlwpInstance w, managers w, timers w, next_manager w, log w, threads w).

(** The store a call into application code ends in. *)
Definition result_world (r : UserRes) : World :=
  match r with
  | Returned w => w
  | Threw _ w => w
  end.

(** Application code that leaves component [this] as it finds it: it posts
    nothing to it, registers nothing on it, and does not stop or destroy
    it. *)
Definition leaves_component (U : UserCode) (this : CompId) : Prop :=
  (∀ f w, components (result_world (call f w)) !! this = components w !! this)
  ∧ (∀ f msg w, components (result_world (handle f msg w)) !! this = components w !! this)
  ∧ (∀ h msg w, components (result_world (onMessage h msg w)) !! this = components w !! this).

(** A handler may be stored under a message type: the two lambdas of the
    constructor cast the message to the class they were written for, so they
    serve only the two built-in classes. *)
Definition handler_serves (msgType : MessageType) (h : HandlerFunc) : bool :=
  match h, msgType with
  | (ExecuteTimeout | ExecuteCallback), idof_user _ => false
  | _, _ => true
  end.

Definition builtin_handlers_typed (impl : ComponentImpl) : Prop :=
  map_Forall (λ msgType h, handler_serves msgType h = true) (_msgHandlers impl).

(** The handler call a queued message leads to, if any. *)
Definition handler_call (impl : ComponentImpl) (msg : MessageBasePtr) : option Event :=
  m ← msg; h ← ComponentImpl.find_handler impl m; Some (EvHandler h m).

(** Scenario S6 of the specification: a message of a type without handler
    is queued on the fresh component 1. *)
Definition scenario_S6 : St :=
  final (ComponentImpl.postMessage None 1 (Some (UserMessage 7 0)) fresh_component).

(** A null message is queued on the fresh component 1. *)
Definition scenario_null : St :=
  final (ComponentImpl.postMessage None 1 None fresh_component).

(** Scenario S2 after [stop] on thread 3: the queue is closed with both
    messages still in it. *)
Definition scenario_S2_stopped : St :=
  final (ComponentImpl.stop (U := sample_code) 0 3 1 scenario_S2).

(** A sender after a sequence of [initConnection] calls, in order. *)
Definition initConnections {Address : Type} `{EqDecision Address}
    (INVALID_ADDRESS : Address) (constructPipeName : Address → string)
    (addrs : list Address) (this : NamedPipeSenderBase.t)
  : NamedPipeSenderBase.t :=
  foldl (λ sender addr,
           NamedPipeSenderBase.initConnection INVALID_ADDRESS constructPipeName addr sender)
        this addrs.

(** The pipe name of a sender is the one constructed from its receiver
    address. *)
Definition pipe_name_in_step {Address : Type} (constructPipeName : Address → string)
    (this : NamedPipeSenderBase.t) : Prop :=
  NamedPipeSenderBase._pipeName this
  = constructPipeName (NamedPipeSenderBase._receiverAddress this).

(** Timer 7, made cyclic and started (10 ms, callable 0) on thread 3, whose
    active component is component 1. *)
Definition cyclic_timer : St :=
  final ((Component.ctor 1 ;;;
          assign_tlwpInstance 3 (Some 1) ;;;
          Timer.ctor 7 ;;;
          Timer.setCyclic 7 true ;;;
          Timer.start 3 7 10 (Some 0)) empty_state).

(** The same timer after its component has been destroyed. *)
Definition orphaned_cyclic_timer : St :=
  final (modify (set_components (delete 1)) cyclic_timer).

(** The registration passes something application code can pass: its own
    callable, a handler object, or null.  The two lambdas of the constructor
    are local to it (Component.cpp:42-50). *)
Definition application_registration (r : Registration) : bool :=
  match r with
  | RegisterFunc _ (Some (ExecuteTimeout | ExecuteCallback)) => false
  | _ => true
  end.

(** The constructor's lambdas are stored under their own types only. *)
Definition builtin_handlers_in_place (impl : ComponentImpl) : Prop :=
  ∀ msgType,
    (_msgHandlers impl !! msgType = Some ExecuteTimeout → msgType = idof_TimeoutMessage)
    ∧ (_msgHandlers impl !! msgType = Some ExecuteCallback → msgType = idof_CallbackExcMsg).

(** * Properties *)

(** ** The execution monad and the store *)

Section MonadFacts.
Context {A B : Type}.

Lemma bind_Val (m : M A) (k : A → M B) s a s' :
  m s = Val a s' → bind m k s = k a s'.
Proof. intros E. unfold bind. by rewrite E. Qed.

Lemma bind_Exc (m : M A) (k : A → M B) s e s' :
  m s = Exc e s' → bind m k s = Exc e s'.
Proof. intros E. unfold bind. by rewrite E. Qed.

Lemma bind_Undef (m : M A) (k : A → M B) s s' :
  m s = Undef s' → bind m k s = Undef s'.
Proof. intros E. unfold bind. by rewrite E. Qed.
End MonadFacts.

Lemma this_impl_Some this impl s :
  components (world s) !! this = Some impl → this_impl this s = Val impl s.
Proof. intros E. unfold this_impl. by rewrite E. Qed.

Lemma this_impl_None this s :
  components (world s) !! this = None → this_impl this s = Undef s.
Proof. intros E. unfold this_impl. by rewrite E. Qed.

Lemma update_impl_Some this f impl s :
  components (world s) !! this = Some impl →
  update_impl this f s
  = Val () (mkSt (set_components <[this := f impl]> (world s)) (trace s)).
Proof. intros E. unfold update_impl. by rewrite (bind_Val _ _ _ _ _ (this_impl_Some _ _ _ E)). Qed.

Lemma update_impl_None this f s :
  components (world s) !! this = None →
  update_impl this f s = Undef s.
Proof. intros E. unfold update_impl. by rewrite (bind_Undef _ _ _ _ (this_impl_None _ _ E)). Qed.

Lemma lookup_set_components this impl w :
  components (set_components <[this := impl]> w) !! this = Some impl.
Proof. simpl. apply lookup_insert_eq. Qed.

Lemma std_map_insert_lookup {V} k (v : V) m :
  std_map_insert k v m !! k = Some (default v (m !! k)).
Proof.
  unfold std_map_insert. destruct (m !! k) eqn:E; simpl; [done|].
  apply lookup_insert_eq.
Qed.

Lemma std_map_insert_present {V} k (v v' : V) m :
  m !! k = Some v' → std_map_insert k v m = m.
Proof. intros E. unfold std_map_insert. by rewrite E. Qed.

Lemma std_map_insert_other {V} k k' (v : V) m :
  k ≠ k' → std_map_insert k v m !! k' = m !! k'.
Proof.
  intros N. unfold std_map_insert. destruct (m !! k); [done|].
  by rewrite lookup_insert_ne.
Qed.

Lemma std_map_insert_twice {V} k (v v' : V) m :
  std_map_insert k v' (std_map_insert k v m) = std_map_insert k v m.
Proof. eapply std_map_insert_present, std_map_insert_lookup. Qed.

Lemma registerMessageHandler_Some this t f impl s :
  components (world s) !! this = Some impl →
  ComponentImpl.registerMessageHandler this t (Some f) s
  = Val () (mkSt (set_components
                    <[this := with_msgHandlers (std_map_insert t f (_msgHandlers impl)) impl]>
                    (world s)) (trace s)).
Proof. intros E. unfold ComponentImpl.registerMessageHandler. by rewrite (update_impl_Some _ _ _ _ E). Qed.

Lemma set_components_insert_insert this i1 i2 w :
  set_components <[this := i2]> (set_components <[this := i1]> w)
  = set_components <[this := i2]> w.
Proof. unfold set_components; simpl. by rewrite insert_insert_eq. Qed.

Lemma set_components_insert_id this impl w :
  components w !! this = Some impl → set_components <[this := impl]> w = w.
Proof. intros E. destruct w; unfold set_components; simpl in *. by rewrite insert_id. Qed.

Section Registry.
Context {U : UserCode}.

Lemma mafErr_run text s : mafErr text s = Val () (mkSt (add_log (Err, text) (world s)) (trace s)).
Proof. reflexivity. Qed.

Lemma invoke_trace h msg s : trace (final (ComponentImpl.invoke h msg s)) = trace s.
Proof.
  destruct h; simpl; unfold ComponentImpl.execute, user, throw, undefined.
  all: repeat case_match; simpl; done.
Qed.

Lemma select_handler_clauses e :
  select_clause
    [ catch_std_exception
        (λ what, mafErr ("Exception occurred while executing messageHandler function: " +:+ what));
      catch_all
        (mafErr "Unknown exception occurred while executing messageHandler function: ") ] e
  = Some (mafErr (handler_fault_text e)).
Proof. by destruct e. Qed.

Lemma dispatch_found this msg impl h s :
  components (world s) !! this = Some impl →
  ComponentImpl.find_handler impl msg = Some h →
  ComponentImpl.dispatch this (Some msg) s
  = match ComponentImpl.invoke h msg (mkSt (world s) (trace s ++ [EvHandler h msg])) with
    | Exc e s' => Val () (mkSt (add_log (Err, handler_fault_text e) (world s')) (trace s'))
    | r => r
    end.
Proof.
  intros E F. unfold ComponentImpl.dispatch.
  rewrite (bind_Val _ _ _ _ _ (this_impl_Some _ _ _ E)), F.
  unfold try_catch, bind, emit.
  destruct (ComponentImpl.invoke _ _ _) eqn:I; try done.
  by rewrite select_handler_clauses.
Qed.

Lemma dispatch_found_trace this msg impl h s :
  components (world s) !! this = Some impl →
  ComponentImpl.find_handler impl msg = Some h →
  trace (final (ComponentImpl.dispatch this (Some msg) s)) = trace s ++ [EvHandler h msg].
Proof.
  intros E F. rewrite (dispatch_found _ _ _ _ _ E F).
  pose proof (invoke_trace h msg (mkSt (world s) (trace s ++ [EvHandler h msg]))) as T.
  destruct (ComponentImpl.invoke _ _ _); simpl in *; done.
Qed.

(** C1 (as amended).  Registering a type twice keeps the earliest handler:
    after [f] has been registered for [t], a further registration of any
    [g] for [t] changes nothing, the handler found for a message of type
    [t] is the one in place after the first registration ([f] itself when
    [t] had no handler before), and that is the handler the loop calls. *)
Theorem registerMessageHandler_keeps_earliest this t f g msg impl s :
  components (world s) !! this = Some impl →
  idof msg = t →
  let kept := default f (_msgHandlers impl !! t) in
  ∃ s2 impl2,
    ComponentImpl.registerMessageHandler this t (Some f) s = Val () s2
    ∧ (ComponentImpl.registerMessageHandler this t (Some f) ;;;
       ComponentImpl.registerMessageHandler this t g) s = Val () s2
    ∧ components (world s2) !! this = Some impl2
    ∧ ComponentImpl.find_handler impl2 msg = Some kept
    ∧ trace (final (ComponentImpl.dispatch this (Some msg) s2))
      = trace s2 ++ [EvHandler kept msg].
Proof.
  intros E <- kept.
  eexists _, _. split; [by apply registerMessageHandler_Some|].
  assert (L : ∀ i w tr,
             components (world (mkSt (set_components <[this := i]> w) tr)) !! this = Some i)
    by (intros; apply lookup_set_components).
  split; [|split; [apply (L _ _ []) |]].
  - rewrite (bind_Val _ _ _ _ _ (registerMessageHandler_Some _ _ _ _ _ E)).
    destruct g as [g|]; [|done].
    rewrite (registerMessageHandler_Some _ _ _ _ _ (L _ _ _)). simpl.
    rewrite std_map_insert_twice, set_components_insert_insert. done.
  - assert (F : ComponentImpl.find_handler
              (with_msgHandlers (std_map_insert (idof msg) f (_msgHandlers impl)) impl) msg
              = Some kept) by apply std_map_insert_lookup.
    split; [exact F|].
    by apply (dispatch_found_trace _ _ _ _ _ (L _ _ _) F).
Qed.
End Registry.

(** C1.  The claim as stated fails: on a fresh component, after registering
    callable 0 and then callable 1 for the same type, the lookup finds
    callable 0 and the loop calls callable 0, not the latest registration. *)
Lemma registerMessageHandler_latest_not_kept :
  ∃ s2 impl2,
    (ComponentImpl.registerMessageHandler 1 (idof_user 7) (Some (UserFunc 0)) ;;;
     ComponentImpl.registerMessageHandler 1 (idof_user 7) (Some (UserFunc 1)))
      fresh_component = Val () s2
    ∧ components (world s2) !! 1 = Some impl2
    ∧ ComponentImpl.find_handler impl2 (UserMessage 7 0) = Some (UserFunc 0)
    ∧ ComponentImpl.find_handler impl2 (UserMessage 7 0) ≠ Some (UserFunc 1)
    ∧ trace (final ((ComponentImpl.postMessage None 1 (Some (UserMessage 7 0)) ;;;
                     ComponentImpl.message_loop (U := sample_code) 5 1) s2))
      = [EvHandler (UserFunc 0) (UserMessage 7 0)].
Proof.
  eexists _, _. split; [vm_compute; reflexivity|].
  split; [vm_compute; reflexivity|].
  split; [vm_compute; reflexivity|].
  split; [vm_compute; discriminate|].
  vm_compute; reflexivity.
Qed.

(** C1 (as amended) on the fresh component 1: callable 0, then callable 1,
    registered for type 7. *)
Lemma registerMessageHandler_keeps_earliest_witness :
  ∃ impl,
    components (world fresh_component) !! 1 = Some impl
    ∧ idof (UserMessage 7 0) = idof_user 7
    ∧ ∃ s2 impl2,
        ComponentImpl.registerMessageHandler 1 (idof_user 7) (Some (UserFunc 0))
          fresh_component = Val () s2
        ∧ (ComponentImpl.registerMessageHandler 1 (idof_user 7) (Some (UserFunc 0)) ;;;
           ComponentImpl.registerMessageHandler 1 (idof_user 7) (Some (UserFunc 1)))
            fresh_component = Val () s2
        ∧ components (world s2) !! 1 = Some impl2
        ∧ ComponentImpl.find_handler impl2 (UserMessage 7 0)
          = Some (default (UserFunc 0) (_msgHandlers impl !! idof_user 7))
        ∧ trace (final (ComponentImpl.dispatch (U := sample_code) 1
                          (Some (UserMessage 7 0)) s2))
          = trace s2 ++ [EvHandler (default (UserFunc 0) (_msgHandlers impl !! idof_user 7))
                                   (UserMessage 7 0)].
Proof.
  eexists. split; [vm_compute; reflexivity|]. split; [reflexivity|].
  apply (registerMessageHandler_keeps_earliest (U := sample_code)
           1 (idof_user 7) (UserFunc 0) (Some (UserFunc 1)) (UserMessage 7 0)
           _ fresh_component); reflexivity.
Defined.

(** ** The built-in handlers *)

Lemma ctor_builtin_handlers this s :
  ∃ s1 impl,
    Component.ctor this s = Val () s1
    ∧ components (world s1) !! this = Some impl
    ∧ has_builtin_handlers impl.
Proof.
  unfold Component.ctor, ComponentImpl.ctor.
  set (i0 := mkImpl None None MessageQueue.empty ∅ None).
  set (s0 := mkSt (set_components <[this := i0]> (world s)) (trace s)).
  assert (E0 : components (world s0) !! this = Some i0) by apply lookup_set_components.
  pose proof (registerMessageHandler_Some this idof_TimeoutMessage ExecuteTimeout _ _ E0) as R1.
  set (s1 := mkSt _ _) in R1.
  assert (E1 : components (world s1) !! this
               = Some (with_msgHandlers
                         (std_map_insert idof_TimeoutMessage ExecuteTimeout (_msgHandlers i0)) i0))
    by apply lookup_set_components.
  pose proof (registerMessageHandler_Some this idof_CallbackExcMsg ExecuteCallback _ _ E1) as R2.
  eexists _, _. split; [|split].
  - rewrite (bind_Val (modify _) _ s () s0 eq_refl).
    rewrite (bind_Val _ _ _ _ _ R1). exact R2.
  - apply lookup_set_components.
  - split; reflexivity.
Qed.

Lemma register_builtin_handlers this r impl s :
  components (world s) !! this = Some impl →
  has_builtin_handlers impl →
  ∃ s1 impl1,
    register this r s = Val () s1
    ∧ components (world s1) !! this = Some impl1
    ∧ has_builtin_handlers impl1.
Proof.
  intros E [HT HC].
  assert (K : ∀ t f,
             has_builtin_handlers
               (with_msgHandlers (std_map_insert t f (_msgHandlers impl)) impl)).
  { intros t f. split; simpl.
    - destruct (decide (t = idof_TimeoutMessage)) as [->|N].
      + by rewrite std_map_insert_lookup, HT.
      + by rewrite std_map_insert_other.
    - destruct (decide (t = idof_CallbackExcMsg)) as [->|N].
      + by rewrite std_map_insert_lookup, HC.
      + by rewrite std_map_insert_other. }
  assert (R : ∀ t f, ∃ s1 impl1,
             ComponentImpl.registerMessageHandler this t f s = Val () s1
             ∧ components (world s1) !! this = Some impl1
             ∧ has_builtin_handlers impl1).
  { intros t [f|].
    - eexists _, _. split; [by apply registerMessageHandler_Some|].
      split; [apply lookup_set_components | apply K].
    - exists s, impl. split; [reflexivity|]. split; [done|]. by split. }
  destruct r as [t f | t [h|]].
  - apply R.
  - apply (R t (Some (OnMessageOf h))).
  - exists s, impl. split; [reflexivity|]. split; [done|]. by split.
Qed.

Lemma register_all_builtin_handlers this rs : ∀ impl s,
  components (world s) !! this = Some impl →
  has_builtin_handlers impl →
  ∃ s1 impl1,
    register_all this rs s = Val () s1
    ∧ components (world s1) !! this = Some impl1
    ∧ has_builtin_handlers impl1.
Proof.
  induction rs as [|r rs IH]; intros impl s E B; simpl.
  - exists s, impl. split; [reflexivity|]. by split.
  - destruct (register_builtin_handlers this r impl s E B) as (s1 & impl1 & R & E1 & B1).
    rewrite (bind_Val _ _ _ _ _ R). by apply (IH impl1).
Qed.

(** C9.  The constructor installs the handlers for TimeoutMessage and
    CallbackExcMsg, and whatever registrations follow (through either
    overload, for any types, these two included), the handler map still holds
    the two built-in handlers and the message loop calls them for messages of
    these two types. *)
Theorem builtin_handlers_permanent {U : UserCode} this rs s :
  ∃ s1 impl,
    (Component.ctor this ;;; register_all this rs) s = Val () s1
    ∧ components (world s1) !! this = Some impl
    ∧ _msgHandlers impl !! idof_TimeoutMessage = Some ExecuteTimeout
    ∧ _msgHandlers impl !! idof_CallbackExcMsg = Some ExecuteCallback
    ∧ (∀ id cb,
         trace (final (ComponentImpl.dispatch this (Some (TimeoutMessage id cb)) s1))
         = trace s1 ++ [EvHandler ExecuteTimeout (TimeoutMessage id cb)])
    ∧ (∀ cb,
         trace (final (ComponentImpl.dispatch this (Some (CallbackExcMsg cb)) s1))
         = trace s1 ++ [EvHandler ExecuteCallback (CallbackExcMsg cb)]).
Proof.
  destruct (ctor_builtin_handlers this s) as (s0 & impl0 & C & E0 & B0).
  destruct (register_all_builtin_handlers this rs impl0 s0 E0 B0)
    as (s1 & impl1 & R & E1 & [HT HC]).
  exists s1, impl1. rewrite (bind_Val _ _ _ _ _ C).
  repeat split; try done.
  - intros id cb. by apply (dispatch_found_trace _ _ impl1).
  - intros cb. by apply (dispatch_found_trace _ _ impl1).
Qed.

(** ** NamedPipeSenderBase *)

Section InitConnection.
Context {Address : Type} `{EqDecision Address}.
Variable INVALID_ADDRESS : Address.
Variable constructPipeName : Address → string.

(** C10.  [initConnection(addr)] changes the sender only when [addr] is not
    INVALID_ADDRESS and differs from the current receiver address; it then
    sets [_receiverAddress] to [addr] and [_pipeName] to
    [constructPipeName(addr)]; in every other case both fields are as before. *)
Theorem initConnection_frame (addr : Address) (this : NamedPipeSenderBase.t) :
  let this' :=
    NamedPipeSenderBase.initConnection INVALID_ADDRESS constructPipeName addr this in
  (addr ≠ INVALID_ADDRESS ∧ NamedPipeSenderBase._receiverAddress this ≠ addr →
   NamedPipeSenderBase._receiverAddress this' = addr
   ∧ NamedPipeSenderBase._pipeName this' = constructPipeName addr)
  ∧ (¬ (addr ≠ INVALID_ADDRESS ∧ NamedPipeSenderBase._receiverAddress this ≠ addr) →
     this' = this)
  ∧ (this' ≠ this →
     addr ≠ INVALID_ADDRESS ∧ NamedPipeSenderBase._receiverAddress this ≠ addr).
Proof.
  unfold NamedPipeSenderBase.initConnection.
  destruct (decide _) as [Y|N]; repeat split; simpl; try tauto.
Qed.

End InitConnection.

(** ** More on the store *)

Lemma set_managers_alter m mgr f w :
  managers w !! m = Some mgr →
  set_managers <[m := f mgr]> w = set_managers (alter f m) w.
Proof.
  intros E. unfold set_managers. f_equal.
  apply map_eq; intros k. rewrite lookup_alter. destruct (decide (m = k)) as [<-|N].
  - by rewrite lookup_insert_eq, E.
  - by rewrite lookup_insert_ne.
Qed.

Lemma set_components_managers this i f w :
  set_components <[this := i]> (set_managers f w)
  = set_managers f (set_components <[this := i]> w).
Proof. reflexivity. Qed.

Lemma lookup_stored_impl this impl w tr :
  components (world (mkSt (set_components <[this := impl]> w) tr)) !! this = Some impl.
Proof. apply lookup_set_components. Qed.

Lemma update_manager_Some m f mgr s :
  managers (world s) !! m = Some mgr →
  update_manager m f s
  = Val () (mkSt (set_managers <[m := f mgr]> (world s)) (trace s)).
Proof.
  intros E. unfold update_manager, bind, this_manager. by rewrite E.
Qed.

Lemma with_workerThread_same impl :
  with_workerThread (_workerThread impl) impl = impl.
Proof. by destruct impl. Qed.

Lemma with_timerMgr_same impl :
  with_timerMgr (_timerMgr impl) impl = impl.
Proof. by destruct impl. Qed.

(** ** Component::postMessage *)

Lemma select_push_clauses e :
  select_clause
    [ catch_bad_alloc (λ what, mafErr ("Queue overflow: " +:+ what));
      catch_std_exception
        (λ what, mafErr ("Exception occurred when pushing data to queue: " +:+ what));
      catch_all (mafErr "Unkown exception occurred when pushing data to queue!") ] e
  = Some (mafErr (push_fault_text e)).
Proof. by destruct e. Qed.

Lemma msgQueue_push_run fault this msg impl s :
  components (world s) !! this = Some impl →
  ComponentImpl.msgQueue_push fault this msg s
  = match MessageQueue.push fault msg (_msgQueue impl) with
    | inl e => Exc e s
    | inr q => Val () (mkSt (set_components <[this := with_msgQueue q impl]> (world s))
                            (trace s))
    end.
Proof.
  intros E. unfold ComponentImpl.msgQueue_push.
  rewrite (bind_Val _ _ _ _ _ (this_impl_Some _ _ _ E)).
  destruct (MessageQueue.push _ _ _); [done|].
  by rewrite (update_impl_Some this _ impl).
Qed.

Lemma msgQueue_push_absent fault this msg s :
  components (world s) !! this = None →
  ComponentImpl.msgQueue_push fault this msg s = Undef s.
Proof.
  intros E. unfold ComponentImpl.msgQueue_push.
  by rewrite (bind_Undef _ _ _ _ (this_impl_None _ _ E)).
Qed.

(** C6.  [postMessage(msg)] hands [msg] to the queue's [push]; whatever
    [push] throws (a [std::bad_alloc], another [std::exception], anything
    else) is caught and logged, so [postMessage] never leaves by an
    exception, and a failed push shows only in the log: the queue and the
    rest of the component are as before. *)
Theorem postMessage_contains_push_failures fault this msg s :
  no_exception (Component.postMessage fault this msg s)
  ∧ (∀ impl,
       components (world s) !! this = Some impl →
       match MessageQueue.push fault msg (_msgQueue impl) with
       | inr q =>
           Component.postMessage fault this msg s
           = Val () (mkSt (set_components <[this := with_msgQueue q impl]> (world s))
                          (trace s))
       | inl e =>
           Component.postMessage fault this msg s
           = Val () (mkSt (add_log (Err, push_fault_text e) (world s)) (trace s))
       end).
Proof.
  unfold Component.postMessage, ComponentImpl.postMessage, try_catch.
  destruct (components (world s) !! this) as [impl|] eqn:E.
  - rewrite (msgQueue_push_run _ _ _ impl s E).
    destruct (MessageQueue.push fault msg (_msgQueue impl)) as [e|q] eqn:P.
    + rewrite select_push_clauses. split; [exact I|].
      intros impl' [= <-]. by rewrite P.
    + split; [exact I|]. intros impl' [= <-]. by rewrite P.
  - rewrite (msgQueue_push_absent _ _ _ s E). split; [exact I|]. intros impl' [=].
Qed.

(** ** The message loop and handler exceptions *)

Lemma bind_no_exception {A B} (m : M A) (k : A → M B) s :
  no_exception (m s) →
  (∀ a s', no_exception (k a s')) →
  no_exception (bind m k s).
Proof. intros Hm Hk. unfold bind. destruct (m s); [apply Hk|done|done|done]. Qed.

Lemma this_impl_no_exception this s : no_exception (this_impl this s).
Proof. unfold this_impl. by destruct (_ !! _). Qed.

Lemma update_impl_no_exception this f s : no_exception (update_impl this f s).
Proof.
  apply bind_no_exception; [apply this_impl_no_exception|done].
Qed.

Section Loop.
Context {U : UserCode}.

Lemma dispatch_no_exception this msg s :
  no_exception (ComponentImpl.dispatch this msg s).
Proof.
  destruct msg as [m|]; [|done]. unfold ComponentImpl.dispatch.
  apply bind_no_exception; [apply this_impl_no_exception|].
  intros impl s'. destruct (ComponentImpl.find_handler impl m) as [h|]; [|done].
  unfold try_catch. destruct (bind _ _ s'); try done.
  by rewrite select_handler_clauses.
Qed.

Lemma message_loop_no_exception fuel this : ∀ s,
  no_exception (ComponentImpl.message_loop fuel this s).
Proof.
  induction fuel as [|fuel IH]; intros s; [done|]. simpl.
  apply bind_no_exception; [apply this_impl_no_exception|].
  intros impl s1. destruct (MessageQueue.wait _); [|done|done].
  apply bind_no_exception; [apply update_impl_no_exception|]. intros _ s2.
  apply bind_no_exception; [apply dispatch_no_exception|]. intros _ s3.
  apply IH.
Qed.

Lemma message_loop_pop fuel this impl msg rest s :
  components (world s) !! this = Some impl →
  items (_msgQueue impl) = msg :: rest →
  ComponentImpl.message_loop (S fuel) this s
  = (ComponentImpl.dispatch this msg ;;; ComponentImpl.message_loop fuel this)
      (mkSt (set_components
               <[this := with_msgQueue (mkQueue (closed (_msgQueue impl)) rest) impl]>
               (world s))
            (trace s)).
Proof.
  intros E Q. simpl.
  rewrite (bind_Val _ _ _ _ _ (this_impl_Some _ _ _ E)).
  unfold MessageQueue.wait. rewrite Q.
  by rewrite (bind_Val _ _ _ _ _ (update_impl_Some this _ impl s E)).
Qed.

Lemma user_leaves_component body this s :
  components (result_world (body (world s))) !! this = components (world s) !! this →
  ∃ s1,
    (user body s = Val () s1 ∨ ∃ e, user body s = Exc e s1)
    ∧ components (world s1) !! this = components (world s) !! this
    ∧ trace s1 = trace s.
Proof.
  intros K. unfold user. destruct (body (world s)) as [w|e w]; simpl in K.
  - eexists. split; [by left|]. by split.
  - eexists. split; [right; by eexists|]. by split.
Qed.

Lemma invoke_leaves_component this impl h m s :
  leaves_component U this →
  builtin_handlers_typed impl →
  ComponentImpl.find_handler impl m = Some h →
  ∃ s1,
    (ComponentImpl.invoke h m s = Val () s1 ∨ ∃ e, ComponentImpl.invoke h m s = Exc e s1)
    ∧ components (world s1) !! this = components (world s) !! this
    ∧ trace s1 = trace s.
Proof.
  intros (Lc & Lh & Lo) Ty F.
  assert (B : (∃ s1,
                 (ComponentImpl.execute m s = Val () s1
                  ∨ ∃ e, ComponentImpl.execute m s = Exc e s1)
                 ∧ components (world s1) !! this = components (world s) !! this
                 ∧ trace s1 = trace s)
              ∨ ∃ v p, m = UserMessage v p).
  { destruct m as [id [cb|] | [cb|] | v p]; simpl.
    - left. by apply user_leaves_component.
    - left. exists s. split; [right; by eexists|]. by split.
    - left. by apply user_leaves_component.
    - left. exists s. split; [right; by eexists|]. by split.
    - right. by eexists _, _. }
  destruct h as [| | o | f]; simpl.
  - destruct B as [B|(v & p & ->)]; [done|]. by specialize (Ty _ _ F).
  - destruct B as [B|(v & p & ->)]; [done|]. by specialize (Ty _ _ F).
  - by apply user_leaves_component.
  - by apply user_leaves_component.
Qed.

Lemma dispatch_leaves_component this impl msg s :
  leaves_component U this →
  components (world s) !! this = Some impl →
  builtin_handlers_typed impl →
  ∃ s1,
    ComponentImpl.dispatch this msg s = Val () s1
    ∧ components (world s1) !! this = Some impl
    ∧ trace s1 = trace s ++ option_list (handler_call impl msg).
Proof.
  intros L E Ty. destruct msg as [m|].
  - destruct (ComponentImpl.find_handler impl m) as [h|] eqn:F.
    + rewrite (dispatch_found this m impl h s E F). unfold handler_call. simpl.
      rewrite F. simpl.
      destruct (invoke_leaves_component this impl h m
                  (mkSt (world s) (trace s ++ [EvHandler h m])) L Ty F)
        as (s1 & [R|[e R]] & C & T); rewrite R.
      * exists s1. split; [done|]. split; [by rewrite C|done].
      * eexists. split; [done|]. split; [simpl; by rewrite C|done].
    + unfold ComponentImpl.dispatch.
      rewrite (bind_Val _ _ _ _ _ (this_impl_Some _ _ _ E)), F.
      eexists. split; [reflexivity|]. unfold handler_call. simpl. rewrite F. simpl.
      split; [done|]. by rewrite app_nil_r.
  - eexists. split; [reflexivity|]. split; [done|]. by rewrite app_nil_r.
Qed.

Lemma message_loop_drain fuel this impl s :
  leaves_component U this →
  components (world s) !! this = Some impl →
  builtin_handlers_typed impl →
  length (items (_msgQueue impl)) < fuel →
  ∃ s1,
    ComponentImpl.message_loop fuel this s
    = Val (if closed (_msgQueue impl) then Finished else Blocked) s1
    ∧ trace s1 = trace s ++ omap (handler_call impl) (items (_msgQueue impl))
    ∧ components (world s1) !! this
      = Some (with_msgQueue (mkQueue (closed (_msgQueue impl)) []) impl).
Proof.
  intros L E Ty. revert s E. generalize (eq_refl (items (_msgQueue impl))).
  generalize (items (_msgQueue impl)) at 1 3 4 as msgs.
  intros msgs. revert fuel impl Ty.
  induction msgs as [|msg rest IH]; intros fuel impl Ty Q s E Hf.
  - destruct fuel as [|fuel]; [simpl in Hf; lia|]. simpl.
    rewrite (bind_Val _ _ _ _ _ (this_impl_Some _ _ _ E)).
    unfold MessageQueue.wait. rewrite <- Q.
    exists s. rewrite app_nil_r.
    assert (with_msgQueue (mkQueue (closed (_msgQueue impl)) []) impl = impl) as ->
      by (destruct impl as [? ? [] ? ?]; simpl in *; by subst).
    by destruct (closed (_msgQueue impl)).
  - destruct fuel as [|fuel]; [simpl in Hf; lia|].
    rewrite (message_loop_pop fuel this impl msg rest s E (eq_sym Q)).
    set (impl0 := with_msgQueue (mkQueue (closed (_msgQueue impl)) rest) impl).
    destruct (dispatch_leaves_component this impl0 msg
                (mkSt (set_components <[this := impl0]> (world s)) (trace s)) L
                (lookup_stored_impl _ _ _ _) Ty)
      as (s1 & D & E1 & T1).
    rewrite (bind_Val _ _ _ _ _ D).
    destruct (IH fuel impl0 Ty eq_refl s1 E1) as (s2 & R & T2 & E2).
    { simpl in Hf. simpl. lia. }
    exists s2. split; [exact R|]. split; [|exact E2].
    rewrite T2, T1. simpl. rewrite <- app_assoc. f_equal.
    change (handler_call impl0) with (handler_call impl).
    by destruct (handler_call impl msg).
Qed.

(** C2.  When the handler of a popped message throws, the exception is
    caught inside the loop and logged as an error: the body of the loop for
    that message ends normally, in the store the handler left plus the log
    entry, and the loop goes on from there.  With application code that
    leaves the component alone, every message queued behind the faulty one
    is then handled, in order, and the loop ends as it would have without the
    fault.  The loop never leaves by an exception, and with no entry and
    exit hooks neither does [startMessageLoop]. *)
Theorem handler_exception_contained fuel this impl msg rest h e s s2 :
  components (world s) !! this = Some impl →
  items (_msgQueue impl) = Some msg :: rest →
  ComponentImpl.find_handler impl msg = Some h →
  ComponentImpl.invoke h msg
    (mkSt (set_components
             <[this := with_msgQueue (mkQueue (closed (_msgQueue impl)) rest) impl]>
             (world s))
          (trace s ++ [EvHandler h msg]))
  = Exc e s2 →
  ComponentImpl.dispatch this (Some msg)
    (mkSt (set_components
             <[this := with_msgQueue (mkQueue (closed (_msgQueue impl)) rest) impl]>
             (world s))
          (trace s))
  = Val () (mkSt (add_log (Err, handler_fault_text e) (world s2)) (trace s2))
  ∧ ComponentImpl.message_loop (S fuel) this s
    = ComponentImpl.message_loop fuel this
        (mkSt (add_log (Err, handler_fault_text e) (world s2)) (trace s2))
  ∧ (leaves_component U this →
     builtin_handlers_typed impl →
     length rest < fuel →
     ∃ s1,
       ComponentImpl.message_loop (S fuel) this s
       = Val (if closed (_msgQueue impl) then Finished else Blocked) s1
       ∧ trace s1 = trace s ++ EvHandler h msg :: omap (handler_call impl) rest
       ∧ components (world s1) !! this
         = Some (with_msgQueue (mkQueue (closed (_msgQueue impl)) []) impl))
  ∧ (∀ n s0, no_exception (ComponentImpl.message_loop n this s0))
  ∧ (∀ n tid compref s0,
       no_exception (ComponentImpl.startMessageLoop n tid this compref None None s0)).
Proof.
  intros E Q F X.
  set (impl0 := with_msgQueue (mkQueue (closed (_msgQueue impl)) rest) impl) in *.
  assert (D : ComponentImpl.dispatch this (Some msg)
                (mkSt (set_components <[this := impl0]> (world s)) (trace s))
              = Val () (mkSt (add_log (Err, handler_fault_text e) (world s2)) (trace s2))).
  { rewrite (dispatch_found this msg impl0 h).
    - simpl. by rewrite X.
    - apply lookup_stored_impl.
    - exact F. }
  assert (G : ComponentImpl.message_loop (S fuel) this s
              = ComponentImpl.message_loop fuel this
                  (mkSt (add_log (Err, handler_fault_text e) (world s2)) (trace s2))).
  { rewrite (message_loop_pop fuel this impl _ _ s E Q). fold impl0.
    by rewrite (bind_Val _ _ _ _ _ D). }
  split; [exact D|]. split; [exact G|]. split; [|split].
  - intros L Ty Hf. rewrite G.
    destruct (invoke_leaves_component this impl0 h msg
                (mkSt (set_components <[this := impl0]> (world s))
                      (trace s ++ [EvHandler h msg])) L Ty F)
      as (s' & [R|[e' R]] & C & T); rewrite X in R; [discriminate|].
    injection R as <- <-. rewrite lookup_stored_impl in C. simpl in T.
    destruct (message_loop_drain fuel this impl0
                (mkSt (add_log (Err, handler_fault_text e) (world s2)) (trace s2))
                L C Ty Hf) as (s1 & R1 & T1 & E1).
    exists s1. split; [exact R1|]. split; [|exact E1].
    rewrite T1. simpl. rewrite T, <- app_assoc. reflexivity.
  - intros n s0. apply message_loop_no_exception.
  - intros n tid compref s0. unfold ComponentImpl.startMessageLoop.
    apply bind_no_exception; [done|]. intros _ s1.
    apply bind_no_exception; [done|]. intros _ s3.
    apply bind_no_exception; [apply update_impl_no_exception|]. intros _ s4.
    apply bind_no_exception; [done|]. intros _ s5.
    apply bind_no_exception; [apply message_loop_no_exception|].
    intros [] s6; try done.
Qed.

End Loop.

Lemma sample_code_leaves_component this : leaves_component sample_code this.
Proof.
  split; [|split].
  - intros [|[|f]] w; reflexivity.
  - intros [|[|f]] msg w; reflexivity.
  - intros [|[|h]] msg w; reflexivity.
Qed.

Ltac typed_by_computation :=
  unfold builtin_handlers_typed; apply map_Forall_to_list;
  unfold _msgHandlers; vm_compute; repeat constructor.

(** C2 on scenario S2: the handler of the first message throws, the second
    message is handled all the same. *)
Lemma handler_exception_contained_witness :
  ∃ impl s2,
    components (world scenario_S2) !! 1 = Some impl
    ∧ items (_msgQueue impl) = Some (UserMessage 7 0) :: [Some (UserMessage 8 0)]
    ∧ ComponentImpl.find_handler impl (UserMessage 7 0) = Some (UserFunc 1)
    ∧ ComponentImpl.invoke (U := sample_code) (UserFunc 1) (UserMessage 7 0)
        (mkSt (set_components
                 <[1 := with_msgQueue
                          (mkQueue (closed (_msgQueue impl)) [Some (UserMessage 8 0)]) impl]>
                 (world scenario_S2))
              (trace scenario_S2 ++ [EvHandler (UserFunc 1) (UserMessage 7 0)]))
      = Exc (std_exception "boom") s2
    ∧ (ComponentImpl.dispatch (U := sample_code) 1 (Some (UserMessage 7 0))
         (mkSt (set_components
                  <[1 := with_msgQueue
                           (mkQueue (closed (_msgQueue impl)) [Some (UserMessage 8 0)]) impl]>
                  (world scenario_S2))
               (trace scenario_S2))
       = Val () (mkSt (add_log (Err, handler_fault_text (std_exception "boom")) (world s2))
                      (trace s2))
       ∧ ComponentImpl.message_loop (U := sample_code) 3 1 scenario_S2
         = ComponentImpl.message_loop (U := sample_code) 2 1
             (mkSt (add_log (Err, handler_fault_text (std_exception "boom")) (world s2))
                   (trace s2))
       ∧ (∃ s1,
            ComponentImpl.message_loop (U := sample_code) 3 1 scenario_S2
            = Val (if closed (_msgQueue impl) then Finished else Blocked) s1
            ∧ trace s1
              = trace scenario_S2
                ++ EvHandler (UserFunc 1) (UserMessage 7 0)
                   :: omap (handler_call impl) [Some (UserMessage 8 0)]
            ∧ components (world s1) !! 1
              = Some (with_msgQueue (mkQueue (closed (_msgQueue impl)) []) impl))
       ∧ (∀ n s0, no_exception (ComponentImpl.message_loop (U := sample_code) n 1 s0))
       ∧ (∀ n tid compref s0,
            no_exception (ComponentImpl.startMessageLoop (U := sample_code)
                            n tid 1 compref None None s0))).
Proof.
  eexists _, _.
  apply and_wlog_r; [vm_compute; reflexivity|intros H1].
  apply and_wlog_r; [reflexivity|intros H2].
  apply and_wlog_r; [reflexivity|intros H3].
  apply and_wlog_r; [reflexivity|intros H4].
  destruct (handler_exception_contained (U := sample_code) 2 1 _ _ _ _ _ scenario_S2 _
              H1 H2 H3 H4) as (D & G & K & N1 & N2).
  split; [exact D|]. split; [exact G|]. split; [|split; [exact N1|exact N2]].
  apply K; [apply sample_code_leaves_component | typed_by_computation | simpl; lia].
Defined.

(** Scenario S2 run to the end: the exception is logged once and the next
    message is handled. *)
Example scenario_S2_run :
  ∃ s1,
    ComponentImpl.message_loop (U := sample_code) 5 1 scenario_S2 = Val Blocked s1
    ∧ log (world s1)
      = [(Err, "Exception occurred while executing messageHandler function: boom");
         (Info, "pong")]
    ∧ trace s1
      = [EvHandler (UserFunc 1) (UserMessage 7 0); EvHandler (UserFunc 0) (UserMessage 8 0)].
Proof. eexists. split; [vm_compute; reflexivity|]. split; reflexivity. Qed.

(** ** The entry and exit hooks of the message loop *)

Lemma final_bind {A B} (m : M A) (k : A → M B) s :
  final (bind m k s)
  = match m s with
    | Val a s' => final (k a s')
    | Exc _ s' => s'
    | Undef s' => s'
    | Halted _ s' => s'
    end.
Proof. unfold bind. by destruct (m s). Qed.

Lemma lock_run ref s :
  lock ref s = Val (c ← ref; _ ← components (world s) !! c; Some c) s.
Proof. reflexivity. Qed.

Lemma lock_upgrades ref s c :
  (c' ← ref; _ ← components (world s) !! c'; Some c') = Some c →
  upgrades ref (world s).
Proof.
  destruct ref as [c'|]; simpl; [|done].
  destruct (components (world s) !! c') eqn:E; simpl; [|done].
  intros _. exists c'. by rewrite E.
Qed.

Lemma upgrades_lock ref s :
  upgrades ref (world s) →
  ∃ c, (c' ← ref; _ ← components (world s) !! c'; Some c') = Some c.
Proof. intros (c & -> & [i E]). exists c. simpl. by rewrite E. Qed.

Section Hooks.
Context {U : UserCode}.

Lemma user_trace body s : trace (final (user body s)) = trace s.
Proof. unfold user. by destruct (body (world s)). Qed.

(** A hook is skipped, or called with the weak handle upgraded. *)
Lemma call_hook_cases this ev hook s :
  (trace (final (ComponentImpl.call_hook this ev hook s)) = trace s
   ∧ ∀ r, ComponentImpl.call_hook this ev hook s = Val () r → r = s)
  ∨ (∃ f impl,
       hook = Some f
       ∧ components (world s) !! this = Some impl
       ∧ upgrades (_compref impl) (world s)
       ∧ ComponentImpl.call_hook this ev hook s
         = user (call f) (mkSt (world s) (trace s ++ [ev f]))
       ∧ trace (final (ComponentImpl.call_hook this ev hook s)) = trace s ++ [ev f]).
Proof.
  unfold ComponentImpl.call_hook. destruct hook as [f|]; [|left; split; [done|]; by intros r [= <-]].
  destruct (components (world s) !! this) as [impl|] eqn:E.
  - rewrite (bind_Val _ _ _ _ _ (this_impl_Some _ _ _ E)).
    rewrite (bind_Val _ _ _ _ _ (lock_run _ s)).
    destruct (_ ≫= _) as [c|] eqn:L.
    + right. exists f, impl. split; [done|]. split; [done|].
      split; [by eapply lock_upgrades|].
      rewrite (bind_Val (emit _) _ s () _ eq_refl).
      split; [done|]. by rewrite user_trace.
    + left. split; [done|]. by intros r [= <-].
  - rewrite (bind_Undef _ _ _ _ (this_impl_None _ _ E)). left. split; [done|]. intros r [=].
Qed.

Lemma call_hook_called this ev f impl s :
  components (world s) !! this = Some impl →
  upgrades (_compref impl) (world s) →
  ComponentImpl.call_hook this ev (Some f) s
  = user (call f) (mkSt (world s) (trace s ++ [ev f])).
Proof.
  intros E Up. unfold ComponentImpl.call_hook.
  rewrite (bind_Val _ _ _ _ _ (this_impl_Some _ _ _ E)).
  rewrite (bind_Val _ _ _ _ _ (lock_run _ s)).
  destruct (upgrades_lock _ _ Up) as [c ->].
  by rewrite (bind_Val (emit _) _ s () _ eq_refl).
Qed.

Lemma dispatch_trace this msg s :
  ∃ hs,
    trace (final (ComponentImpl.dispatch this msg s)) = trace s ++ hs
    ∧ Forall is_handler_call hs.
Proof.
  destruct msg as [m|]; [|exists []; by rewrite app_nil_r].
  destruct (components (world s) !! this) as [impl|] eqn:E.
  - destruct (ComponentImpl.find_handler impl m) as [h|] eqn:F.
    + exists [EvHandler h m]. split; [by eapply dispatch_found_trace|].
      by repeat constructor.
    + exists []. rewrite app_nil_r. unfold ComponentImpl.dispatch.
      by rewrite (bind_Val _ _ _ _ _ (this_impl_Some _ _ _ E)), F.
  - exists []. rewrite app_nil_r. unfold ComponentImpl.dispatch.
    by rewrite (bind_Undef _ _ _ _ (this_impl_None _ _ E)).
Qed.

Lemma message_loop_trace fuel this : ∀ s,
  ∃ hs,
    trace (final (ComponentImpl.message_loop fuel this s)) = trace s ++ hs
    ∧ Forall is_handler_call hs.
Proof.
  induction fuel as [|fuel IH]; intros s; [exists []; by rewrite app_nil_r|].
  simpl. destruct (components (world s) !! this) as [impl|] eqn:E.
  - rewrite (bind_Val _ _ _ _ _ (this_impl_Some _ _ _ E)).
    destruct (MessageQueue.wait (_msgQueue impl)) as [msg q| |];
      [|exists []; by rewrite app_nil_r ..].
    rewrite (bind_Val _ _ _ _ _ (update_impl_Some this _ impl s E)).
    rewrite final_bind.
    destruct (dispatch_trace this msg
                (mkSt (set_components <[this := with_msgQueue q impl]> (world s)) (trace s)))
      as (hs1 & T1 & F1).
    destruct (ComponentImpl.dispatch _ _ _) as [[] s1|e s1|s1|h s1]; simpl in T1.
    + destruct (IH s1) as (hs2 & T2 & F2). exists (hs1 ++ hs2).
      rewrite T2, T1, <- app_assoc. split; [done|]. by apply Forall_app.
    + by exists hs1.
    + by exists hs1.
    + by exists hs1.
  - rewrite (bind_Undef _ _ _ _ (this_impl_None _ _ E)).
    exists []; by rewrite app_nil_r.
Qed.

(** The loop followed by the exit hook: handler calls, then at most the
    call of [onExit], made once the loop has finished. *)
Lemma loop_then_exit_trace fuel this onExit s :
  ∃ hs exit,
    trace (final (ComponentImpl.loop_then_exit fuel this onExit s)) = trace s ++ hs ++ exit
    ∧ Forall is_handler_call hs
    ∧ (exit = []
       ∨ ∃ g s3 impl3,
           exit = [EvOnExit g]
           ∧ onExit = Some g
           ∧ ComponentImpl.message_loop fuel this s = Val Finished s3
           ∧ trace s3 = trace s ++ hs
           ∧ components (world s3) !! this = Some impl3
           ∧ upgrades (_compref impl3) (world s3)).
Proof.
  unfold ComponentImpl.loop_then_exit. rewrite final_bind.
  destruct (message_loop_trace fuel this s) as (hs & T & F).
  destruct (ComponentImpl.message_loop fuel this s) as [r s3|e s3|s3|h s3] eqn:L; simpl in T.
  - destruct r.
    + rewrite final_bind.
      destruct (call_hook_cases this EvOnExit onExit s3)
        as [[T3 V3]|(g & impl3 & -> & E3 & Up & C & T3)].
      * exists hs, []. rewrite app_nil_r. split; [|by auto].
        destruct (ComponentImpl.call_hook _ _ _ _) as [[] r|e r|r|h r]; simpl in *; congruence.
      * exists hs, [EvOnExit g]. split.
        { rewrite app_assoc, <- T.
          destruct (ComponentImpl.call_hook _ _ _ _) as [[] r|e r|r|h r]; simpl in *; congruence. }
        split; [done|]. right. exists g, s3, impl3. by repeat split.
    + exists hs, []. rewrite app_nil_r. by auto.
    + exists hs, []. rewrite app_nil_r. by auto.
  - exists hs, []. rewrite app_nil_r. by auto.
  - exists hs, []. rewrite app_nil_r. by auto.
  - exists hs, []. rewrite app_nil_r. by auto.
Qed.

Lemma upgrades_stored ref this impl impl' w f :
  components w !! this = Some impl →
  upgrades ref (set_components <[this := impl']> (set_tlwpInstance f w)) ↔ upgrades ref w.
Proof.
  intros E. unfold upgrades. simpl.
  split; intros (c & -> & Hc); exists c; (split; [done|]);
    destruct (decide (this = c)) as [<-|N].
  - by rewrite E.
  - by rewrite lookup_insert_ne in Hc.
  - by rewrite lookup_insert_eq.
  - by rewrite lookup_insert_ne.
Qed.

Lemma lookup_assigned_tlwpInstance tid ref (t : gmap nat nat) :
  match ref with
  | Some c => <[tid := c]>
  | None => delete tid
  end t !! tid = ref.
Proof. destruct ref; [apply lookup_insert_eq | apply lookup_delete_eq]. Qed.

Lemma call_hook_skipped this ev hook impl s :
  components (world s) !! this = Some impl →
  hook = None ∨ ¬ upgrades (_compref impl) (world s) →
  ComponentImpl.call_hook this ev hook s = Val () s.
Proof.
  intros E K. unfold ComponentImpl.call_hook. destruct hook as [f|]; [|done].
  destruct K as [K|K]; [done|].
  rewrite (bind_Val _ _ _ _ _ (this_impl_Some _ _ _ E)).
  rewrite (bind_Val _ _ _ _ _ (lock_run _ s)).
  destruct (_ ≫= _) as [c|] eqn:L; [|done].
  destruct K. by eapply lock_upgrades.
Qed.

Lemma startMessageLoop_bound fuel tid this compref onEntry onExit impl s :
  components (world s) !! this = Some impl →
  ComponentImpl.startMessageLoop fuel tid this compref onEntry onExit s
  = (ComponentImpl.call_hook this EvOnEntry onEntry ;;;
     ComponentImpl.loop_then_exit fuel this onExit) (bound tid this compref impl s).
Proof.
  intros E. unfold ComponentImpl.startMessageLoop.
  set (s1 := mkSt (set_tlwpInstance
                     (match compref with
                      | Some c => <[tid := c]>
                      | None => delete tid
                      end : gmap nat nat → gmap nat nat) (world s))
                  (trace s ++ [EvBindActive tid compref])).
  assert (P : ∀ k : M LoopEnd,
             (assign_tlwpInstance tid compref ;;; emit (EvBindActive tid compref) ;;; k) s
             = k s1) by reflexivity.
  rewrite P. clear P.
  by rewrite (bind_Val _ _ _ _ _ (update_impl_Some this _ impl s1 E)).
Qed.

Lemma bound_component tid this compref impl s :
  components (world (bound tid this compref impl s)) !! this
  = Some (with_compref compref impl).
Proof. apply lookup_stored_impl. Qed.

Lemma bound_upgrades tid this compref impl ref s :
  components (world s) !! this = Some impl →
  upgrades ref (world (bound tid this compref impl s)) ↔ upgrades ref (world s).
Proof. intros E. by apply (upgrades_stored _ _ _ _ _ _ E). Qed.

Lemma loop_then_exit_unfinished fuel this onExit r s s3 :
  ComponentImpl.message_loop fuel this s = Val r s3 →
  r ≠ Finished →
  ComponentImpl.loop_then_exit fuel this onExit s = Val r s3.
Proof.
  intros L N. unfold ComponentImpl.loop_then_exit.
  rewrite (bind_Val _ _ _ _ _ L). by destruct r.
Qed.

Lemma loop_then_exit_finished fuel this onExit s s3 :
  ComponentImpl.message_loop fuel this s = Val Finished s3 →
  ComponentImpl.loop_then_exit fuel this onExit s
  = (ComponentImpl.call_hook this EvOnExit onExit ;;; ret Finished) s3.
Proof.
  intros L. unfold ComponentImpl.loop_then_exit. by rewrite (bind_Val _ _ _ _ _ L).
Qed.

(** The calls of a run of [startMessageLoop], finished or not: the binding,
    at most one call of [onEntry], handler calls, at most one call of
    [onExit]. *)
Lemma startMessageLoop_shape fuel tid this compref onEntry onExit s :
  ∃ entry hs exit,
    trace (final (ComponentImpl.startMessageLoop fuel tid this compref onEntry onExit s))
    = trace s ++ [EvBindActive tid compref] ++ entry ++ hs ++ exit
    ∧ Forall is_handler_call hs
    ∧ (entry = []
       ∨ ∃ f, entry = [EvOnEntry f] ∧ onEntry = Some f ∧ upgrades compref (world s))
    ∧ (exit = []
       ∨ ∃ g impl s2 s3 impl3,
           exit = [EvOnExit g]
           ∧ onExit = Some g
           ∧ components (world s) !! this = Some impl
           ∧ ComponentImpl.call_hook this EvOnEntry onEntry (bound tid this compref impl s)
             = Val () s2
           ∧ ComponentImpl.message_loop fuel this s2 = Val Finished s3
           ∧ trace s3 = trace s ++ [EvBindActive tid compref] ++ entry ++ hs
           ∧ components (world s3) !! this = Some impl3
           ∧ upgrades (_compref impl3) (world s3)).
Proof.
  destruct (components (world s) !! this) as [impl|] eqn:E; cycle 1.
  { unfold ComponentImpl.startMessageLoop.
    set (s1 := mkSt (set_tlwpInstance
                       (match compref with
                        | Some c => <[tid := c]>
                        | None => delete tid
                        end : gmap nat nat → gmap nat nat) (world s))
                    (trace s ++ [EvBindActive tid compref])).
    assert (P : ∀ k : M LoopEnd,
               (assign_tlwpInstance tid compref ;;; emit (EvBindActive tid compref) ;;; k) s
               = k s1) by reflexivity.
    rewrite P. clear P.
    rewrite (bind_Undef _ _ _ _ (update_impl_None this _ s1 E)).
    exists [], [], []. simpl.
    split; [done|]. split; [done|]. split; by left. }
  rewrite (startMessageLoop_bound _ _ _ _ _ _ impl s E).
  set (s2 := bound tid this compref impl s).
  assert (E2 : components (world s2) !! this = Some (with_compref compref impl))
    by apply bound_component.
  assert (T2 : trace s2 = trace s ++ [EvBindActive tid compref]) by reflexivity.
  rewrite final_bind.
  destruct (call_hook_cases this EvOnEntry onEntry s2)
    as [[T V]|(f & impl2 & -> & E2' & Up & C & T)].
  - destruct (ComponentImpl.call_hook this EvOnEntry onEntry s2) as [[] r|e r|r|h r] eqn:H;
      simpl in T.
    + rewrite (V r eq_refl) in *.
      destruct (loop_then_exit_trace fuel this onExit s2)
        as (hs & exit & TL & F & X).
      exists [], hs, exit. rewrite TL, T2. simpl. rewrite <- app_assoc.
      split; [done|]. split; [done|]. split; [by left|].
      destruct X as [->|(g & s3 & impl3 & -> & -> & L & T3 & E3 & Up3)]; [by left|].
      right. exists g, impl, s2, s3, impl3. repeat split; try done.
      rewrite T3. unfold s2, bound. simpl. by rewrite <- app_assoc.
    + exists [], [], []. rewrite T, ?T2. simpl.
      split; [done|]. split; [done|]. split; by left.
    + exists [], [], []. rewrite T, ?T2. simpl.
      split; [done|]. split; [done|]. split; by left.
    + exists [], [], []. rewrite T, ?T2. simpl.
      split; [done|]. split; [done|]. split; by left.
  - rewrite E2 in E2'. injection E2' as <-. simpl in Up.
    apply (bound_upgrades _ _ _ _ _ _ E) in Up.
    assert (En : [EvOnEntry f] = [] ∨ ∃ f0, [EvOnEntry f] = [EvOnEntry f0]
                   ∧ Some f = Some f0 ∧ upgrades compref (world s))
      by (right; by exists f).
    destruct (ComponentImpl.call_hook this EvOnEntry (Some f) s2) as [[] r|e r|r|h r] eqn:H;
      simpl in T.
    + destruct (loop_then_exit_trace fuel this onExit r)
        as (hs & exit & TL & F & X).
      exists [EvOnEntry f], hs, exit. rewrite TL, T, ?T2. simpl. rewrite <- !app_assoc.
      split; [done|]. split; [done|]. split; [exact En|].
      destruct X as [->|(g & s3 & impl3 & -> & -> & L & T3 & E3 & Up3)]; [by left|].
      right. exists g, impl, r, s3, impl3. repeat split; try done.
      rewrite T3, T, ?T2. simpl. by rewrite <- !app_assoc.
    + exists [EvOnEntry f], [], []. rewrite T, ?T2. simpl. rewrite <- !app_assoc.
      split; [done|]. split; [done|]. split; [exact En|]. by left.
    + exists [EvOnEntry f], [], []. rewrite T, ?T2. simpl. rewrite <- !app_assoc.
      split; [done|]. split; [done|]. split; [exact En|]. by left.
    + exists [EvOnEntry f], [], []. rewrite T, ?T2. simpl. rewrite <- !app_assoc.
      split; [done|]. split; [done|]. split; [exact En|]. by left.
Qed.

(** C5.  In every run of [startMessageLoop], finished or not, the calls it
    makes are, in order: the binding of the thread-local handle, at most one
    call of [onEntry], calls of message handlers, at most one call of
    [onExit].  [onEntry] is called exactly when it is given and the weak
    handle upgrades, and then in a store where the thread-local handle of the
    loop's thread is already [compref].  [onExit] is called exactly when it
    is given, the loop that started in the store [onEntry] left has finished,
    and [_compref] upgrades in the store the loop left; it is called in that
    store.  A loop that has not finished calls no [onExit]. *)
Theorem startMessageLoop_hooks fuel tid this compref onEntry onExit s :
  (∃ entry hs exit,
     trace (final (ComponentImpl.startMessageLoop fuel tid this compref onEntry onExit s))
     = trace s ++ [EvBindActive tid compref] ++ entry ++ hs ++ exit
     ∧ Forall is_handler_call hs
     ∧ (entry = []
        ∨ ∃ f, entry = [EvOnEntry f] ∧ onEntry = Some f ∧ upgrades compref (world s))
     ∧ (exit = []
        ∨ ∃ g impl s2 s3 impl3,
            exit = [EvOnExit g]
            ∧ onExit = Some g
            ∧ components (world s) !! this = Some impl
            ∧ ComponentImpl.call_hook this EvOnEntry onEntry (bound tid this compref impl s)
              = Val () s2
            ∧ ComponentImpl.message_loop fuel this s2 = Val Finished s3
            ∧ trace s3 = trace s ++ [EvBindActive tid compref] ++ entry ++ hs
            ∧ components (world s3) !! this = Some impl3
            ∧ upgrades (_compref impl3) (world s3)))
  ∧ (∀ impl,
       components (world s) !! this = Some impl →
       _tlwpInstance (world (bound tid this compref impl s)) !! tid = compref
       ∧ (∀ f,
            onEntry = Some f →
            upgrades compref (world s) →
            ComponentImpl.startMessageLoop fuel tid this compref onEntry onExit s
            = (user (call f) ;;; ComponentImpl.loop_then_exit fuel this onExit)
                (mkSt (world (bound tid this compref impl s))
                      (trace s ++ [EvBindActive tid compref; EvOnEntry f])))
       ∧ (onEntry = None ∨ ¬ upgrades compref (world s) →
          ComponentImpl.call_hook this EvOnEntry onEntry (bound tid this compref impl s)
          = Val () (bound tid this compref impl s))
       ∧ (∀ s2 r s3,
            ComponentImpl.call_hook this EvOnEntry onEntry (bound tid this compref impl s)
            = Val () s2 →
            ComponentImpl.message_loop fuel this s2 = Val r s3 →
            (r ≠ Finished →
             ComponentImpl.startMessageLoop fuel tid this compref onEntry onExit s
             = Val r s3)
            ∧ (∀ impl3,
                 r = Finished →
                 components (world s3) !! this = Some impl3 →
                 (∀ g,
                    onExit = Some g →
                    upgrades (_compref impl3) (world s3) →
                    ComponentImpl.startMessageLoop fuel tid this compref onEntry onExit s
                    = (user (call g) ;;; ret Finished)
                        (mkSt (world s3) (trace s3 ++ [EvOnExit g])))
                 ∧ (onExit = None ∨ ¬ upgrades (_compref impl3) (world s3) →
                    ComponentImpl.startMessageLoop fuel tid this compref onEntry onExit s
                    = Val Finished s3)))).
Proof.
  split; [apply startMessageLoop_shape|].
  intros impl E. rewrite (startMessageLoop_bound _ _ _ _ _ _ impl s E).
  set (s1 := bound tid this compref impl s).
  assert (E1 : components (world s1) !! this = Some (with_compref compref impl))
    by apply bound_component.
  split; [apply lookup_assigned_tlwpInstance|]. split; [|split].
  - intros f -> Up. unfold bind at 1.
    rewrite (call_hook_called this EvOnEntry f _ s1 E1)
      by (simpl; by apply (bound_upgrades _ _ _ _ _ _ E)).
    subst s1. unfold bound. simpl. by rewrite <- app_assoc.
  - intros K. apply (call_hook_skipped _ _ _ _ _ E1).
    destruct K as [K|K]; [by left|right]. simpl.
    intros Up. apply K. by apply (bound_upgrades _ _ _ _ _ _ E) in Up.
  - intros s2 r s3 H L. rewrite (bind_Val _ _ _ _ _ H). split.
    + intros N. by apply loop_then_exit_unfinished.
    + intros impl3 -> E3. rewrite (loop_then_exit_finished _ _ _ _ _ L). split.
      * intros g -> Up. unfold bind at 1.
        by rewrite (call_hook_called this EvOnExit g _ s3 E3 Up).
      * intros K. by rewrite (bind_Val _ _ _ _ _ (call_hook_skipped _ _ _ _ _ E3 K)).
Qed.

End Hooks.

(** A complete run: component 1 of scenario S2 is stopped and its loop is
    then run on thread 3 with both hooks; the queue drains and both hooks are
    called. *)
Example startMessageLoop_run :
  ∃ s1,
    (ComponentImpl.stop (U := sample_code) 0 3 1 ;;;
     ComponentImpl.startMessageLoop (U := sample_code) 5 3 1 (Some 1) (Some 0) (Some 0))
      scenario_S2 = Val Finished s1
    ∧ trace s1
      = [EvQueueClose 1; EvBindActive 3 (Some 1); EvOnEntry 0;
         EvHandler (UserFunc 1) (UserMessage 7 0);
         EvHandler (UserFunc 0) (UserMessage 8 0); EvOnExit 0]
    ∧ _tlwpInstance (world s1) !! 3 = Some 1.
Proof. eexists. split; [vm_compute; reflexivity|]. split; reflexivity. Qed.

(** ** Worker threads *)

Lemma bind_Halted {A B} (m : M A) (k : A → M B) s h s' :
  m s = Halted h s' → bind m k s = Halted h s'.
Proof. intros E. unfold bind. by rewrite E. Qed.


Section Appends.
Context {A B : Type} (P : Event → Prop).

Lemma appends_bind (m : M A) (k : A → M B) :
  appends P m → (∀ a, appends P (k a)) → appends P (bind m k).
Proof.
  intros Hm Hk s. rewrite final_bind. destruct (Hm s) as (e1 & T1 & F1).
  destruct (m s) as [a s1|e s1|s1|h s1]; simpl in T1; [|by exists e1 ..].
  destruct (Hk a s1) as (e2 & T2 & F2). exists (e1 ++ e2).
  rewrite T2, T1, <- app_assoc. split; [done|]. by apply Forall_app.
Qed.

Lemma appends_silent (m : M A) :
  (∀ s, trace (final (m s)) = trace s) → appends P m.
Proof. intros K s. exists []. rewrite app_nil_r. by split. Qed.

Lemma appends_emit ev : P ev → appends P (emit ev).
Proof. intros K s. exists [ev]. split; [done|]. by repeat constructor. Qed.

End Appends.

Lemma appends_weaken {A} (P Q : Event → Prop) (m : M A) :
  (∀ ev, P ev → Q ev) → appends P m → appends Q m.
Proof.
  intros PQ K s. destruct (K s) as (evs & T & F). exists evs. split; [done|].
  by eapply Forall_impl.
Qed.

Lemma appends_this_impl P this : appends P (this_impl this).
Proof. apply appends_silent. intros s. unfold this_impl. by destruct (_ !! _). Qed.

Lemma appends_this_thread P t : appends P (this_thread t).
Proof. apply appends_silent. intros s. unfold this_thread. by destruct (_ !! _). Qed.

Lemma appends_update_impl P this f : appends P (update_impl this f).
Proof.
  apply appends_bind; [apply appends_this_impl|]. intros impl. by apply appends_silent.
Qed.

Lemma appends_update_manager P m f : appends P (update_manager m f).
Proof.
  apply appends_bind; [|intros mgr; by apply appends_silent].
  apply appends_silent. intros s. unfold this_manager. by destruct (_ !! _).
Qed.

Section Threads.
Context {U : UserCode}.

Lemma appends_thread_function {A} P (body : M A) :
  appends P body → appends P (ComponentImpl.thread_function body).
Proof.
  intros K s. destruct (K s) as (evs & T & F). exists evs. split; [|done].
  unfold ComponentImpl.thread_function. by destruct (body s).
Qed.

Lemma appends_startMessageLoop fuel tid this compref onEntry onExit :
  appends loop_event
    (ComponentImpl.startMessageLoop fuel tid this compref onEntry onExit).
Proof.
  intros s.
  destruct (startMessageLoop_shape fuel tid this compref onEntry onExit s)
    as (entry & hs & exit & T & F & En & Ex).
  eexists. split; [exact T|].
  apply Forall_app. split; [by repeat constructor|].
  apply Forall_app. split.
  { destruct En as [->|(f & -> & _)]; by repeat constructor. }
  apply Forall_app. split.
  { eapply Forall_impl; [exact F|]. by intros []. }
  destruct Ex as [->|(g & ? & ? & ? & ? & -> & _)]; by repeat constructor.
Qed.

Lemma appends_loop_then_exit fuel this onExit :
  appends loop_event (ComponentImpl.loop_then_exit fuel this onExit).
Proof.
  intros s. destruct (loop_then_exit_trace fuel this onExit s) as (hs & exit & T & F & Ex).
  eexists. split; [exact T|]. apply Forall_app. split.
  { eapply Forall_impl; [exact F|]. by intros []. }
  destruct Ex as [->|(g & ? & ? & -> & _)]; by repeat constructor.
Qed.

Lemma appends_thread_body fuel t :
  appends loop_event (ComponentImpl.thread_body fuel t).
Proof.
  unfold ComponentImpl.thread_body.
  apply appends_bind; [apply appends_this_thread|]. intros w.
  assert (K : ∀ r : LoopEnd,
             appends loop_event
               (match r with
                | Finished => ComponentImpl.set_progress t w Ended ;;; ret Finished
                | _ => ret r
                end)).
  { intros []; by apply appends_silent. }
  destruct (w_progress w).
  - apply appends_bind; [by apply appends_silent|]. intros _.
    apply appends_bind; [|exact K].
    apply appends_thread_function, appends_startMessageLoop.
  - apply appends_bind; [|exact K].
    apply appends_thread_function, appends_loop_then_exit.
  - by apply appends_silent.
Qed.

Lemma appends_thread_join fuel t :
  appends worker_event (ComponentImpl.thread_join fuel t).
Proof.
  unfold ComponentImpl.thread_join. apply appends_bind.
  - eapply appends_weaken; [|apply appends_thread_body]. intros ev K. by left.
  - intros []; [|by apply appends_silent ..].
    apply appends_emit. right. by eexists.
Qed.

Lemma appends_join_worker fuel tid this :
  appends worker_event (ComponentImpl.join_worker fuel tid this).
Proof.
  unfold ComponentImpl.join_worker.
  apply appends_bind; [apply appends_this_impl|]. intros impl.
  case_decide; [|by apply appends_silent].
  destruct (_workerThread impl) as [t|]; [|by apply appends_silent].
  apply appends_bind; [apply appends_thread_join|]. intros _.
  apply appends_update_impl.
Qed.


End Threads.

(** ** Component::stop *)

(** The two statements of Component.cpp:75-76, one by one. *)
Lemma stop_close_queue this impl s :
  components (world s) !! this = Some impl →
  (impl <~ this_impl this ;;
   emit (EvQueueClose this) ;;;
   update_impl this (with_msgQueue (MessageQueue.close (_msgQueue impl)))) s
  = Val () (mkSt (set_components
                    <[this := with_msgQueue (MessageQueue.close (_msgQueue impl)) impl]>
                    (world s))
                 (trace s ++ [EvQueueClose this])).
Proof.
  intros E. rewrite (bind_Val _ _ _ _ _ (this_impl_Some _ _ _ E)).
  rewrite (bind_Val (emit _) _ s () _ eq_refl).
  by rewrite (update_impl_Some this _ impl).
Qed.

Lemma stop_timer_manager this impl s :
  components (world s) !! this = Some impl →
  (∀ m, _timerMgr impl = Some m → is_Some (managers (world s) !! m)) →
  (impl <~ this_impl this ;;
   match _timerMgr impl with
   | Some m =>
       emit (EvTimerMgrStop m) ;;;
       update_manager m TimerManager.stop ;;;
       emit (EvTimerMgrReset this) ;;;
       update_impl this (with_timerMgr None)
   | None => ret ()
   end) s
  = Val () (mkSt (set_components <[this := with_timerMgr None impl]>
                    (match _timerMgr impl with
                     | Some m => set_managers (alter TimerManager.stop m) (world s)
                     | None => world s
                     end))
                 (trace s ++ timer_events this impl)).
Proof.
  intros E Hm. rewrite (bind_Val _ _ _ _ _ (this_impl_Some _ _ _ E)).
  unfold timer_events. destruct (_timerMgr impl) as [m|] eqn:T.
  - destruct (Hm m eq_refl) as [mgr Em].
    rewrite (bind_Val (emit _) _ s () _ eq_refl).
    rewrite (bind_Val _ _ _ _ _ (update_manager_Some m _ mgr (mkSt (world s) _) Em)).
    rewrite (bind_Val (emit _) _ _ () _ eq_refl).
    rewrite (update_impl_Some this _ impl) by done. simpl.
    rewrite (set_managers_alter _ _ _ _ Em), <- app_assoc. done.
  - unfold ret. rewrite app_nil_r. rewrite <- T, with_timerMgr_same.
    rewrite (set_components_insert_id _ _ _ E). by destruct s.
Qed.



Lemma released_component this impl s :
  components (world (released this impl s)) !! this = Some (released_impl impl).
Proof. apply lookup_stored_impl. Qed.

Ltac no_member I :=
  repeat (apply elem_of_cons in I as [I|I]; [discriminate I|]);
  by apply elem_of_nil in I.

Lemma not_precedes_after_head (a b : Event) evs :
  a ≠ b → a ∉ evs → ¬ precedes b a (a :: evs).
Proof.
  intros N I (l1 & l2 & l3 & D). destruct l1 as [|x l1].
  - injection D as D _. by apply N.
  - injection D as _ D. apply I. rewrite D.
    apply elem_of_app. right. apply elem_of_cons. right.
    apply elem_of_app. right. by left.
Qed.

Lemma worker_events_not_close c evs :
  Forall worker_event evs → EvQueueClose c ∉ evs.
Proof.
  intros F I. rewrite Forall_forall in F. destruct (F _ I) as [K|[t K]]; [done|discriminate].
Qed.

Lemma loop_events_no_join evs :
  Forall loop_event evs → ∀ t, EvJoin t ∉ evs.
Proof. intros F t I. rewrite Forall_forall in F. exact (F _ I). Qed.

Section Stop.
Context {U : UserCode}.

Lemma close_and_release_run this impl s :
  components (world s) !! this = Some impl →
  (∀ m, _timerMgr impl = Some m → is_Some (managers (world s) !! m)) →
  ComponentImpl.close_and_release this s = Val () (released this impl s).
Proof.
  intros E Hm. unfold ComponentImpl.close_and_release.
  rewrite (bind_Val _ _ _ _ _ (stop_close_queue this impl s E)).
  set (impl1 := with_msgQueue _ impl).
  rewrite (stop_timer_manager this impl1 _ (lookup_stored_impl _ _ _ _) Hm).
  unfold released, released_world, released_impl. simpl.
  fold impl1. rewrite <- !app_assoc. simpl.
  do 2 f_equal.
  destruct (_timerMgr impl);
    by rewrite ?set_components_managers, !set_components_insert_insert.
Qed.



Lemma join_worker_nothing fuel tid this impl s :
  components (world s) !! this = Some impl →
  joins_nothing tid impl →
  ComponentImpl.join_worker fuel tid this s = Val () s.
Proof.
  intros E J. unfold ComponentImpl.join_worker.
  rewrite (bind_Val _ _ _ _ _ (this_impl_Some _ _ _ E)).
  destruct J as [-> | ->].
  - by case_decide.
  - rewrite decide_False; [done|]. intros K. by apply K.
Qed.

Lemma join_worker_joins fuel tid this impl t s :
  components (world s) !! this = Some impl →
  _workerThread impl = Some t →
  t ≠ tid →
  ComponentImpl.join_worker fuel tid this s
  = (ComponentImpl.thread_join fuel t ;;; update_impl this (with_workerThread None)) s.
Proof.
  intros E W N. unfold ComponentImpl.join_worker.
  rewrite (bind_Val _ _ _ _ _ (this_impl_Some _ _ _ E)). rewrite W.
  rewrite decide_True; [done|]. congruence.
Qed.

Lemma stop_released fuel tid this impl s :
  components (world s) !! this = Some impl →
  (∀ m, _timerMgr impl = Some m → is_Some (managers (world s) !! m)) →
  ComponentImpl.stop fuel tid this s
  = ComponentImpl.join_worker fuel tid this (released this impl s).
Proof.
  intros E Hm. unfold ComponentImpl.stop.
  by rewrite (bind_Val _ _ _ _ _ (close_and_release_run this impl s E Hm)).
Qed.

Lemma stop_joins_nothing fuel tid this impl s :
  components (world s) !! this = Some impl →
  (∀ m, _timerMgr impl = Some m → is_Some (managers (world s) !! m)) →
  joins_nothing tid impl →
  ComponentImpl.stop fuel tid this s = Val () (released this impl s).
Proof.
  intros E Hm J. rewrite (stop_released _ _ _ _ _ E Hm).
  by apply (join_worker_nothing _ _ _ (released_impl impl)); [apply released_component|].
Qed.



(** C3 (as amended).  [stop] closes the message queue first; when a timer
    manager exists it is stopped and released afterwards: the first three
    calls of [stop] are [close], then [stop] on the manager, then [reset] of
    the handle, and every call that follows is made by or for the worker
    thread.  Once these two lines have run the queue is closed, the manager
    is stopped with no job left and [_timerMgr] is null; that is the state in
    which [stop] turns to the worker thread, and the state it returns in when
    it joins none. *)
Theorem stop_closes_queue_then_stops_manager fuel tid this impl m mgr s :
  components (world s) !! this = Some impl →
  _timerMgr impl = Some m →
  managers (world s) !! m = Some mgr →
  ∃ s1 impl1 evs,
    ComponentImpl.close_and_release this s = Val () s1
    ∧ ComponentImpl.stop fuel tid this s = ComponentImpl.join_worker fuel tid this s1
    ∧ trace s1 = trace s ++ [EvQueueClose this; EvTimerMgrStop m; EvTimerMgrReset this]
    ∧ components (world s1) !! this = Some impl1
    ∧ closed (_msgQueue impl1) = true
    ∧ _timerMgr impl1 = None
    ∧ managers (world s1) !! m = Some (mkManager ∅ (next_id mgr) true)
    ∧ trace (final (ComponentImpl.stop fuel tid this s))
      = trace s ++ [EvQueueClose this; EvTimerMgrStop m; EvTimerMgrReset this] ++ evs
    ∧ Forall worker_event evs
    ∧ precedes (EvQueueClose this) (EvTimerMgrStop m)
        ([EvQueueClose this; EvTimerMgrStop m; EvTimerMgrReset this] ++ evs)
    ∧ ¬ precedes (EvTimerMgrStop m) (EvQueueClose this)
          ([EvQueueClose this; EvTimerMgrStop m; EvTimerMgrReset this] ++ evs)
    ∧ (joins_nothing tid impl → ComponentImpl.stop fuel tid this s = Val () s1).
Proof.
  intros E T Em.
  assert (Hm : ∀ m', _timerMgr impl = Some m' → is_Some (managers (world s) !! m'))
    by (intros m' T'; rewrite T in T'; injection T' as <-; by eexists).
  destruct (appends_join_worker fuel tid this (released this impl s)) as (evs & Tr & F).
  assert (Tm : trace (released this impl s)
               = trace s ++ [EvQueueClose this; EvTimerMgrStop m; EvTimerMgrReset this]).
  { unfold released, timer_events. simpl. by rewrite T. }
  exists (released this impl s), (released_impl impl), evs.
  split; [by apply close_and_release_run|].
  split; [by apply stop_released|].
  split; [exact Tm|].
  split; [apply released_component|].
  split; [reflexivity|]. split; [reflexivity|].
  split.
  { unfold released, released_world. simpl. rewrite T. simpl.
    by rewrite lookup_alter_eq, Em. }
  split; [by rewrite (stop_released _ _ _ _ _ E Hm), Tr, Tm, <- app_assoc|].
  split; [exact F|].
  split; [by exists [], [], (EvTimerMgrReset this :: evs)|].
  split.
  - apply not_precedes_after_head; [discriminate|].
    intros I. apply elem_of_cons in I as [I|I]; [discriminate|].
    apply elem_of_cons in I as [I|I]; [discriminate|].
    by apply (worker_events_not_close this evs F).
  - intros J. by apply stop_joins_nothing.
Qed.


End Stop.



(** Two calls of [stop] from thread 9 on a component with a timer manager
    and a worker thread that has nothing to handle: the first call waits for
    the worker, the second only repeats [close]. *)
Example stop_twice_run :
  ∃ s1 s2,
    ComponentImpl.stop (U := sample_code) 3 9 1 component_with_worker = Val () s1
    ∧ ComponentImpl.stop (U := sample_code) 3 9 1 s1 = Val () s2
    ∧ world s2 = world s1
    ∧ trace s2
      = [EvQueueClose 1; EvTimerMgrStop 0; EvTimerMgrReset 1; EvBindActive 4 (Some 1);
         EvJoin 4; EvQueueClose 1].
Proof.
  eexists _, _. split; [vm_compute; reflexivity|].
  split; [vm_compute; reflexivity|]. split; reflexivity.
Qed.

(** C3.  The claim as stated fails: on a component that owns a timer manager,
    [stop] closes the queue before it stops the manager. *)
Lemma stop_manager_not_first :
  trace (final (ComponentImpl.stop (U := sample_code) 0 9 1 component_with_timers))
  = [EvQueueClose 1; EvTimerMgrStop 0; EvTimerMgrReset 1]
  ∧ ¬ precedes (EvTimerMgrStop 0) (EvQueueClose 1)
        (trace (final (ComponentImpl.stop (U := sample_code) 0 9 1 component_with_timers))).
Proof.
  assert (T : trace (final (ComponentImpl.stop (U := sample_code) 0 9 1
                              component_with_timers))
              = [EvQueueClose 1; EvTimerMgrStop 0; EvTimerMgrReset 1])
    by (vm_compute; reflexivity).
  split; [exact T|]. rewrite T. intros (l1 & l2 & l3 & D).
  destruct l1 as [|x l1]; [discriminate|]. injection D as _ D.
  assert (I : EvQueueClose 1 ∈ [EvTimerMgrStop 0; EvTimerMgrReset 1]).
  { rewrite D. apply elem_of_app. right. apply elem_of_cons. right.
    apply elem_of_app. right. by left. }
  no_member I.
Qed.

(** C3 (as amended) on component 1 with its timer manager and worker thread
    4, stopped from thread 9. *)
Lemma stop_closes_queue_then_stops_manager_witness :
  ∃ impl mgr,
    components (world component_with_worker) !! 1 = Some impl
    ∧ _timerMgr impl = Some 0
    ∧ managers (world component_with_worker) !! 0 = Some mgr
    ∧ ∃ s1 impl1 evs,
        ComponentImpl.close_and_release 1 component_with_worker = Val () s1
        ∧ ComponentImpl.stop (U := sample_code) 3 9 1 component_with_worker
          = ComponentImpl.join_worker (U := sample_code) 3 9 1 s1
        ∧ trace s1
          = trace component_with_worker
            ++ [EvQueueClose 1; EvTimerMgrStop 0; EvTimerMgrReset 1]
        ∧ components (world s1) !! 1 = Some impl1
        ∧ closed (_msgQueue impl1) = true
        ∧ _timerMgr impl1 = None
        ∧ managers (world s1) !! 0 = Some (mkManager ∅ (next_id mgr) true)
        ∧ trace (final (ComponentImpl.stop (U := sample_code) 3 9 1 component_with_worker))
          = trace component_with_worker
            ++ [EvQueueClose 1; EvTimerMgrStop 0; EvTimerMgrReset 1] ++ evs
        ∧ Forall worker_event evs
        ∧ precedes (EvQueueClose 1) (EvTimerMgrStop 0)
            ([EvQueueClose 1; EvTimerMgrStop 0; EvTimerMgrReset 1] ++ evs)
        ∧ ¬ precedes (EvTimerMgrStop 0) (EvQueueClose 1)
              ([EvQueueClose 1; EvTimerMgrStop 0; EvTimerMgrReset 1] ++ evs)
        ∧ (joins_nothing 9 impl →
           ComponentImpl.stop (U := sample_code) 3 9 1 component_with_worker = Val () s1).
Proof.
  eexists _, _. apply and_wlog_r; [vm_compute; reflexivity|intros H1].
  apply and_wlog_r; [reflexivity|intros H2].
  apply and_wlog_r; [vm_compute; reflexivity|intros H3].
  exact (stop_closes_queue_then_stops_manager (U := sample_code) 3 9 1 _ 0 _
           component_with_worker H1 H2 H3).
Defined.

(** ** Timer::start without an active component *)

Lemma this_timer_Some this t s :
  timers (world s) !! this = Some t → this_timer this s = Val t s.
Proof. intros E. unfold this_timer. by rewrite E. Qed.

Lemma this_manager_Some m mgr s :
  managers (world s) !! m = Some mgr → this_manager m s = Val mgr s.
Proof. intros E. unfold this_manager. by rewrite E. Qed.

Lemma update_timer_Some this f t s :
  timers (world s) !! this = Some t →
  update_timer this f s
  = Val () (mkSt (set_timers <[this := f t]> (world s)) (trace s)).
Proof.
  intros E. unfold update_timer. by rewrite (bind_Val _ _ _ _ _ (this_timer_Some _ _ _ E)).
Qed.

Lemma lookup_stored_timer this t w tr :
  timers (world (mkSt (set_timers <[this := t]> w) tr)) !! this = Some t.
Proof. simpl. apply lookup_insert_eq. Qed.

Lemma not_upgrades_lock ref s :
  ¬ upgrades ref (world s) →
  lock ref s = Val None s.
Proof.
  intros N. rewrite lock_run. f_equal.
  destruct (_ ≫= _) as [c|] eqn:L; [|done].
  destruct N. by eapply lock_upgrades.
Qed.

Lemma getTimerManager_no_active_component tid s :
  ¬ upgrades (_tlwpInstance (world s) !! tid) (world s) →
  Component.getTimerManager tid s = Val None s.
Proof.
  intros N.
  assert (A : Component.getActiveSharedPtr tid s = Val None s).
  { unfold Component.getActiveSharedPtr, Component.getActiveWeakPtr.
    rewrite (bind_Val (gets _) _ s _ s eq_refl). by apply not_upgrades_lock. }
  unfold Component.getTimerManager. by rewrite (bind_Val _ _ _ _ _ A).
Qed.

(** C7 (as amended).  When [start] is called on a thread with no active
    component, no job is registered, no schedule changes and no timer
    manager is created; if the callback is not null the façade drops its
    manager handle, so that [running()] returns false; with a null callback
    the call only logs an error and the façade is as before. *)
Theorem start_without_active_component tid this ms callback t s :
  timers (world s) !! this = Some t →
  ¬ upgrades (_tlwpInstance (world s) !! tid) (world s) →
  ∃ s1,
    Timer.start tid this ms callback s = Val () s1
    ∧ managers (world s1) = managers (world s)
    ∧ components (world s1) = components (world s)
    ∧ (∀ cb, callback = Some cb →
         world s1 = set_timers <[this := with_myMgr None t]> (world s)
         ∧ Timer.running this s1 = Val false s1)
    ∧ (callback = None →
         world s1 = add_log (Err, "[Timer]: Please specify not null callback") (world s)).
Proof.
  intros E N. unfold Timer.start. destruct callback as [cb|].
  - rewrite (bind_Val _ _ _ _ _ (getTimerManager_no_active_component tid s N)).
    rewrite (bind_Val _ _ _ _ _ (update_timer_Some this _ t s E)).
    eexists. split; [reflexivity|]. split; [done|]. split; [done|].
    split; [|done]. intros cb' _. split; [done|].
    unfold Timer.running.
    by rewrite (bind_Val _ _ _ _ _ (this_timer_Some _ _ _ (lookup_stored_timer _ _ _ _))).
  - eexists. split; [reflexivity|]. split; [done|]. split; [done|].
    split; [done|]. done.
Qed.

(** C7.  The claim as stated fails for a null callback: timer 7 is running;
    [start] with a null callback on thread 9, which has no active component,
    only logs an error, and [running()] still returns true. *)
Lemma start_null_callback_still_running :
  _tlwpInstance (world armed_timer) !! 9 = None
  ∧ ∃ s1,
      Timer.start 9 7 20 None armed_timer = Val () s1
      ∧ Timer.running 7 s1 = Val true s1.
Proof.
  split; [reflexivity|]. eexists. split; [reflexivity|]. vm_compute. reflexivity.
Qed.

(** C7 (as amended) on the running timer 7, started again with a callback
    from thread 9, which has no active component. *)
Lemma start_without_active_component_witness :
  ∃ t,
    timers (world armed_timer) !! 7 = Some t
    ∧ ¬ upgrades (_tlwpInstance (world armed_timer) !! 9) (world armed_timer)
    ∧ ∃ s1,
        Timer.start 9 7 20 (Some 0) armed_timer = Val () s1
        ∧ managers (world s1) = managers (world armed_timer)
        ∧ components (world s1) = components (world armed_timer)
        ∧ (∀ cb, Some 0 = Some cb →
             world s1 = set_timers <[7 := with_myMgr None t]> (world armed_timer)
             ∧ Timer.running 7 s1 = Val false s1)
        ∧ (Some 0 = None →
             world s1 = add_log (Err, "[Timer]: Please specify not null callback")
                          (world armed_timer)).
Proof.
  assert (N : ¬ upgrades (_tlwpInstance (world armed_timer) !! 9) (world armed_timer)).
  { intros (c & H & _). vm_compute in H. discriminate. }
  eexists. split; [vm_compute; reflexivity|]. split; [exact N|].
  apply (start_without_active_component 9 7 20 (Some 0) _ armed_timer);
    [vm_compute; reflexivity | exact N].
Defined.

(** ** One-shot timers *)

Lemma postMessage_run fault this msg impl s :
  components (world s) !! this = Some impl →
  Component.postMessage fault this msg s
  = match MessageQueue.push fault msg (_msgQueue impl) with
    | inr q => Val () (mkSt (set_components <[this := with_msgQueue q impl]> (world s))
                            (trace s))
    | inl e => Val () (mkSt (add_log (Err, push_fault_text e) (world s)) (trace s))
    end.
Proof.
  intros E. unfold Component.postMessage, ComponentImpl.postMessage, try_catch.
  rewrite (msgQueue_push_run _ _ _ impl s E).
  destruct (MessageQueue.push fault msg (_msgQueue impl)) as [e|q]; [|done].
  by rewrite select_push_clauses.
Qed.

(** What [postMessage] can do to the store: one message more in the queue
    of the component, or nothing but (on a failure) a line in the log. *)
Lemma postMessage_returns fault this msg impl s :
  components (world s) !! this = Some impl →
  ∃ s1 impl1,
    Component.postMessage fault this msg s = Val () s1
    ∧ timers (world s1) = timers (world s)
    ∧ managers (world s1) = managers (world s)
    ∧ components (world s1) = <[this := impl1]> (components (world s))
    ∧ (items (_msgQueue impl1) = items (_msgQueue impl)
       ∨ items (_msgQueue impl1) = items (_msgQueue impl) ++ [msg]).
Proof.
  intros E. rewrite (postMessage_run fault this msg impl s E).
  unfold MessageQueue.push. destruct fault as [e|].
  - eexists _, impl. split; [reflexivity|]. simpl. rewrite insert_id by done. auto.
  - destruct (closed (_msgQueue impl)).
    + eexists _, _. split; [reflexivity|]. simpl. auto.
    + eexists _, _. split; [reflexivity|]. simpl. auto.
Qed.

Section OneShot.
Context {U : UserCode}.

Lemma expire_unscheduled fault m id mgr s :
  managers (world s) !! m = Some mgr →
  jobs mgr !! id = None →
  TimerThread.expire fault m id s = Val () s.
Proof.
  intros Em J. unfold TimerThread.expire.
  by rewrite (bind_Val _ _ _ _ _ (this_manager_Some _ _ _ Em)), J.
Qed.

Lemma expire_all_unscheduled faults m id mgr s :
  managers (world s) !! m = Some mgr →
  jobs mgr !! id = None →
  expire_all faults m id s = Val () s.
Proof.
  intros Em J. induction faults as [|fault faults IH]; [done|]. simpl.
  by rewrite (bind_Val _ _ _ _ _ (expire_unscheduled fault m id mgr s Em J)).
Qed.

(** The first expiry of a scheduled one-shot job of a timer façade. *)
Lemma expire_one_shot fault this t m mgr id d ref cb s :
  timers (world s) !! this = Some t →
  _cyclic t = false →
  _id t = id →
  managers (world s) !! m = Some mgr →
  jobs mgr !! id = Some (mkJob d false (OnTimeout ref cb this)) →
  ∃ s1,
    TimerThread.expire fault m id s = Val () s1
    ∧ managers (world s1) = <[m := TimerManager.stop_job id mgr]> (managers (world s))
    ∧ timers (world s1)
      = <[this := with_id TimerManager.invalidJobID t]> (timers (world s))
    ∧ (∀ c impl,
         components (world s) !! c = Some impl →
         ∃ impl1,
           components (world s1) !! c = Some impl1
           ∧ (items (_msgQueue impl1) = items (_msgQueue impl)
              ∨ (ref = Some c
                 ∧ items (_msgQueue impl1)
                   = items (_msgQueue impl) ++ [Some (TimeoutMessage id (Some cb))]))).
Proof.
  intros Et Hc Hid Em J. unfold TimerThread.expire.
  rewrite (bind_Val _ _ _ _ _ (this_manager_Some _ _ _ Em)), J.
  unfold TimerManager.expired. rewrite J. cbn [cyclic job_callback].
  set (s0 := mkSt (set_managers <[m := TimerManager.stop_job id mgr]> (world s)) (trace s)).
  rewrite (bind_Val (modify _) _ s () s0 eq_refl).
  unfold TimerThread.run_callback, Timer.onTimeout.
  assert (Et0 : timers (world s0) !! this = Some t) by exact Et.
  rewrite (bind_Val _ _ _ _ _ (this_timer_Some _ _ _ Et0)).
  rewrite (bind_Val _ _ _ _ _ (lock_run ref s0)). rewrite Hid.
  destruct (_ ≫= _) as [c|] eqn:L.
  - (* the component is still there: the message is posted *)
    assert (∃ impl, ref = Some c ∧ components (world s) !! c = Some impl)
      as (impl & -> & Ec).
    { destruct ref as [c'|]; [|done]. simpl in L.
      destruct (components (world s) !! c') as [impl|] eqn:Ec; [|done].
      injection L as <-. by exists impl. }
    assert (Ec0 : components (world s0) !! c = Some impl) by exact Ec.
    destruct (postMessage_returns fault c (Some (TimeoutMessage id (Some cb))) impl s0 Ec0)
      as (s2 & impl1 & P & Pt & Pm & Pc & Pq).
    rewrite (bind_Val _ _ _ _ _ P).
    assert (Et2 : timers (world s2) !! this = Some t) by (by rewrite Pt).
    rewrite (bind_Val _ _ _ _ _ (this_timer_Some _ _ _ Et2)), Hc. cbn [negb].
    rewrite (update_timer_Some this _ t s2 Et2).
    eexists. split; [reflexivity|]. cbn [world timers managers set_timers components].
    split; [by rewrite Pm|]. split; [by rewrite Pt|].
    intros c' impl' Ec'. rewrite Pc. destruct (decide (c = c')) as [<-|Nc].
    + rewrite lookup_insert_eq. exists impl1. split; [done|].
      assert (impl' = impl) as -> by congruence.
      destruct Pq as [Pq|Pq]; [by left|right; by split].
    + rewrite lookup_insert_ne by done. exists impl'. split; [exact Ec'|by left].
  - (* the component is gone: nothing is posted *)
    assert (A : (t0 <~ this_timer this ;;
                 match _cyclic t0, _myMgr t0 with
                 | true, Some m0 => update_manager m0 (TimerManager.stop_job (_id t0))
                 | _, _ => ret ()
                 end) s0 = Val () s0)
      by (by rewrite (bind_Val _ _ _ _ _ (this_timer_Some _ _ _ Et0)), Hc).
    pose proof (update_timer_Some this (with_id TimerManager.invalidJobID) t s0 Et0) as B.
    rewrite (bind_Val _ _ _ _ _ (eq_trans (bind_Val _ _ _ _ _ A) B)).
    rewrite (bind_Val _ _ _ _ _ (this_timer_Some _ _ _ (lookup_stored_timer _ _ _ _))).
    cbn [_cyclic with_id]. rewrite Hc. cbn [negb].
    rewrite (update_timer_Some this _ _ _ (lookup_stored_timer _ _ _ _)).
    eexists. split; [reflexivity|]. cbn [world timers managers set_timers set_managers components].
    split; [done|]. split; [by rewrite insert_insert_eq|].
    intros c' impl' Ec'. exists impl'. split; [exact Ec'|by left].
Qed.

(** C8.  A one-shot timer fires at most once.  In a store where the façade
    [this] is not cyclic and its job [id] is scheduled with the marshalling
    callback of [Timer::start] (the state [start] leaves, see
    [start_arms_one_shot]), any number of expiry attempts of that job ends
    with at most one TimeoutMessage carrying the user callback in the queue
    of the timer's component and none anywhere else; after the first attempt
    the façade's id is the invalid id and the job is no longer scheduled.
    The built-in handler calls the user callback once for such a message. *)
Theorem one_shot_timer_fires_at_most_once faults this t m mgr id d ref cb s :
  timers (world s) !! this = Some t →
  _cyclic t = false →
  _id t = id →
  managers (world s) !! m = Some mgr →
  jobs mgr !! id = Some (mkJob d false (OnTimeout ref cb this)) →
  ∃ s1,
    expire_all faults m id s = Val () s1
    ∧ (faults ≠ [] →
         (∃ t1, timers (world s1) !! this = Some t1
                ∧ _id t1 = TimerManager.invalidJobID)
         ∧ (∃ mgr1, managers (world s1) !! m = Some mgr1
                    ∧ TimerManager.isRunning id mgr1 = false))
    ∧ (∀ c impl,
         components (world s) !! c = Some impl →
         ∃ impl1,
           components (world s1) !! c = Some impl1
           ∧ (items (_msgQueue impl1) = items (_msgQueue impl)
              ∨ (ref = Some c
                 ∧ items (_msgQueue impl1)
                   = items (_msgQueue impl) ++ [Some (TimeoutMessage id (Some cb))])))
    ∧ (∀ s', ComponentImpl.invoke ExecuteTimeout (TimeoutMessage id (Some cb)) s'
             = user (call cb) s').
Proof.
  intros Et Hc Hid Em J. destruct faults as [|fault faults].
  - exists s. split; [done|]. split; [done|]. split; [|done].
    intros c impl Ec. exists impl. split; [done|by left].
  - destruct (expire_one_shot fault this t m mgr id d ref cb s Et Hc Hid Em J)
      as (s1 & X & Xm & Xt & Xq).
    assert (Em1 : managers (world s1) !! m = Some (TimerManager.stop_job id mgr))
      by (rewrite Xm; apply lookup_insert_eq).
    assert (J1 : jobs (TimerManager.stop_job id mgr) !! id = None)
      by apply lookup_delete_eq.
    exists s1. split; [|split; [|split; [exact Xq|done]]].
    + simpl. rewrite (bind_Val _ _ _ _ _ X).
      by apply (expire_all_unscheduled faults m id _ s1 Em1 J1).
    + intros _. split.
      * eexists. rewrite Xt. split; [apply lookup_insert_eq|done].
      * eexists. split; [exact Em1|]. unfold TimerManager.isRunning.
        rewrite J1. apply bool_decide_eq_false. by intros [? ?].
Qed.

End OneShot.

(** C8 on timer 7 of [armed_timer], for three expiry attempts, the last with
    a failing allocator. *)
Lemma one_shot_timer_fires_at_most_once_witness :
  ∃ t mgr,
    timers (world armed_timer) !! 7 = Some t
    ∧ _cyclic t = false
    ∧ _id t = 1
    ∧ managers (world armed_timer) !! 0 = Some mgr
    ∧ jobs mgr !! 1 = Some (mkJob 20 false (OnTimeout (Some 1) 0 7))
    ∧ ∃ s1,
        expire_all (U := sample_code) [None; None; Some unknown_exception] 0 1 armed_timer
        = Val () s1
        ∧ ([None; None; Some unknown_exception] ≠ [] →
             (∃ t1, timers (world s1) !! 7 = Some t1
                    ∧ _id t1 = TimerManager.invalidJobID)
             ∧ (∃ mgr1, managers (world s1) !! 0 = Some mgr1
                        ∧ TimerManager.isRunning 1 mgr1 = false))
        ∧ (∀ c impl,
             components (world armed_timer) !! c = Some impl →
             ∃ impl1,
               components (world s1) !! c = Some impl1
               ∧ (items (_msgQueue impl1) = items (_msgQueue impl)
                  ∨ (Some 1 = Some c
                     ∧ items (_msgQueue impl1)
                       = items (_msgQueue impl) ++ [Some (TimeoutMessage 1 (Some 0))])))
        ∧ (∀ s', ComponentImpl.invoke (U := sample_code) ExecuteTimeout
                   (TimeoutMessage 1 (Some 0)) s'
                 = user (call (UserCode := sample_code) 0) s').
Proof.
  eexists _, _. split; [vm_compute; reflexivity|]. split; [reflexivity|].
  split; [reflexivity|]. split; [vm_compute; reflexivity|].
  split; [vm_compute; reflexivity|].
  eapply (one_shot_timer_fires_at_most_once (U := sample_code)
            [None; None; Some unknown_exception] 7 _ 0 _ 1 20 (Some 1) 0 armed_timer);
    [vm_compute; reflexivity | reflexivity | reflexivity
     | vm_compute; reflexivity | vm_compute; reflexivity].
Defined.

(** Timer 7 of [armed_timer] expiring three times: one message is queued. *)
Example one_shot_timer_run :
  ∃ s1 impl1,
    expire_all (U := sample_code) [None; None; None] 0 1 armed_timer = Val () s1
    ∧ components (world s1) !! 1 = Some impl1
    ∧ items (_msgQueue impl1) = [Some (TimeoutMessage 1 (Some 0))]
    ∧ Timer.running 7 s1 = Val false s1.
Proof.
  eexists _, _. split; [vm_compute; reflexivity|]. split; [vm_compute; reflexivity|].
  split; [reflexivity|]. vm_compute. reflexivity.
Qed.

(** ** What Timer::start leaves behind *)

(** [Component::getTimerManager] on a thread whose active component is
    alive: the component's manager, created on first use. *)
Lemma getTimerManager_active tid c impl s :
  _tlwpInstance (world s) !! tid = Some c →
  components (world s) !! c = Some impl →
  (∀ m, _timerMgr impl = Some m →
        ∃ mgr, managers (world s) !! m = Some mgr ∧ stopped mgr = false) →
  ∃ s1 m mgr,
    Component.getTimerManager tid s = Val (Some m) s1
    ∧ managers (world s1) !! m = Some mgr
    ∧ stopped mgr = false
    ∧ timers (world s1) = timers (world s)
    ∧ _tlwpInstance (world s1) = _tlwpInstance (world s)
    ∧ trace s1 = trace s.
Proof.
  intros Htl Ec WF.
  assert (A : Component.getActiveSharedPtr tid s = Val (Some c) s).
  { unfold Component.getActiveSharedPtr, Component.getActiveWeakPtr.
    rewrite (bind_Val (gets _) _ s _ s eq_refl). rewrite lock_run, Htl. simpl.
    by rewrite Ec. }
  unfold Component.getTimerManager. rewrite (bind_Val _ _ _ _ _ A).
  unfold ComponentImpl.getTimerManager.
  destruct (_timerMgr impl) as [m|] eqn:T.
  - destruct (WF m eq_refl) as (mgr & Em & St). exists s, m, mgr.
    split; [|by repeat split].
    assert (B : (impl0 <~ this_impl c ;;
                 match _timerMgr impl0 with
                 | Some _ => ret ()
                 | None => m0 <~ ComponentImpl.make_shared_TimerManager ;;
                           update_impl c (with_timerMgr (Some m0))
                 end) s = Val () s)
      by (by rewrite (bind_Val _ _ _ _ _ (this_impl_Some _ _ _ Ec)), T).
    rewrite (bind_Val _ _ _ _ _ B).
    by rewrite (bind_Val _ _ _ _ _ (this_impl_Some _ _ _ Ec)), T.
  - set (m := next_manager (world s)).
    set (s0 := mkSt (set_next_manager (S m)
                       (set_managers <[m := TimerManager.new]> (world s))) (trace s)).
    assert (Mk : ComponentImpl.make_shared_TimerManager s = Val m s0) by reflexivity.
    assert (Ec0 : components (world s0) !! c = Some impl) by exact Ec.
    assert (B : (impl0 <~ this_impl c ;;
                 match _timerMgr impl0 with
                 | Some _ => ret ()
                 | None => m0 <~ ComponentImpl.make_shared_TimerManager ;;
                           update_impl c (with_timerMgr (Some m0))
                 end) s
                = Val () (mkSt (set_components <[c := with_timerMgr (Some m) impl]> (world s0))
                               (trace s0))).
    { rewrite (bind_Val _ _ _ _ _ (this_impl_Some _ _ _ Ec)), T.
      rewrite (bind_Val _ _ _ _ _ Mk). by apply update_impl_Some. }
    rewrite (bind_Val _ _ _ _ _ B).
    rewrite (bind_Val _ _ _ _ _ (this_impl_Some _ _ _ (lookup_stored_impl _ _ _ _))).
    eexists _, m, TimerManager.new. split; [reflexivity|].
    split; [apply lookup_insert_eq|]. by repeat split.
Qed.

(** [Timer::start] with a callback on a thread whose active component is
    alive leaves the façade bound to the component's manager, with a job
    scheduled under the façade's id whose callback is the marshalling lambda:
    for a timer that is not cyclic, a one-shot job. *)
Lemma start_arms_one_shot tid this ms cb t c impl s :
  timers (world s) !! this = Some t →
  _cyclic t = false →
  _tlwpInstance (world s) !! tid = Some c →
  components (world s) !! c = Some impl →
  (∀ m, _timerMgr impl = Some m →
        ∃ mgr, managers (world s) !! m = Some mgr ∧ stopped mgr = false) →
  ∃ s1 m mgr1 id,
    Timer.start tid this ms (Some cb) s = Val () s1
    ∧ timers (world s1) !! this = Some (mkTimer id false (Some m))
    ∧ managers (world s1) !! m = Some mgr1
    ∧ jobs mgr1 !! id = Some (mkJob ms false (OnTimeout (Some c) cb this)).
Proof.
  intros Et Hc Htl Ec WF. unfold Timer.start.
  destruct (getTimerManager_active tid c impl s Htl Ec WF)
    as (sA & m & mgr & G & Em & Hs & Gt & Gtl & _).
  rewrite (bind_Val _ _ _ _ _ G).
  assert (EtA : timers (world sA) !! this = Some t) by (by rewrite Gt).
  rewrite (bind_Val _ _ _ _ _ (update_timer_Some this _ t sA EtA)).
  set (t' := with_myMgr (Some m) t).
  set (sB := mkSt (set_timers <[this := t']> (world sA)) (trace sA)).
  assert (EtB : timers (world sB) !! this = Some t') by apply lookup_stored_timer.
  assert (EmB : managers (world sB) !! m = Some mgr) by exact Em.
  (* running(), and stop() when it is *)
  assert (∃ sC mgrC,
             (r <~ Timer.running this ;;
              (if r then mafInfo "Timer is still running, then stop!" ;;; Timer.stop this
               else ret ())) sB = Val () sC
             ∧ timers (world sC) = timers (world sB)
             ∧ _tlwpInstance (world sC) = _tlwpInstance (world sB)
             ∧ managers (world sC) !! m = Some mgrC
             ∧ stopped mgrC = false) as (sC & mgrC & R & Rt & Rtl & EmC & HsC).
  { assert (Ru : Timer.running this sB = Val (TimerManager.isRunning (_id t') mgr) sB).
    { unfold Timer.running.
      rewrite (bind_Val _ _ _ _ _ (this_timer_Some _ _ _ EtB)). cbn [t' _myMgr with_myMgr].
      by rewrite (bind_Val _ _ _ _ _ (this_manager_Some _ _ _ EmB)). }
    rewrite (bind_Val _ _ _ _ _ Ru). destruct (TimerManager.isRunning _ _).
    - set (sB' := mkSt (add_log (Info, "Timer is still running, then stop!") (world sB))
                       (trace sB)).
      rewrite (bind_Val (mafInfo _) _ sB () sB' eq_refl).
      assert (EtB' : timers (world sB') !! this = Some t') by exact EtB.
      assert (EmB' : managers (world sB') !! m = Some mgr) by exact EmB.
      unfold Timer.stop.
      rewrite (bind_Val _ _ _ _ _ (this_timer_Some this t' sB' EtB')).
      cbn [t' _myMgr with_myMgr].
      rewrite (update_manager_Some m _ mgr sB' EmB').
      eexists _, _. split; [reflexivity|]. split; [done|]. split; [done|].
      split; [apply lookup_insert_eq|done].
    - exists sB, mgr. by repeat split. }
  assert (K : ∀ k : M unit,
             (r <~ Timer.running this ;;
              (if r then mafInfo "Timer is still running, then stop!" ;;; Timer.stop this
               else ret ()) ;;; k) sB = k sC).
  { intros k. unfold bind at 1. unfold bind at 1 in R.
    destruct (Timer.running this sB) as [r s'|e s'|s'|h s']; [|done|done|done].
    unfold bind at 1. by rewrite R. }
  rewrite K. clear K.
  assert (EtC : timers (world sC) !! this = Some t') by (by rewrite Rt).
  assert (W : Component.getActiveWeakPtr tid sC = Val (Some c) sC).
  { unfold Component.getActiveWeakPtr, gets. rewrite Rtl. cbn. by rewrite Gtl, Htl. }
  rewrite (bind_Val _ _ _ _ _ W).
  rewrite (bind_Val _ _ _ _ _ (this_timer_Some _ _ _ EtC)).
  cbn [t' _cyclic with_myMgr]. rewrite Hc.
  set (job := mkJob ms false (OnTimeout (Some c) cb this)).
  set (mgrD := mkManager (<[next_id mgrC := job]> (jobs mgrC)) (S (next_id mgrC)) false).
  set (sD := mkSt (set_managers <[m := mgrD]> (world sC)) (trace sC)).
  assert (Sd : Timer.myMgr_start m ms (OnTimeout (Some c) cb this) false sC
               = Val (next_id mgrC) sD).
  { unfold Timer.myMgr_start.
    rewrite (bind_Val _ _ _ _ _ (this_manager_Some _ _ _ EmC)).
    unfold TimerManager.start. rewrite HsC. reflexivity. }
  rewrite (bind_Val _ _ _ _ _ Sd).
  assert (EtD : timers (world sD) !! this = Some t') by exact EtC.
  rewrite (bind_Val _ _ _ _ _ (update_timer_Some this _ t' sD EtD)).
  eexists _, m, mgrD, (next_id mgrC). split; [reflexivity|].
  split; [|split].
  - cbn. rewrite lookup_insert_eq. unfold with_id, t'. cbn. by rewrite Hc.
  - cbn. apply lookup_insert_eq.
  - apply lookup_insert_eq.
Qed.

(** * Further properties of the code *)

(** ** Registration *)

(** X1.  A registration, through either overload, touches nothing but the
    handler map entry of its own type: the handlers of every other type, the
    other fields of the component, every other component, the rest of the
    store and the trace are as before; with a null callable or a null
    handler object it changes nothing at all. *)
Theorem registration_frame this r impl s :
  components (world s) !! this = Some impl →
  ∃ s1 impl1,
    register this r s = Val () s1
    ∧ components (world s1) !! this = Some impl1
    ∧ (∀ t, t ≠ registered_type r → _msgHandlers impl1 !! t = _msgHandlers impl !! t)
    ∧ with_msgHandlers (_msgHandlers impl) impl1 = impl
    ∧ (∀ c, c ≠ this → components (world s1) !! c = components (world s) !! c)
    ∧ outside_components (world s1) = outside_components (world s)
    ∧ trace s1 = trace s
    ∧ (null_registration r = true → s1 = s).
Proof.
  intros E.
  assert (K : ∀ t g,
    ∃ s1 impl1,
      ComponentImpl.registerMessageHandler this t (Some g) s = Val () s1
      ∧ components (world s1) !! this = Some impl1
      ∧ (∀ t', t' ≠ t → _msgHandlers impl1 !! t' = _msgHandlers impl !! t')
      ∧ with_msgHandlers (_msgHandlers impl) impl1 = impl
      ∧ (∀ c, c ≠ this → components (world s1) !! c = components (world s) !! c)
      ∧ outside_components (world s1) = outside_components (world s)
      ∧ trace s1 = trace s).
  { intros t g. eexists _, _. split; [by apply registerMessageHandler_Some|].
    split; [apply lookup_set_components|]. split; [|split; [|split; [|split]]].
    - intros t' N. simpl. by apply std_map_insert_other.
    - by destruct impl.
    - intros c N. simpl. by rewrite lookup_insert_ne.
    - done.
    - done. }
  assert (Z : ∀ t, ∃ s1 impl1,
      @Val unit () s = Val () s1
      ∧ components (world s1) !! this = Some impl1
      ∧ (∀ t', t' ≠ t → _msgHandlers impl1 !! t' = _msgHandlers impl !! t')
      ∧ with_msgHandlers (_msgHandlers impl) impl1 = impl
      ∧ (∀ c, c ≠ this → components (world s1) !! c = components (world s) !! c)
      ∧ outside_components (world s1) = outside_components (world s)
      ∧ trace s1 = trace s
      ∧ s1 = s).
  { intros t. exists s, impl. split; [done|]. split; [done|]. split; [done|].
    split; [by destruct impl|]. done. }
  destruct r as [t [g|] | t [o|]]; simpl.
  - destruct (K t g) as (s1 & impl1 & R & H1 & H2 & H3 & H4 & H5 & H6).
    exists s1, impl1. by repeat (split; [done|]).
  - destruct (Z t) as (s1 & impl1 & R & H1 & H2 & H3 & H4 & H5 & H6 & H7).
    exists s1, impl1. by repeat (split; [done|]).
  - destruct (K t (OnMessageOf o)) as (s1 & impl1 & R & H1 & H2 & H3 & H4 & H5 & H6).
    exists s1, impl1. by repeat (split; [done|]).
  - destruct (Z t) as (s1 & impl1 & R & H1 & H2 & H3 & H4 & H5 & H6 & H7).
    exists s1, impl1. by repeat (split; [done|]).
Qed.

Lemma registration_frame_witness :
  ∃ impl,
    components (world fresh_component) !! 1 = Some impl
    ∧ ∃ s1 impl1,
        register 1 (RegisterObj (idof_user 7) (Some 5)) fresh_component = Val () s1
        ∧ components (world s1) !! 1 = Some impl1
        ∧ (∀ t, t ≠ registered_type (RegisterObj (idof_user 7) (Some 5)) →
                _msgHandlers impl1 !! t = _msgHandlers impl !! t)
        ∧ with_msgHandlers (_msgHandlers impl) impl1 = impl
        ∧ (∀ c, c ≠ 1 →
                components (world s1) !! c = components (world fresh_component) !! c)
        ∧ outside_components (world s1) = outside_components (world fresh_component)
        ∧ trace s1 = trace fresh_component
        ∧ (null_registration (RegisterObj (idof_user 7) (Some 5)) = true →
           s1 = fresh_component).
Proof.
  eexists. split; [vm_compute; reflexivity|].
  eapply (registration_frame 1 (RegisterObj (idof_user 7) (Some 5)) _ fresh_component).
  vm_compute; reflexivity.
Defined.

Section Delivery.
Context {U : UserCode}.

(** X2.  A handler object registered for a type that has no handler yet is
    what the loop calls for a message of that type: the message goes to its
    [onMessage], and an exception thrown there ends in the log, not in the
    caller. *)
Theorem handler_object_receives_message this t h msg impl s :
  components (world s) !! this = Some impl →
  _msgHandlers impl !! t = None →
  idof msg = t →
  ∃ s1,
    Component.registerMessageHandler_obj this t (Some h) s = Val () s1
    ∧ ComponentImpl.dispatch this (Some msg) s1
      = Val () (match onMessage h msg (world s1) with
                | Returned w => mkSt w (trace s1 ++ [EvHandler (OnMessageOf h) msg])
                | Threw e w =>
                    mkSt (add_log (Err, handler_fault_text e) w)
                         (trace s1 ++ [EvHandler (OnMessageOf h) msg])
                end).
Proof.
  intros E N <-. eexists. split.
  - unfold Component.registerMessageHandler_obj, ComponentImpl.registerMessageHandler_obj.
    by apply registerMessageHandler_Some.
  - rewrite (dispatch_found this msg _ (OnMessageOf h) _ (lookup_stored_impl _ _ _ _)).
    + simpl. unfold user. simpl. by destruct (onMessage h msg _).
    + unfold ComponentImpl.find_handler. simpl.
      by rewrite std_map_insert_lookup, N.
Qed.

(** X3.  A null message popped by the loop is skipped: the body of the loop
    logs the error and does nothing else, no handler is called for it, and
    the loop goes on from there.  With application code that leaves the
    component alone, the messages queued behind it are then handled, in
    order, and the loop ends as it does for them alone. *)
Theorem null_message_skipped fuel this impl rest s :
  components (world s) !! this = Some impl →
  items (_msgQueue impl) = None :: rest →
  ComponentImpl.dispatch this None
    (mkSt (set_components
             <[this := with_msgQueue (mkQueue (closed (_msgQueue impl)) rest) impl]>
             (world s))
          (trace s))
  = Val () (mkSt (add_log (Err, "Got nullptr message")
                    (set_components
                       <[this := with_msgQueue (mkQueue (closed (_msgQueue impl)) rest) impl]>
                       (world s)))
                 (trace s))
  ∧ ComponentImpl.message_loop (S fuel) this s
    = ComponentImpl.message_loop fuel this
        (mkSt (add_log (Err, "Got nullptr message")
                 (set_components
                    <[this := with_msgQueue (mkQueue (closed (_msgQueue impl)) rest) impl]>
                    (world s)))
              (trace s))
  ∧ (leaves_component U this →
     builtin_handlers_typed impl →
     length rest < fuel →
     ∃ s1,
       ComponentImpl.message_loop (S fuel) this s
       = Val (if closed (_msgQueue impl) then Finished else Blocked) s1
       ∧ trace s1 = trace s ++ omap (handler_call impl) rest
       ∧ components (world s1) !! this
         = Some (with_msgQueue (mkQueue (closed (_msgQueue impl)) []) impl)).
Proof.
  intros E Q.
  set (impl0 := with_msgQueue (mkQueue (closed (_msgQueue impl)) rest) impl).
  assert (G : ComponentImpl.message_loop (S fuel) this s
              = ComponentImpl.message_loop fuel this
                  (mkSt (add_log (Err, "Got nullptr message")
                           (set_components <[this := impl0]> (world s)))
                        (trace s))).
  { rewrite (message_loop_pop fuel this impl _ _ s E Q).
    by erewrite bind_Val; [reflexivity|]. }
  split; [reflexivity|]. split; [exact G|].
  intros L Ty Hf. rewrite G.
  destruct (message_loop_drain fuel this impl0
              (mkSt (add_log (Err, "Got nullptr message")
                       (set_components <[this := impl0]> (world s)))
                    (trace s))
              L (lookup_set_components _ _ _) Ty Hf) as (s1 & R1 & T1 & E1).
  by exists s1.
Qed.

(** X4.  A message whose type has no handler is dropped: the body of the
    loop logs a warning that ends in the name of the type and does nothing
    else, no handler is called for it, and the loop goes on from there.  With
    application code that leaves the component alone, the messages queued
    behind it are then handled, in order, and the loop ends as it does for
    them alone. *)
Theorem unhandled_message_dropped fuel this impl msg rest s :
  components (world s) !! this = Some impl →
  items (_msgQueue impl) = Some msg :: rest →
  _msgHandlers impl !! idof msg = None →
  ComponentImpl.dispatch this (Some msg)
    (mkSt (set_components
             <[this := with_msgQueue (mkQueue (closed (_msgQueue impl)) rest) impl]>
             (world s))
          (trace s))
  = Val () (mkSt (add_log (Warn, "There's no handler for message "
                                 +:+ MessageType_name (idof msg))
                    (set_components
                       <[this := with_msgQueue (mkQueue (closed (_msgQueue impl)) rest) impl]>
                       (world s)))
                 (trace s))
  ∧ ComponentImpl.message_loop (S fuel) this s
    = ComponentImpl.message_loop fuel this
        (mkSt (add_log (Warn, "There's no handler for message "
                               +:+ MessageType_name (idof msg))
                 (set_components
                    <[this := with_msgQueue (mkQueue (closed (_msgQueue impl)) rest) impl]>
                    (world s)))
              (trace s))
  ∧ (leaves_component U this →
     builtin_handlers_typed impl →
     length rest < fuel →
     ∃ s1,
       ComponentImpl.message_loop (S fuel) this s
       = Val (if closed (_msgQueue impl) then Finished else Blocked) s1
       ∧ trace s1 = trace s ++ omap (handler_call impl) rest
       ∧ components (world s1) !! this
         = Some (with_msgQueue (mkQueue (closed (_msgQueue impl)) []) impl)).
Proof.
  intros E Q N.
  set (impl0 := with_msgQueue (mkQueue (closed (_msgQueue impl)) rest) impl).
  assert (D : ComponentImpl.dispatch this (Some msg)
                (mkSt (set_components <[this := impl0]> (world s)) (trace s))
              = Val () (mkSt (add_log (Warn, "There's no handler for message "
                                             +:+ MessageType_name (idof msg))
                                (set_components <[this := impl0]> (world s)))
                             (trace s))).
  { unfold ComponentImpl.dispatch.
    rewrite (bind_Val _ _ _ _ _ (this_impl_Some _ _ _ (lookup_stored_impl _ _ _ _))).
    unfold ComponentImpl.find_handler. simpl. by rewrite N. }
  assert (G : ComponentImpl.message_loop (S fuel) this s
              = ComponentImpl.message_loop fuel this
                  (mkSt (add_log (Warn, "There's no handler for message "
                                        +:+ MessageType_name (idof msg))
                           (set_components <[this := impl0]> (world s)))
                        (trace s))).
  { rewrite (message_loop_pop fuel this impl _ _ s E Q). fold impl0.
    by rewrite (bind_Val _ _ _ _ _ D). }
  split; [exact D|]. split; [exact G|].
  intros L Ty Hf. rewrite G.
  destruct (message_loop_drain fuel this impl0
              (mkSt (add_log (Warn, "There's no handler for message "
                                    +:+ MessageType_name (idof msg))
                       (set_components <[this := impl0]> (world s)))
                    (trace s))
              L (lookup_set_components _ _ _) Ty Hf) as (s1 & R1 & T1 & E1).
  by exists s1.
Qed.

End Delivery.

(** ** Draining the queue *)

Section Drain.
Context {U : UserCode}.

(** X5.  With application code that leaves the component alone, the loop
    handles the queued messages in queue order, each one once: the handler
    calls are exactly those of the queued messages that are not null and have
    a handler, first in first out.  When the queue is closed the loop then
    finishes, otherwise it waits; either way the queue is empty and the
    component is otherwise as before. *)
Theorem queue_drained_in_order fuel this impl s :
  leaves_component U this →
  components (world s) !! this = Some impl →
  builtin_handlers_typed impl →
  length (items (_msgQueue impl)) < fuel →
  ∃ s1,
    ComponentImpl.message_loop fuel this s
    = Val (if closed (_msgQueue impl) then Finished else Blocked) s1
    ∧ trace s1 = trace s ++ omap (handler_call impl) (items (_msgQueue impl))
    ∧ components (world s1) !! this
      = Some (with_msgQueue (mkQueue (closed (_msgQueue impl)) []) impl).
Proof.
  intros L. remember (items (_msgQueue impl)) as msgs eqn:Q.
  revert fuel impl s Q.
  induction msgs as [|msg rest IH]; intros fuel impl s Q E Ty Hf.
  - destruct fuel as [|fuel]; [simpl in Hf; lia|]. simpl.
    rewrite (bind_Val _ _ _ _ _ (this_impl_Some _ _ _ E)).
    unfold MessageQueue.wait. rewrite <- Q.
    exists s. rewrite app_nil_r.
    assert (with_msgQueue (mkQueue (closed (_msgQueue impl)) []) impl = impl) as ->
      by (destruct impl as [? ? [] ? ?]; simpl in *; by subst).
    by destruct (closed (_msgQueue impl)).
  - destruct fuel as [|fuel]; [simpl in Hf; lia|].
    rewrite (message_loop_pop fuel this impl msg rest s E (eq_sym Q)).
    set (impl0 := with_msgQueue (mkQueue (closed (_msgQueue impl)) rest) impl).
    destruct (dispatch_leaves_component this impl0 msg
                (mkSt (set_components <[this := impl0]> (world s)) (trace s)) L
                (lookup_stored_impl _ _ _ _) Ty)
      as (s1 & D & E1 & T1).
    rewrite (bind_Val _ _ _ _ _ D).
    destruct (IH fuel impl0 s1 eq_refl E1 Ty) as (s2 & R & T2 & E2).
    { simpl in Hf. simpl. lia. }
    exists s2. split; [exact R|]. split; [|exact E2].
    rewrite T2, T1. simpl. rewrite <- app_assoc. f_equal.
    change (handler_call impl0) with (handler_call impl).
    by destruct (handler_call impl msg).
Qed.

End Drain.

(** ** More on Component::stop *)

Section StopState.
Context {U : UserCode}.

(** X6.  What lines 75 and 76 of [stop] leave: the queue is closed with the
    queued messages still in it, the handlers, the weak handle and the worker
    thread are untouched, the timer manager handle is released, and the
    manager the component owned is stopped with all its jobs cancelled; the
    other components and managers, the timers, the thread-local handles, the
    threads and the log are as before.  That is the store in which [stop]
    turns to the worker thread, and the store it returns in when it joins
    none. *)
Theorem stop_post_state fuel tid this impl s :
  components (world s) !! this = Some impl →
  (∀ m, _timerMgr impl = Some m → is_Some (managers (world s) !! m)) →
  ∃ s1 impl1,
    ComponentImpl.close_and_release this s = Val () s1
    ∧ ComponentImpl.stop fuel tid this s = ComponentImpl.join_worker fuel tid this s1
    ∧ (joins_nothing tid impl → ComponentImpl.stop fuel tid this s = Val () s1)
    ∧ components (world s1) !! this = Some impl1
    ∧ closed (_msgQueue impl1) = true
    ∧ items (_msgQueue impl1) = items (_msgQueue impl)
    ∧ _msgHandlers impl1 = _msgHandlers impl
    ∧ _compref impl1 = _compref impl
    ∧ _workerThread impl1 = _workerThread impl
    ∧ _timerMgr impl1 = None
    ∧ (∀ m mgr, _timerMgr impl = Some m → managers (world s) !! m = Some mgr →
         managers (world s1) !! m = Some (mkManager ∅ (next_id mgr) true))
    ∧ (∀ m, _timerMgr impl ≠ Some m → managers (world s1) !! m = managers (world s) !! m)
    ∧ (∀ c, c ≠ this → components (world s1) !! c = components (world s) !! c)
    ∧ timers (world s1) = timers (world s)
    ∧ _tlwpInstance (world s1) = _tlwpInstance (world s)
    ∧ threads (world s1) = threads (world s)
    ∧ log (world s1) = log (world s).
Proof.
  intros E Hm. exists (released this impl s), (released_impl impl).
  split; [by apply close_and_release_run|].
  split; [by apply stop_released|].
  split; [intros J; by apply stop_joins_nothing|].
  split; [apply released_component|].
  do 6 (split; [reflexivity|]).
  unfold released, released_world. simpl. split; [|split; [|split]].
  - intros m mgr T Em. rewrite T. simpl. by rewrite lookup_alter_eq, Em.
  - intros m N. destruct (_timerMgr impl) as [m0|]; [|done]. simpl.
    rewrite lookup_alter_ne; [done|congruence].
  - intros c N. rewrite lookup_insert_ne by done. by destruct (_timerMgr impl).
  - by destruct (_timerMgr impl).
Qed.

(** X7.  [stop] never joins its own worker: called on the worker thread, or
    on a component without a worker thread, it returns without a call of
    [join] and leaves [_workerThread] as it is.  Called on any other thread
    it waits for the worker: it returns exactly when the function of the
    worker thread returns, the return of [join] is then the last event of the
    call and the only one of its kind, and the component is as the worker
    left it, but for [_workerThread], which is no longer joinable. *)
Theorem stop_joins_only_from_other_threads fuel tid this impl s :
  components (world s) !! this = Some impl →
  (∀ m, _timerMgr impl = Some m → is_Some (managers (world s) !! m)) →
  (_workerThread impl = None ∨ _workerThread impl = Some tid →
     ∃ s1 impl1 evs,
       ComponentImpl.stop fuel tid this s = Val () s1
       ∧ components (world s1) !! this = Some impl1
       ∧ trace s1 = trace s ++ evs
       ∧ (∀ t, EvJoin t ∉ evs)
       ∧ _workerThread impl1 = _workerThread impl)
  ∧ (∀ t, _workerThread impl = Some t → t ≠ tid →
       (∀ sw implw,
          ComponentImpl.thread_body fuel t (released this impl s) = Val Finished sw →
          components (world sw) !! this = Some implw →
          ∃ s1 pre,
            ComponentImpl.stop fuel tid this s = Val () s1
            ∧ trace s1 = trace s ++ pre ++ [EvJoin t]
            ∧ (∀ t', EvJoin t' ∉ pre)
            ∧ world s1 = set_components <[this := with_workerThread None implw]> (world sw))
       ∧ (∀ s1,
            ComponentImpl.stop fuel tid this s = Val () s1 →
            ∃ sw, ComponentImpl.thread_body fuel t (released this impl s)
                  = Val Finished sw)).
Proof.
  intros E Hm.
  assert (P : ∀ t', EvJoin t' ∉ EvQueueClose this :: timer_events this impl).
  { intros t' I. unfold timer_events in I. destruct (_timerMgr impl); no_member I. }
  split.
  - intros J.
    exists (released this impl s), (released_impl impl),
           (EvQueueClose this :: timer_events this impl).
    split; [by apply stop_joins_nothing|].
    split; [apply released_component|]. split; [reflexivity|]. by split.
  - intros t W N.
    assert (S : ComponentImpl.stop fuel tid this s
                = (ComponentImpl.thread_join fuel t ;;;
                   update_impl this (with_workerThread None)) (released this impl s)).
    { rewrite (stop_released _ _ _ _ _ E Hm).
      by apply (join_worker_joins _ _ _ (released_impl impl));
        [apply released_component|..]. }
    split.
    + intros sw implw B Ew.
      destruct (appends_thread_body fuel t (released this impl s)) as (evs & Tr & F).
      rewrite B in Tr. simpl in Tr.
      eexists _, (EvQueueClose this :: timer_events this impl ++ evs).
      split; [|split; [|split]].
      * rewrite S. unfold ComponentImpl.thread_join.
        erewrite bind_Val; [|by rewrite (bind_Val _ _ _ _ _ B)].
        by apply update_impl_Some.
      * simpl. rewrite Tr. by rewrite <- !app_assoc.
      * intros t' I. rewrite app_comm_cons in I.
        apply elem_of_app in I as [I|I]; [by apply (P t')|].
        by apply (loop_events_no_join evs F t').
      * reflexivity.
    + intros s1 R. rewrite S in R. unfold ComponentImpl.thread_join, bind in R.
      destruct (ComponentImpl.thread_body fuel t (released this impl s))
        as [[] sw|e sw|sw|h sw]; try discriminate.
      by exists sw.
Qed.

(** X8.  After a [stop] that joins no thread, every timer façade bound to
    the manager the component owned reports [running()] = false, and an
    expiry attempt of any job id of that manager changes nothing: no callback
    runs and no message is posted. *)
Theorem timers_dead_after_stop fuel tid this impl m mgr s :
  components (world s) !! this = Some impl →
  _timerMgr impl = Some m →
  managers (world s) !! m = Some mgr →
  joins_nothing tid impl →
  ∃ s1,
    ComponentImpl.stop fuel tid this s = Val () s1
    ∧ (∀ tp t, timers (world s) !! tp = Some t → _myMgr t = Some m →
         Timer.running tp s1 = Val false s1)
    ∧ (∀ fault id, TimerThread.expire fault m id s1 = Val () s1).
Proof.
  intros E T Em J.
  assert (Hm : ∀ m', _timerMgr impl = Some m' → is_Some (managers (world s) !! m')).
  { intros m' T'. assert (m' = m) as -> by congruence. by eexists. }
  pose proof (stop_joins_nothing fuel tid this impl s E Hm J) as R.
  set (s1 := released this impl s) in R.
  assert (Em1 : managers (world s1) !! m = Some (TimerManager.stop mgr)).
  { unfold s1, released, released_world. rewrite T. simpl. by rewrite lookup_alter_eq, Em. }
  assert (Ht : timers (world s1) = timers (world s)).
  { unfold s1, released, released_world. by rewrite T. }
  exists s1. split; [exact R|]. split.
  - intros tp t Et My. unfold Timer.running.
    assert (Et1 : timers (world s1) !! tp = Some t) by (by rewrite Ht).
    rewrite (bind_Val _ _ _ _ _ (this_timer_Some _ _ _ Et1)), My.
    by rewrite (bind_Val _ _ _ _ _ (this_manager_Some _ _ _ Em1)).
  - intros fault id. by apply (expire_unscheduled fault m id _ s1 Em1).
Qed.

End StopState.

(** X6 on component 1 with timer manager 0 and worker 4, stopped from
    thread 9. *)
Lemma stop_post_state_witness :
  ∃ impl,
    components (world component_with_worker) !! 1 = Some impl
    ∧ (∀ m, _timerMgr impl = Some m →
            is_Some (managers (world component_with_worker) !! m))
    ∧ ∃ (s1 : St) (impl1 : ComponentImpl),
        ComponentImpl.close_and_release 1 component_with_worker = Val () s1
        ∧ ComponentImpl.stop (U := sample_code) 3 9 1 component_with_worker
          = ComponentImpl.join_worker (U := sample_code) 3 9 1 s1
        ∧ (joins_nothing 9 impl →
           ComponentImpl.stop (U := sample_code) 3 9 1 component_with_worker = Val () s1)
        ∧ components (world s1) !! 1 = Some impl1
        ∧ closed (_msgQueue impl1) = true
        ∧ items (_msgQueue impl1) = items (_msgQueue impl)
        ∧ _msgHandlers impl1 = _msgHandlers impl
        ∧ _compref impl1 = _compref impl
        ∧ _workerThread impl1 = _workerThread impl
        ∧ _timerMgr impl1 = None
        ∧ (∀ (m : nat) (mgr : TimerManager),
             _timerMgr impl = Some m →
             managers (world component_with_worker) !! m = Some mgr →
             managers (world s1) !! m
             = Some {| jobs := ∅; next_id := next_id mgr; stopped := true |})
        ∧ (∀ m : nat,
             _timerMgr impl ≠ Some m →
             managers (world s1) !! m = managers (world component_with_worker) !! m)
        ∧ (∀ c : nat,
             c ≠ 1 →
             components (world s1) !! c = components (world component_with_worker) !! c)
        ∧ timers (world s1) = timers (world component_with_worker)
        ∧ _tlwpInstance (world s1) = _tlwpInstance (world component_with_worker)
        ∧ threads (world s1) = threads (world component_with_worker)
        ∧ log (world s1) = log (world component_with_worker).
Proof.
  eexists. apply and_wlog_r; [vm_compute; reflexivity|intros H1].
  apply and_wlog_r.
  { intros m Hm. vm_compute in Hm. injection Hm as <-. eexists. vm_compute. reflexivity. }
  intros H2.
  exact (stop_post_state (U := sample_code) 3 9 1 _ component_with_worker H1 H2).
Defined.

(** X7 on the same component, stopped from thread 9, which is not the
    worker: the worker, thread 4, returns once the queue is closed, and
    [stop] returns after it. *)
Lemma stop_joins_only_from_other_threads_witness :
  ∃ impl sw implw,
    components (world component_with_worker) !! 1 = Some impl
    ∧ (∀ m, _timerMgr impl = Some m →
            is_Some (managers (world component_with_worker) !! m))
    ∧ _workerThread impl = Some 4
    ∧ ComponentImpl.thread_body (U := sample_code) 3 4
        (released 1 impl component_with_worker) = Val Finished sw
    ∧ components (world sw) !! 1 = Some implw
    ∧ ∃ s1 pre,
        ComponentImpl.stop (U := sample_code) 3 9 1 component_with_worker = Val () s1
        ∧ trace s1 = trace component_with_worker ++ pre ++ [EvJoin 4]
        ∧ (∀ t', EvJoin t' ∉ pre)
        ∧ world s1 = set_components <[1 := with_workerThread None implw]> (world sw).
Proof.
  eexists _, _, _. apply and_wlog_r; [vm_compute; reflexivity|intros H1].
  apply and_wlog_r.
  { intros m Hm. vm_compute in Hm. injection Hm as <-. eexists. vm_compute. reflexivity. }
  intros H2.
  apply and_wlog_r; [reflexivity|intros H3].
  apply and_wlog_r; [vm_compute; reflexivity|intros H4].
  apply and_wlog_r; [vm_compute; reflexivity|intros H5].
  destruct (stop_joins_only_from_other_threads (U := sample_code) 3 9 1 _
              component_with_worker H1 H2) as [_ K].
  destruct (K 4 H3) as [K1 _]; [lia|].
  exact (K1 _ _ H4 H5).
Defined.

(** X8 on [armed_timer]: component 1 owns manager 0, to which timer 7 is
    bound, and has no worker thread. *)
Lemma timers_dead_after_stop_witness :
  ∃ impl mgr,
    components (world armed_timer) !! 1 = Some impl
    ∧ _timerMgr impl = Some 0
    ∧ managers (world armed_timer) !! 0 = Some mgr
    ∧ joins_nothing 9 impl
    ∧ ∃ s1 : St,
        ComponentImpl.stop (U := sample_code) 0 9 1 armed_timer = Val () s1
        ∧ (∀ (tp : nat) (t : Timer),
             timers (world armed_timer) !! tp = Some t →
             _myMgr t = Some 0 → Timer.running tp s1 = Val false s1)
        ∧ (∀ (fault : option Exn) (id : nat),
             TimerThread.expire (U := sample_code) fault 0 id s1 = Val () s1).
Proof.
  eexists _, _. apply and_wlog_r; [vm_compute; reflexivity|intros H1].
  apply and_wlog_r; [reflexivity|intros H2].
  apply and_wlog_r; [vm_compute; reflexivity|intros H3].
  apply and_wlog_r; [by left|intros H4].
  exact (timers_dead_after_stop (U := sample_code) 0 9 1 _ 0 _ armed_timer H1 H2 H3 H4).
Defined.

(** ** The timer manager of a component *)

Lemma impl_getTimerManager_existing this impl m s :
  components (world s) !! this = Some impl →
  _timerMgr impl = Some m →
  ComponentImpl.getTimerManager this s = Val (Some m) s.
Proof.
  intros E T. unfold ComponentImpl.getTimerManager.
  assert (B : (impl0 <~ this_impl this ;;
               match _timerMgr impl0 with
               | Some _ => ret ()
               | None => m0 <~ ComponentImpl.make_shared_TimerManager ;;
                         update_impl this (with_timerMgr (Some m0))
               end) s = Val () s)
    by (by rewrite (bind_Val _ _ _ _ _ (this_impl_Some _ _ _ E)), T).
  rewrite (bind_Val _ _ _ _ _ B).
  by rewrite (bind_Val _ _ _ _ _ (this_impl_Some _ _ _ E)), T.
Qed.

Lemma impl_getTimerManager_first this impl s :
  components (world s) !! this = Some impl →
  _timerMgr impl = None →
  ComponentImpl.getTimerManager this s
  = Val (Some (next_manager (world s)))
        (mkSt (set_components
                 <[this := with_timerMgr (Some (next_manager (world s))) impl]>
                 (set_next_manager (S (next_manager (world s)))
                    (set_managers <[next_manager (world s) := TimerManager.new]>
                       (world s))))
              (trace s)).
Proof.
  intros E T. unfold ComponentImpl.getTimerManager.
  set (m := next_manager (world s)).
  set (s0 := mkSt (set_next_manager (S m)
                     (set_managers <[m := TimerManager.new]> (world s))) (trace s)).
  assert (Mk : ComponentImpl.make_shared_TimerManager s = Val m s0) by reflexivity.
  assert (Ec0 : components (world s0) !! this = Some impl) by exact E.
  assert (B : (impl0 <~ this_impl this ;;
               match _timerMgr impl0 with
               | Some _ => ret ()
               | None => m0 <~ ComponentImpl.make_shared_TimerManager ;;
                         update_impl this (with_timerMgr (Some m0))
               end) s
              = Val () (mkSt (set_components <[this := with_timerMgr (Some m) impl]> (world s0))
                             (trace s0))).
  { rewrite (bind_Val _ _ _ _ _ (this_impl_Some _ _ _ E)), T.
    rewrite (bind_Val _ _ _ _ _ Mk). by apply update_impl_Some. }
  rewrite (bind_Val _ _ _ _ _ B).
  by rewrite (bind_Val _ _ _ _ _ (this_impl_Some _ _ _ (lookup_stored_impl _ _ _ _))).
Qed.

Section LazyManager.
Context {U : UserCode}.

(** X9.  [ComponentImpl::getTimerManager] never returns null and creates a
    manager only when the component holds none: it then stores a new manager
    (no job, not stopped) and changes no other field of the component.
    Whenever the component holds a manager, the call returns that manager and
    changes nothing.  [stop] releases the manager, so the first call after a
    [stop] creates another one, at a new address, while the one that was
    stopped stays stopped. *)
Theorem getTimerManager_creates_when_missing fuel tid this impl s :
  components (world s) !! this = Some impl →
  ∃ m s1 impl1,
    ComponentImpl.getTimerManager this s = Val (Some m) s1
    ∧ components (world s1) !! this = Some impl1
    ∧ _timerMgr impl1 = Some m
    ∧ with_timerMgr (_timerMgr impl) impl1 = impl
    ∧ (∀ m0, _timerMgr impl = Some m0 → m = m0 ∧ s1 = s)
    ∧ (∀ s2 impl2,
         components (world s2) !! this = Some impl2 →
         _timerMgr impl2 = Some m →
         ComponentImpl.getTimerManager this s2 = Val (Some m) s2)
    ∧ (_timerMgr impl = None →
       m = next_manager (world s)
       ∧ managers (world s1) !! m = Some TimerManager.new
       ∧ (joins_nothing tid impl →
          ∃ s2 s3 impl3,
            ComponentImpl.stop fuel tid this s1 = Val () s2
            ∧ ComponentImpl.getTimerManager this s2 = Val (Some (S m)) s3
            ∧ components (world s3) !! this = Some impl3
            ∧ _timerMgr impl3 = Some (S m)
            ∧ managers (world s3) !! S m = Some TimerManager.new
            ∧ managers (world s3) !! m = Some (TimerManager.stop TimerManager.new))).
Proof.
  intros E. destruct (_timerMgr impl) as [m0|] eqn:T.
  - exists m0, s, impl. split; [by apply (impl_getTimerManager_existing this impl)|].
    split; [done|]. split; [done|]. split; [by rewrite <- T; destruct impl|].
    split; [by intros ? [= <-]|].
    split; [intros s2 impl2 E2 T2; by apply (impl_getTimerManager_existing this impl2)|].
    done.
  - pose proof (impl_getTimerManager_first this impl s E T) as R.
    set (m := next_manager (world s)) in *.
    set (impl1 := with_timerMgr (Some m) impl) in *.
    set (s1 := mkSt _ _) in R.
    assert (E1 : components (world s1) !! this = Some impl1) by apply lookup_stored_impl.
    assert (Em1 : managers (world s1) !! m = Some TimerManager.new)
      by apply lookup_insert_eq.
    exists m, s1, impl1. split; [exact R|]. split; [exact E1|]. split; [done|].
    split; [by rewrite <- T; destruct impl|]. split; [done|].
    split; [intros s2 impl2 E2 T2; by apply (impl_getTimerManager_existing this impl2)|].
    intros _. split; [done|]. split; [exact Em1|]. intros J.
    assert (Hm1 : ∀ m', _timerMgr impl1 = Some m' → is_Some (managers (world s1) !! m')).
    { intros m' [= <-]. by eexists. }
    pose proof (stop_joins_nothing fuel tid this impl1 s1 E1 Hm1 J) as St.
    set (s2 := released this impl1 s1) in St.
    assert (E2 : components (world s2) !! this = Some (released_impl impl1))
      by apply released_component.
    pose proof (impl_getTimerManager_first this _ s2 E2 eq_refl) as R2.
    eexists s2, _, _. split; [exact St|]. split; [exact R2|].
    split; [apply lookup_stored_impl|]. split; [reflexivity|].
    split; [apply lookup_insert_eq|].
    simpl. rewrite lookup_insert_ne by lia.
    rewrite lookup_alter_eq. by rewrite lookup_insert_eq.
Qed.

End LazyManager.

(** X10.  [Component::getTimerManager] on a thread whose active component is
    alive is the component's own [getTimerManager], with the same result and
    the same store: it returns the component's manager, creating it when the
    component holds none.  As long as the component is alive, active on that
    thread and holds that manager, every call on the thread returns it and
    changes nothing. *)
Theorem active_component_manager_shared tid c impl s :
  _tlwpInstance (world s) !! tid = Some c →
  components (world s) !! c = Some impl →
  Component.getTimerManager tid s = ComponentImpl.getTimerManager c s
  ∧ ∃ m s1,
      Component.getTimerManager tid s = Val (Some m) s1
      ∧ (∀ m0, _timerMgr impl = Some m0 → m = m0 ∧ s1 = s)
      ∧ Component.getTimerManager tid s1 = Val (Some m) s1
      ∧ Component.getActiveSharedPtr tid s1 = Val (Some c) s1
      ∧ (∀ s2 impl2,
           _tlwpInstance (world s2) !! tid = Some c →
           components (world s2) !! c = Some impl2 →
           _timerMgr impl2 = Some m →
           Component.getTimerManager tid s2 = Val (Some m) s2).
Proof.
  intros Htl Ec.
  assert (A : ∀ s', _tlwpInstance (world s') !! tid = Some c →
                    is_Some (components (world s') !! c) →
                    Component.getActiveSharedPtr tid s' = Val (Some c) s').
  { intros s' H1 [i H2]. unfold Component.getActiveSharedPtr, Component.getActiveWeakPtr.
    rewrite (bind_Val (gets _) _ s' _ s' eq_refl). rewrite lock_run, H1. simpl.
    by rewrite H2. }
  assert (G : ∀ s', _tlwpInstance (world s') !! tid = Some c →
                    is_Some (components (world s') !! c) →
                    Component.getTimerManager tid s' = ComponentImpl.getTimerManager c s').
  { intros s' H1 H2. unfold Component.getTimerManager.
    by rewrite (bind_Val _ _ _ _ _ (A s' H1 H2)). }
  assert (L : ∀ m s2 impl2,
             _tlwpInstance (world s2) !! tid = Some c →
             components (world s2) !! c = Some impl2 →
             _timerMgr impl2 = Some m →
             Component.getTimerManager tid s2 = Val (Some m) s2).
  { intros m s2 impl2 H1 H2 T2. rewrite (G s2 H1) by (by eexists).
    by apply (impl_getTimerManager_existing c impl2). }
  split; [apply G; [done|by eexists]|].
  destruct (_timerMgr impl) as [m0|] eqn:T.
  - pose proof (impl_getTimerManager_existing c impl m0 s Ec T) as R.
    exists m0, s. rewrite (G s Htl) by (by eexists).
    split; [done|]. split; [by intros ? [= <-]|]. split; [done|].
    split; [apply A; [done|by eexists]|]. apply L.
  - pose proof (impl_getTimerManager_first c impl s Ec T) as R.
    set (s1 := mkSt _ _) in R.
    assert (H1 : _tlwpInstance (world s1) !! tid = Some c) by exact Htl.
    assert (H2 : components (world s1) !! c
                 = Some (with_timerMgr (Some (next_manager (world s))) impl))
      by apply lookup_stored_impl.
    exists (next_manager (world s)), s1. rewrite (G s Htl) by (by eexists).
    split; [done|]. split; [done|]. split.
    + rewrite (G s1 H1) by (by eexists).
      by apply (impl_getTimerManager_existing c _ _ s1 H2).
    + split; [apply A; [done|by eexists]|]. apply L.
Qed.

(** X9 on the fresh component 1, which has no manager and no worker yet. *)
Lemma getTimerManager_creates_when_missing_witness :
  ∃ impl,
    components (world fresh_component) !! 1 = Some impl
    ∧ ∃ (m : nat) (s1 : St) (impl1 : ComponentImpl),
        ComponentImpl.getTimerManager 1 fresh_component = Val (Some m) s1
        ∧ components (world s1) !! 1 = Some impl1
        ∧ _timerMgr impl1 = Some m
        ∧ with_timerMgr (_timerMgr impl) impl1 = impl
        ∧ (∀ m0 : nat, _timerMgr impl = Some m0 → m = m0 ∧ s1 = fresh_component)
        ∧ (∀ s2 impl2,
             components (world s2) !! 1 = Some impl2 →
             _timerMgr impl2 = Some m →
             ComponentImpl.getTimerManager 1 s2 = Val (Some m) s2)
        ∧ (_timerMgr impl = None →
           m = next_manager (world fresh_component)
           ∧ managers (world s1) !! m = Some TimerManager.new
           ∧ (joins_nothing 9 impl →
              ∃ s2 s3 impl3,
                ComponentImpl.stop (U := sample_code) 0 9 1 s1 = Val () s2
                ∧ ComponentImpl.getTimerManager 1 s2 = Val (Some (S m)) s3
                ∧ components (world s3) !! 1 = Some impl3
                ∧ _timerMgr impl3 = Some (S m)
                ∧ managers (world s3) !! S m = Some TimerManager.new
                ∧ managers (world s3) !! m = Some (TimerManager.stop TimerManager.new))).
Proof.
  eexists. apply and_wlog_r; [vm_compute; reflexivity|intros H1].
  exact (getTimerManager_creates_when_missing (U := sample_code) 0 9 1 _
           fresh_component H1).
Defined.

(** X10 on [armed_timer], from thread 3, whose active component is 1. *)
Lemma active_component_manager_shared_witness :
  ∃ impl,
    _tlwpInstance (world armed_timer) !! 3 = Some 1
    ∧ components (world armed_timer) !! 1 = Some impl
    ∧ Component.getTimerManager 3 armed_timer = ComponentImpl.getTimerManager 1 armed_timer
    ∧ ∃ (m : nat) (s1 : St),
        Component.getTimerManager 3 armed_timer = Val (Some m) s1
        ∧ (∀ m0, _timerMgr impl = Some m0 → m = m0 ∧ s1 = armed_timer)
        ∧ Component.getTimerManager 3 s1 = Val (Some m) s1
        ∧ Component.getActiveSharedPtr 3 s1 = Val (Some 1) s1
        ∧ (∀ s2 impl2,
             _tlwpInstance (world s2) !! 3 = Some 1 →
             components (world s2) !! 1 = Some impl2 →
             _timerMgr impl2 = Some m →
             Component.getTimerManager 3 s2 = Val (Some m) s2).
Proof.
  eexists. apply and_wlog_r; [reflexivity|intros H1].
  apply and_wlog_r; [vm_compute; reflexivity|intros H2].
  exact (active_component_manager_shared 3 1 _ armed_timer H1 H2).
Defined.

(** ** The timer façade *)

Section TimerFacade.
Context {U : UserCode}.

(** X11.  A timer that was constructed and never started is inert: its id is
    the invalid id, it is not cyclic, [running()] is false, and [stop()] and
    [restart()] return without touching any manager. *)
Theorem new_timer_inert this s :
  ∃ s1,
    Timer.ctor this s = Val () s1
    ∧ timers (world s1) !! this = Some (mkTimer TimerManager.invalidJobID false None)
    ∧ Timer.running this s1 = Val false s1
    ∧ Timer.stop this s1 = Val () s1
    ∧ Timer.restart this s1 = Val () s1
    ∧ managers (world s1) = managers (world s)
    ∧ components (world s1) = components (world s).
Proof.
  eexists. split; [reflexivity|].
  assert (E : ∀ w tr,
             timers (world (mkSt (set_timers
                                    <[this := mkTimer TimerManager.invalidJobID false None]> w)
                                 tr)) !! this
             = Some (mkTimer TimerManager.invalidJobID false None))
    by (intros; apply lookup_stored_timer).
  split; [apply (E _ [])|].
  unfold Timer.running, Timer.stop, Timer.restart.
  by rewrite !(bind_Val _ _ _ _ _ (this_timer_Some _ _ _ (E _ _))).
Qed.

(** X12.  [setCyclic(c)] leaves the façade with flag [c] and touches nothing
    else of it; when the flag does not change the call does nothing (so a
    repeated call is a no-op), and when it changes and the façade is bound to
    a manager the flag of the job under the façade's id changes with it. *)
Theorem setCyclic_sets_flag this c t s :
  timers (world s) !! this = Some t →
  (∀ m, _myMgr t = Some m → is_Some (managers (world s) !! m)) →
  ∃ s1,
    Timer.setCyclic this c s = Val () s1
    ∧ timers (world s1) !! this = Some (mkTimer (_id t) c (_myMgr t))
    ∧ (c = _cyclic t → s1 = s)
    ∧ Timer.setCyclic this c s1 = Val () s1
    ∧ components (world s1) = components (world s)
    ∧ (∀ m mgr j,
         c ≠ _cyclic t →
         _myMgr t = Some m →
         managers (world s) !! m = Some mgr →
         jobs mgr !! _id t = Some j →
         ∃ mgr1,
           managers (world s1) !! m = Some mgr1
           ∧ jobs mgr1 !! _id t = Some (mkJob (duration j) c (job_callback j))
           ∧ ∀ id, id ≠ _id t → jobs mgr1 !! id = jobs mgr !! id).
Proof.
  intros Et Hm. unfold Timer.setCyclic.
  rewrite (bind_Val _ _ _ _ _ (this_timer_Some _ _ _ Et)).
  assert (Same : ∀ s' t',
             timers (world s') !! this = Some t' → _cyclic t' = c →
             Timer.setCyclic this c s' = Val () s').
  { intros s' t' Et' Hc. unfold Timer.setCyclic.
    rewrite (bind_Val _ _ _ _ _ (this_timer_Some _ _ _ Et')).
    rewrite decide_False; [done|]. intros K. by apply K. }
  destruct (decide (c ≠ _cyclic t)) as [N|Y].
  - rewrite (bind_Val _ _ _ _ _ (update_timer_Some this _ t s Et)).
    set (s0 := mkSt (set_timers <[this := with_cyclic c t]> (world s)) (trace s)).
    destruct (_myMgr t) as [m|] eqn:My.
    + destruct (Hm m eq_refl) as [mgr Em].
      assert (Em0 : managers (world s0) !! m = Some mgr) by exact Em.
      rewrite (update_manager_Some m _ mgr s0 Em0).
      eexists. split; [reflexivity|]. split.
      { simpl. rewrite lookup_insert_eq. unfold with_cyclic. by rewrite My. }
      split; [by intros ->|]. split.
      { eapply Same; [simpl; apply lookup_insert_eq|done]. }
      split; [done|].
      intros m' mgr' j _ [= <-] Em' J. assert (mgr' = mgr) as -> by congruence.
      eexists. split; [simpl; apply lookup_insert_eq|]. simpl. split.
      * by rewrite lookup_alter_eq, J.
      * intros id Nid. by rewrite lookup_alter_ne.
    + exists s0. split; [done|]. split.
      { simpl. rewrite lookup_insert_eq. unfold with_cyclic. by rewrite My. }
      split; [by intros ->|]. split.
      { eapply Same; [simpl; apply lookup_insert_eq|done]. }
      split; [done|]. by intros m mgr j _ [=].
  - apply dec_stable in Y. subst c.
    exists s. split; [done|]. split; [by destruct t|]. split; [done|].
    split; [by apply (Same s t)|]. split; [done|]. by intros m mgr j [].
Qed.

(** X13.  [stop()] on a façade bound to a manager cancels the job under the
    façade's id and no other: [running()] is then false and an expiry
    attempt of that id changes nothing; the façade keeps its id and its
    manager.  The destructor does the same and removes the façade. *)
Theorem timer_stop_cancels_job this t m mgr s :
  timers (world s) !! this = Some t →
  _myMgr t = Some m →
  managers (world s) !! m = Some mgr →
  ∃ s1 mgr1,
    Timer.stop this s = Val () s1
    ∧ managers (world s1) !! m = Some mgr1
    ∧ jobs mgr1 !! _id t = None
    ∧ (∀ id, id ≠ _id t → jobs mgr1 !! id = jobs mgr !! id)
    ∧ timers (world s1) = timers (world s)
    ∧ components (world s1) = components (world s)
    ∧ Timer.running this s1 = Val false s1
    ∧ (∀ faults, expire_all faults m (_id t) s1 = Val () s1)
    ∧ Timer.dtor this s
      = Val () (mkSt (set_timers (delete this) (world s1)) (trace s1)).
Proof.
  intros Et My Em.
  assert (R : Timer.stop this s
              = Val () (mkSt (set_managers <[m := TimerManager.stop_job (_id t) mgr]>
                                (world s)) (trace s))).
  { unfold Timer.stop. rewrite (bind_Val _ _ _ _ _ (this_timer_Some _ _ _ Et)), My.
    by apply update_manager_Some. }
  set (s1 := mkSt _ _) in R.
  assert (Em1 : managers (world s1) !! m = Some (TimerManager.stop_job (_id t) mgr))
    by apply lookup_insert_eq.
  assert (J1 : jobs (TimerManager.stop_job (_id t) mgr) !! _id t = None)
    by apply lookup_delete_eq.
  exists s1, (TimerManager.stop_job (_id t) mgr).
  split; [exact R|]. split; [exact Em1|]. split; [exact J1|].
  split; [intros id N; simpl; by rewrite lookup_delete_ne|].
  split; [done|]. split; [done|]. split; [|split].
  - unfold Timer.running.
    assert (Et1 : timers (world s1) !! this = Some t) by exact Et.
    rewrite (bind_Val _ _ _ _ _ (this_timer_Some _ _ _ Et1)), My.
    rewrite (bind_Val _ _ _ _ _ (this_manager_Some _ _ _ Em1)).
    unfold TimerManager.isRunning. rewrite J1.
    by rewrite bool_decide_eq_false_2 by (by intros [? ?]).
  - intros faults. by apply (expire_all_unscheduled faults m (_id t) _ s1 Em1 J1).
  - unfold Timer.dtor. by rewrite (bind_Val _ _ _ _ _ R).
Qed.

End TimerFacade.

(** ** Starting a timer *)

Lemma getActiveSharedPtr_active tid c s :
  _tlwpInstance (world s) !! tid = Some c →
  is_Some (components (world s) !! c) →
  Component.getActiveSharedPtr tid s = Val (Some c) s.
Proof.
  intros H1 [i H2]. unfold Component.getActiveSharedPtr, Component.getActiveWeakPtr.
  rewrite (bind_Val (gets _) _ s _ s eq_refl). rewrite lock_run, H1. simpl.
  by rewrite H2.
Qed.

(** The manager [Component::getTimerManager] hands to a timer on a thread
    whose active component is alive: the component's, or a new one. *)
Lemma getTimerManager_for_timer tid c impl s :
  _tlwpInstance (world s) !! tid = Some c →
  components (world s) !! c = Some impl →
  (∀ m, _timerMgr impl = Some m → is_Some (managers (world s) !! m)) →
  ∃ s1 m mgr,
    Component.getTimerManager tid s = Val (Some m) s1
    ∧ managers (world s1) !! m = Some mgr
    ∧ (∀ m0, _timerMgr impl = Some m0 → m0 = m ∧ managers (world s) !! m = Some mgr)
    ∧ (_timerMgr impl = None → mgr = TimerManager.new)
    ∧ timers (world s1) = timers (world s)
    ∧ _tlwpInstance (world s1) = _tlwpInstance (world s).
Proof.
  intros Htl Ec WF. unfold Component.getTimerManager.
  rewrite (bind_Val _ _ _ _ _ (getActiveSharedPtr_active tid c s Htl (mk_is_Some _ _ Ec))).
  destruct (_timerMgr impl) as [m0|] eqn:T.
  - destruct (WF m0 eq_refl) as [mgr Em]. exists s, m0, mgr.
    split; [by apply (impl_getTimerManager_existing c impl)|]. split; [done|].
    split; [by intros ? [= <-]|done].
  - eexists _, _, TimerManager.new.
    split; [by apply impl_getTimerManager_first|].
    split; [apply lookup_insert_eq|]. split; [done|]. done.
Qed.

(** X14.  [start] with a callback, on a thread whose active component is
    alive and whose manager has not been stopped: the façade ends bound to
    the component's manager (created if there was none) under a fresh id and
    is running; the manager holds one new job under that id, with the
    duration given, the façade's cyclicity and the marshalling callback for
    this façade, component and user callback; the job that carried the
    façade's previous id in that manager is cancelled, and no other job
    changes. *)
Theorem start_schedules_job tid this ms cb t c impl s :
  timers (world s) !! this = Some t →
  _tlwpInstance (world s) !! tid = Some c →
  components (world s) !! c = Some impl →
  (∀ m, _timerMgr impl = Some m →
        ∃ mgr, managers (world s) !! m = Some mgr ∧ stopped mgr = false) →
  ∃ s1 m mgr0 mgr1,
    Timer.start tid this ms (Some cb) s = Val () s1
    ∧ (∀ m0, _timerMgr impl = Some m0 → m0 = m ∧ managers (world s) !! m = Some mgr0)
    ∧ (_timerMgr impl = None → mgr0 = TimerManager.new)
    ∧ timers (world s1) !! this = Some (mkTimer (next_id mgr0) (_cyclic t) (Some m))
    ∧ managers (world s1) !! m = Some mgr1
    ∧ jobs mgr1
      = <[next_id mgr0 := mkJob ms (_cyclic t) (OnTimeout (Some c) cb this)]>
          (delete (_id t) (jobs mgr0))
    ∧ Timer.running this s1 = Val true s1.
Proof.
  intros Et Htl Ec WF. unfold Timer.start.
  destruct (getTimerManager_for_timer tid c impl s Htl Ec)
    as (sA & m & mgr & G & Em & Gs & Gn & Gt & Gtl).
  { intros m0 T. destruct (WF m0 T) as (mgr0 & E0 & _). by eexists. }
  assert (Hs : stopped mgr = false).
  { destruct (_timerMgr impl) as [m0|] eqn:T.
    - destruct (Gs m0 eq_refl) as [-> Em0]. destruct (WF m eq_refl) as (mgr' & E' & S').
      congruence.
    - by rewrite (Gn eq_refl). }
  rewrite (bind_Val _ _ _ _ _ G).
  assert (EtA : timers (world sA) !! this = Some t) by (by rewrite Gt).
  rewrite (bind_Val _ _ _ _ _ (update_timer_Some this _ t sA EtA)).
  set (t' := with_myMgr (Some m) t).
  set (sB := mkSt (set_timers <[this := t']> (world sA)) (trace sA)).
  assert (EtB : timers (world sB) !! this = Some t') by apply lookup_stored_timer.
  assert (EmB : managers (world sB) !! m = Some mgr) by exact Em.
  set (mgrC := TimerManager.stop_job (_id t) mgr).
  (* running(), and stop() when it is *)
  assert (∃ sC,
             (r <~ Timer.running this ;;
              (if r then mafInfo "Timer is still running, then stop!" ;;; Timer.stop this
               else ret ())) sB = Val () sC
             ∧ timers (world sC) = timers (world sB)
             ∧ _tlwpInstance (world sC) = _tlwpInstance (world sB)
             ∧ managers (world sC) !! m = Some mgrC) as (sC & R & Rt & Rtl & EmC).
  { assert (Ru : Timer.running this sB = Val (TimerManager.isRunning (_id t') mgr) sB).
    { unfold Timer.running.
      rewrite (bind_Val _ _ _ _ _ (this_timer_Some _ _ _ EtB)). cbn [t' _myMgr with_myMgr].
      by rewrite (bind_Val _ _ _ _ _ (this_manager_Some _ _ _ EmB)). }
    rewrite (bind_Val _ _ _ _ _ Ru).
    destruct (TimerManager.isRunning (_id t') mgr) eqn:Run.
    - set (sB' := mkSt (add_log (Info, "Timer is still running, then stop!") (world sB))
                       (trace sB)).
      rewrite (bind_Val (mafInfo _) _ sB () sB' eq_refl).
      assert (EtB' : timers (world sB') !! this = Some t') by exact EtB.
      assert (EmB' : managers (world sB') !! m = Some mgr) by exact EmB.
      unfold Timer.stop.
      rewrite (bind_Val _ _ _ _ _ (this_timer_Some this t' sB' EtB')).
      cbn [t' _myMgr with_myMgr].
      rewrite (update_manager_Some m _ mgr sB' EmB').
      eexists. split; [reflexivity|]. split; [done|]. split; [done|].
      apply lookup_insert_eq.
    - exists sB. split; [done|]. split; [done|]. split; [done|].
      rewrite EmB. f_equal. unfold mgrC, TimerManager.stop_job.
      unfold TimerManager.isRunning in Run. apply bool_decide_eq_false in Run.
      rewrite delete_id; [by destruct mgr|].
      destruct (jobs mgr !! _id t) eqn:J; [|done]. destruct Run. by eexists. }
  assert (K : ∀ k : M unit,
             (r <~ Timer.running this ;;
              (if r then mafInfo "Timer is still running, then stop!" ;;; Timer.stop this
               else ret ()) ;;; k) sB = k sC).
  { intros k. unfold bind at 1. unfold bind at 1 in R.
    destruct (Timer.running this sB) as [r s'|e s'|s'|h s']; [|done|done|done].
    unfold bind at 1. by rewrite R. }
  rewrite K. clear K.
  assert (EtC : timers (world sC) !! this = Some t') by (by rewrite Rt).
  assert (W : Component.getActiveWeakPtr tid sC = Val (Some c) sC).
  { unfold Component.getActiveWeakPtr, gets. rewrite Rtl. cbn. by rewrite Gtl, Htl. }
  rewrite (bind_Val _ _ _ _ _ W).
  rewrite (bind_Val _ _ _ _ _ (this_timer_Some _ _ _ EtC)).
  cbn [t' _cyclic with_myMgr].
  set (job := mkJob ms (_cyclic t) (OnTimeout (Some c) cb this)).
  set (mgrD := mkManager (<[next_id mgr := job]> (delete (_id t) (jobs mgr)))
                         (S (next_id mgr)) false).
  set (sD := mkSt (set_managers <[m := mgrD]> (world sC)) (trace sC)).
  assert (Sd : Timer.myMgr_start m ms (OnTimeout (Some c) cb this) (_cyclic t) sC
               = Val (next_id mgr) sD).
  { unfold Timer.myMgr_start.
    rewrite (bind_Val _ _ _ _ _ (this_manager_Some _ _ _ EmC)).
    unfold TimerManager.start, mgrC. simpl. rewrite Hs. reflexivity. }
  rewrite (bind_Val _ _ _ _ _ Sd).
  assert (EtD : timers (world sD) !! this = Some t') by exact EtC.
  rewrite (bind_Val _ _ _ _ _ (update_timer_Some this _ t' sD EtD)).
  set (tE := with_id (next_id mgr) t').
  set (sE := mkSt (add_log (Info, "Start new timer with id = " +:+ pretty (next_id mgr))
                     (set_timers <[this := tE]> (world sD))) (trace sD)).
  assert (EtE : timers (world sE) !! this = Some tE) by apply lookup_insert_eq.
  assert (EmE : managers (world sE) !! m = Some mgrD) by apply lookup_insert_eq.
  exists sE, m, mgr, mgrD. split; [reflexivity|].
  split; [exact Gs|]. split; [exact Gn|]. split; [exact EtE|]. split; [exact EmE|].
  split; [done|].
  unfold Timer.running.
  rewrite (bind_Val _ _ _ _ _ (this_timer_Some this tE sE EtE)).
  cbn [_myMgr with_id tE t' with_myMgr].
  rewrite (bind_Val _ _ _ _ _ (this_manager_Some m mgrD sE EmE)).
  unfold TimerManager.isRunning. cbn [_id with_id mgrD jobs].
  rewrite lookup_insert_eq. by rewrite bool_decide_eq_true_2 by (by eexists).
Qed.

(** ** Cyclic timers *)

Section Cyclic.
Context {U : UserCode}.

(** One expiry of a cyclic job whose component is alive, with an open queue
    and no allocation failure. *)
Lemma expire_cyclic_alive this t m mgr id d c cb impl s :
  timers (world s) !! this = Some t →
  _cyclic t = true →
  _id t = id →
  managers (world s) !! m = Some mgr →
  jobs mgr !! id = Some (mkJob d true (OnTimeout (Some c) cb this)) →
  components (world s) !! c = Some impl →
  closed (_msgQueue impl) = false →
  TimerThread.expire None m id s
  = Val () (mkSt (set_components
                    <[c := with_msgQueue
                             (mkQueue false
                                (items (_msgQueue impl) ++ [Some (TimeoutMessage id (Some cb))]))
                             impl]>
                    (world s))
                 (trace s)).
Proof.
  intros Et Hc Hid Em J Ec Op. unfold TimerThread.expire.
  rewrite (bind_Val _ _ _ _ _ (this_manager_Some _ _ _ Em)), J.
  unfold TimerManager.expired. rewrite J. cbn [cyclic job_callback].
  assert (S0 : modify (set_managers <[m := mgr]>) s = Val () s).
  { unfold modify. do 2 f_equal. destruct s as [w tr]. f_equal.
    destruct w. unfold set_managers. simpl in *. by rewrite insert_id. }
  rewrite (bind_Val _ _ _ _ _ S0).
  unfold TimerThread.run_callback, Timer.onTimeout.
  rewrite (bind_Val _ _ _ _ _ (this_timer_Some _ _ _ Et)).
  assert (L : lock (Some c) s = Val (Some c) s)
    by (rewrite lock_run; simpl; by rewrite Ec).
  rewrite (bind_Val _ _ _ _ _ L), Hid.
  pose proof (postMessage_run None c (Some (TimeoutMessage id (Some cb))) impl s Ec) as P.
  unfold MessageQueue.push in P. rewrite Op in P.
  rewrite (bind_Val _ _ _ _ _ P).
  assert (Et1 : ∀ w' tr', timers (world (mkSt (set_components w' (world s)) tr')) !! this
                          = Some t) by (intros; exact Et).
  rewrite (bind_Val _ _ _ _ _ (this_timer_Some _ _ _ (Et1 _ _))), Hc.
  reflexivity.
Qed.

(** X15.  A cyclic timer keeps firing: with its component alive, the queue
    open and no allocation failure, [n] expiries of its job append [n]
    TimeoutMessages carrying the job id and the user callback to the
    component's queue, in a store whose timers and managers are as before
    (the job stays scheduled and the façade keeps its id). *)
Theorem cyclic_timer_posts_every_expiry n this t m mgr id d c cb : ∀ impl s,
  timers (world s) !! this = Some t →
  _cyclic t = true →
  _id t = id →
  managers (world s) !! m = Some mgr →
  jobs mgr !! id = Some (mkJob d true (OnTimeout (Some c) cb this)) →
  components (world s) !! c = Some impl →
  closed (_msgQueue impl) = false →
  ∃ s1 impl1,
    expire_all (replicate n None) m id s = Val () s1
    ∧ components (world s1) !! c = Some impl1
    ∧ items (_msgQueue impl1)
      = items (_msgQueue impl) ++ replicate n (Some (TimeoutMessage id (Some cb)))
    ∧ timers (world s1) = timers (world s)
    ∧ managers (world s1) = managers (world s).
Proof.
  induction n as [|n IH]; intros impl s Et Hc Hid Em J Ec Op.
  - exists s, impl. split; [done|]. split; [done|]. by rewrite app_nil_r.
  - simpl.
    rewrite (bind_Val _ _ _ _ _
               (expire_cyclic_alive this t m mgr id d c cb impl s Et Hc Hid Em J Ec Op)).
    set (impl0 := with_msgQueue _ impl).
    destruct (IH impl0 (mkSt (set_components <[c := impl0]> (world s)) (trace s)))
      as (s1 & impl1 & R & E1 & Q1 & T1 & M1); try done.
    { apply lookup_stored_impl. }
    exists s1, impl1. split; [exact R|]. split; [exact E1|].
    split; [|by split]. rewrite Q1. simpl. by rewrite <- app_assoc.
Qed.

(** X16.  A cyclic timer whose component is gone cancels itself: at its next
    expiry nothing is posted, the job is cancelled through the manager
    handle the façade holds, and the façade's id becomes the invalid id;
    later expiry attempts of that id change nothing. *)
Theorem cyclic_timer_cancels_when_component_gone fault this t m mgr id d ref cb s :
  timers (world s) !! this = Some t →
  _cyclic t = true →
  _id t = id →
  _myMgr t = Some m →
  managers (world s) !! m = Some mgr →
  jobs mgr !! id = Some (mkJob d true (OnTimeout ref cb this)) →
  ¬ upgrades ref (world s) →
  ∃ s1,
    TimerThread.expire fault m id s = Val () s1
    ∧ components (world s1) = components (world s)
    ∧ log (world s1) = log (world s)
    ∧ managers (world s1) = <[m := TimerManager.stop_job id mgr]> (managers (world s))
    ∧ timers (world s1)
      = <[this := with_id TimerManager.invalidJobID t]> (timers (world s))
    ∧ (∀ faults, expire_all faults m id s1 = Val () s1).
Proof.
  intros Et Hc Hid My Em J N. unfold TimerThread.expire.
  rewrite (bind_Val _ _ _ _ _ (this_manager_Some _ _ _ Em)), J.
  unfold TimerManager.expired. rewrite J. cbn [cyclic job_callback].
  assert (S0 : modify (set_managers <[m := mgr]>) s = Val () s).
  { unfold modify. do 2 f_equal. destruct s as [w tr]. f_equal.
    destruct w. unfold set_managers. simpl in *. by rewrite insert_id. }
  rewrite (bind_Val _ _ _ _ _ S0).
  unfold TimerThread.run_callback, Timer.onTimeout.
  rewrite (bind_Val _ _ _ _ _ (this_timer_Some _ _ _ Et)).
  rewrite (bind_Val _ _ _ _ _ (not_upgrades_lock ref s N)).
  set (s2 := mkSt (set_managers <[m := TimerManager.stop_job id mgr]> (world s)) (trace s)).
  assert (A : (t0 <~ this_timer this ;;
               match _cyclic t0, _myMgr t0 with
               | true, Some m0 => update_manager m0 (TimerManager.stop_job (_id t0))
               | _, _ => ret ()
               end) s = Val () s2).
  { rewrite (bind_Val _ _ _ _ _ (this_timer_Some _ _ _ Et)), Hc, My, Hid.
    by apply update_manager_Some. }
  assert (Et2 : timers (world s2) !! this = Some t) by exact Et.
  pose proof (update_timer_Some this (with_id TimerManager.invalidJobID) t s2 Et2) as B.
  rewrite (bind_Val _ _ _ _ _ (eq_trans (bind_Val _ _ _ _ _ A) B)).
  rewrite (bind_Val _ _ _ _ _ (this_timer_Some _ _ _ (lookup_stored_timer _ _ _ _))).
  cbn [_cyclic with_id]. rewrite Hc. cbn [negb].
  eexists. split; [reflexivity|]. split; [done|]. split; [done|].
  split; [done|]. split; [done|].
  intros faults. eapply (expire_all_unscheduled faults m id).
  - cbn. apply lookup_insert_eq.
  - apply lookup_delete_eq.
Qed.

End Cyclic.

(** ** More on NamedPipeSenderBase *)

Section Sender.
Context {Address : Type} `{EqDecision Address}.
Variable INVALID_ADDRESS : Address.
Variable constructPipeName : Address → string.

(** X17.  After [initConnection(addr)] with an address other than
    INVALID_ADDRESS, [receiverAddress()] is [addr]; with INVALID_ADDRESS the
    sender does not change; a call that changes the sender leaves a pipe
    name constructed from the new receiver address; and repeating the call
    changes nothing more. *)
Theorem initConnection_receiver (addr : Address) (this : NamedPipeSenderBase.t) :
  let this' :=
    NamedPipeSenderBase.initConnection INVALID_ADDRESS constructPipeName addr this in
  (addr ≠ INVALID_ADDRESS → NamedPipeSenderBase.receiverAddress this' = addr)
  ∧ (addr = INVALID_ADDRESS → this' = this)
  ∧ (this' ≠ this → pipe_name_in_step constructPipeName this')
  ∧ NamedPipeSenderBase.initConnection INVALID_ADDRESS constructPipeName addr this'
    = this'.
Proof.
  unfold NamedPipeSenderBase.initConnection, NamedPipeSenderBase.receiverAddress,
    pipe_name_in_step.
  destruct (decide (addr ≠ INVALID_ADDRESS ∧ _ ≠ addr)) as [[Y1 Y2]|N]; simpl.
  - split; [done|]. split; [done|]. split; [done|].
    rewrite decide_False; [done|]. intros [_ K]. by apply K.
  - split; [|split; [done|split; [done|by rewrite decide_False]]].
    intros V. destruct (decide (NamedPipeSenderBase._receiverAddress this = addr));
      [done|]. destruct N. by split.
Qed.

Lemma initConnection_keeps_step addr this :
  pipe_name_in_step constructPipeName this →
  pipe_name_in_step constructPipeName
    (NamedPipeSenderBase.initConnection INVALID_ADDRESS constructPipeName addr this).
Proof.
  intros I. unfold NamedPipeSenderBase.initConnection. by destruct (decide _).
Qed.

Lemma initConnection_address addr this :
  NamedPipeSenderBase._receiverAddress
    (NamedPipeSenderBase.initConnection INVALID_ADDRESS constructPipeName addr this)
  = if decide (addr ≠ INVALID_ADDRESS) then addr
    else NamedPipeSenderBase._receiverAddress this.
Proof.
  unfold NamedPipeSenderBase.initConnection.
  destruct (decide (addr ≠ INVALID_ADDRESS ∧ _ ≠ addr)) as [[Y1 Y2]|N]; simpl.
  - by rewrite decide_True.
  - destruct (decide (addr ≠ INVALID_ADDRESS)) as [V|V]; [|done].
    destruct (decide (NamedPipeSenderBase._receiverAddress this = addr)); [done|].
    destruct N. by split.
Qed.

Lemma initConnection_same_or_step addr this :
  NamedPipeSenderBase.initConnection INVALID_ADDRESS constructPipeName addr this = this
  ∨ pipe_name_in_step constructPipeName
      (NamedPipeSenderBase.initConnection INVALID_ADDRESS constructPipeName addr this).
Proof.
  unfold NamedPipeSenderBase.initConnection. destruct (decide _); [by right|by left].
Qed.

Lemma initConnections_keep_step addrs : ∀ this,
  pipe_name_in_step constructPipeName this →
  pipe_name_in_step constructPipeName
    (initConnections INVALID_ADDRESS constructPipeName addrs this).
Proof.
  unfold initConnections. induction addrs as [|a addrs IH]; intros this I; [done|].
  simpl. by apply IH, initConnection_keeps_step.
Qed.

(** X18.  After a sequence of [initConnection] calls the receiver address is
    the last address of the sequence that is not INVALID_ADDRESS, or the
    original one when there is none.  The pipe name is the one constructed
    from the receiver address whenever the calls have changed the sender, and
    also when it was so before the calls. *)
Theorem initConnections_last_valid (addrs : list Address) : ∀ this,
  let final := initConnections INVALID_ADDRESS constructPipeName addrs this in
  NamedPipeSenderBase.receiverAddress final
  = default (NamedPipeSenderBase._receiverAddress this)
      (last (filter (λ a, a ≠ INVALID_ADDRESS) addrs))
  ∧ (pipe_name_in_step constructPipeName this → pipe_name_in_step constructPipeName final)
  ∧ (final ≠ this → pipe_name_in_step constructPipeName final).
Proof.
  induction addrs as [|a addrs IH]; intros this; [by split; [|split]|].
  destruct (IH (NamedPipeSenderBase.initConnection
                  INVALID_ADDRESS constructPipeName a this)) as (R & _ & C).
  split; [|split].
  - unfold initConnections, NamedPipeSenderBase.receiverAddress in *. simpl.
    rewrite R, initConnection_address.
    destruct (decide (a ≠ INVALID_ADDRESS)) as [V|V].
    + rewrite filter_cons_True by done.
      destruct (filter _ addrs) as [|b fl] eqn:F; [done|].
      rewrite last_cons_cons.
      destruct (proj2 (last_is_Some (b :: fl))) as [x ->]; done.
    + by rewrite filter_cons_False.
  - intros I. by apply (initConnections_keep_step (a :: addrs)).
  - intros N.
    change (initConnections INVALID_ADDRESS constructPipeName (a :: addrs) this)
      with (initConnections INVALID_ADDRESS constructPipeName addrs
              (NamedPipeSenderBase.initConnection
                 INVALID_ADDRESS constructPipeName a this)) in *.
    destruct (initConnection_same_or_step a this) as [Eq|St].
    + rewrite Eq in *. by apply C.
    + by apply initConnections_keep_step.
Qed.

End Sender.

(** A sender constructed with an empty pipe name and the invalid address 0:
    after five calls the receiver is the last valid address, 8, and the pipe
    name is the one of that address. *)
Example initConnections_run :
  initConnections 0 (λ a : nat, "pipe" +:+ pretty a) [5; 0; 8; 8; 0]
    (NamedPipeSenderBase.mk "" 0)
  = NamedPipeSenderBase.mk "pipe8" 8.
Proof. reflexivity. Qed.

(** ** Launching a component *)

Section Launch.
Context {U : UserCode}.


End Launch.


(** Scenario S2 with a worker thread: the component is launched, then
    stopped from the launching thread; the worker handles both messages,
    logging the exception of the first, before [stop] returns. *)
Example scenario_S2_async_run :
  ∃ s1 s2,
    ComponentImpl.run (U := sample_code) 3 9 4 1 (Some 1) Async None None scenario_S2
    = Val None s1
    ∧ ComponentImpl.stop (U := sample_code) 3 9 1 s1 = Val () s2
    ∧ trace s2
      = [EvQueueClose 1; EvBindActive 4 (Some 1);
         EvHandler (UserFunc 1) (UserMessage 7 0);
         EvHandler (UserFunc 0) (UserMessage 8 0); EvJoin 4]
    ∧ log (world s2)
      = [(Err, "Exception occurred while executing messageHandler function: boom");
         (Info, "pong")].
Proof.
  eexists _, _. split; [vm_compute; reflexivity|].
  split; [vm_compute; reflexivity|]. split; reflexivity.
Qed.

(** A second [run] in [Async] mode on a component whose worker is joinable. *)
Example run_twice_terminates :
  ComponentImpl.run (U := sample_code) 3 9 5 1 (Some 1) Async None None
    component_with_worker
  = Halted Terminated component_with_worker.
Proof. reflexivity. Qed.

(** ** The further properties at concrete inputs *)

(** X2 on the fresh component 1, for handler object 5 and type 7. *)
Lemma handler_object_receives_message_witness :
  ∃ impl,
    components (world fresh_component) !! 1 = Some impl
    ∧ _msgHandlers impl !! idof_user 7 = None
    ∧ idof (UserMessage 7 0) = idof_user 7
    ∧ ∃ s1 : St,
        Component.registerMessageHandler_obj 1 (idof_user 7) (Some 5) fresh_component
        = Val () s1
        ∧ ComponentImpl.dispatch (U := sample_code) 1 (Some (UserMessage 7 0)) s1
          = Val ()
              match onMessage (UserCode := sample_code) 5 (UserMessage 7 0) (world s1) with
              | Returned w =>
                  {| world := w;
                     trace := trace s1 ++ [EvHandler (OnMessageOf 5) (UserMessage 7 0)] |}
              | Threw e w =>
                  {| world := add_log (Err, handler_fault_text e) w;
                     trace := trace s1 ++ [EvHandler (OnMessageOf 5) (UserMessage 7 0)] |}
              end.
Proof.
  eexists. apply and_wlog_r; [vm_compute; reflexivity|intros H1].
  apply and_wlog_r; [reflexivity|intros H2].
  apply and_wlog_r; [reflexivity|intros H3].
  exact (handler_object_receives_message (U := sample_code)
           1 (idof_user 7) 5 (UserMessage 7 0) _ fresh_component H1 H2 H3).
Defined.

(** X3 on component 1 with a null message queued. *)
Lemma null_message_skipped_witness :
  ∃ impl,
    components (world scenario_null) !! 1 = Some impl
    ∧ items (_msgQueue impl) = [None]
    ∧ (ComponentImpl.dispatch (U := sample_code) 1 None
         (mkSt (set_components
                  <[1 := with_msgQueue (mkQueue (closed (_msgQueue impl)) []) impl]>
                  (world scenario_null))
               (trace scenario_null))
       = Val () (mkSt (add_log (Err, "Got nullptr message")
                         (set_components
                            <[1 := with_msgQueue (mkQueue (closed (_msgQueue impl)) []) impl]>
                            (world scenario_null)))
                      (trace scenario_null))
       ∧ ComponentImpl.message_loop (U := sample_code) 3 1 scenario_null
         = ComponentImpl.message_loop (U := sample_code) 2 1
             (mkSt (add_log (Err, "Got nullptr message")
                      (set_components
                         <[1 := with_msgQueue (mkQueue (closed (_msgQueue impl)) []) impl]>
                         (world scenario_null)))
                   (trace scenario_null))
       ∧ (∃ s1,
            ComponentImpl.message_loop (U := sample_code) 3 1 scenario_null
            = Val (if closed (_msgQueue impl) then Finished else Blocked) s1
            ∧ trace s1 = trace scenario_null ++ omap (handler_call impl) []
            ∧ components (world s1) !! 1
              = Some (with_msgQueue (mkQueue (closed (_msgQueue impl)) []) impl))).
Proof.
  eexists. apply and_wlog_r; [vm_compute; reflexivity|intros H1].
  apply and_wlog_r; [reflexivity|intros H2].
  destruct (null_message_skipped (U := sample_code) 2 1 _ [] scenario_null H1 H2) as (D & G & K).
  split; [exact D|]. split; [exact G|].
  apply K; [apply sample_code_leaves_component | typed_by_computation | simpl; lia].
Defined.

(** X4 on scenario S6. *)
Lemma unhandled_message_dropped_witness :
  ∃ impl,
    components (world scenario_S6) !! 1 = Some impl
    ∧ items (_msgQueue impl) = [Some (UserMessage 7 0)]
    ∧ _msgHandlers impl !! idof (UserMessage 7 0) = None
    ∧ (ComponentImpl.dispatch (U := sample_code) 1 (Some (UserMessage 7 0))
         (mkSt (set_components
                  <[1 := with_msgQueue (mkQueue (closed (_msgQueue impl)) []) impl]>
                  (world scenario_S6))
               (trace scenario_S6))
       = Val () (mkSt (add_log (Warn, "There's no handler for message "
                                      +:+ MessageType_name (UserCode := sample_code)
                                            (idof (UserMessage 7 0)))
                         (set_components
                            <[1 := with_msgQueue (mkQueue (closed (_msgQueue impl)) []) impl]>
                            (world scenario_S6)))
                      (trace scenario_S6))
       ∧ ComponentImpl.message_loop (U := sample_code) 3 1 scenario_S6
         = ComponentImpl.message_loop (U := sample_code) 2 1
             (mkSt (add_log (Warn, "There's no handler for message "
                                   +:+ MessageType_name (UserCode := sample_code)
                                         (idof (UserMessage 7 0)))
                      (set_components
                         <[1 := with_msgQueue (mkQueue (closed (_msgQueue impl)) []) impl]>
                         (world scenario_S6)))
                   (trace scenario_S6))
       ∧ (∃ s1,
            ComponentImpl.message_loop (U := sample_code) 3 1 scenario_S6
            = Val (if closed (_msgQueue impl) then Finished else Blocked) s1
            ∧ trace s1 = trace scenario_S6 ++ omap (handler_call impl) []
            ∧ components (world s1) !! 1
              = Some (with_msgQueue (mkQueue (closed (_msgQueue impl)) []) impl))).
Proof.
  eexists. apply and_wlog_r; [vm_compute; reflexivity|intros H1].
  apply and_wlog_r; [reflexivity|intros H2].
  apply and_wlog_r; [reflexivity|intros H3].
  destruct (unhandled_message_dropped (U := sample_code) 2 1 _ _ [] scenario_S6 H1 H2 H3) as (D & G & K).
  split; [exact D|]. split; [exact G|].
  apply K; [apply sample_code_leaves_component | typed_by_computation | simpl; lia].
Defined.

(** X5 on scenario S2 after [stop]: both messages are handled in order and
    the loop finishes. *)
Lemma queue_drained_in_order_witness :
  ∃ impl,
    leaves_component sample_code 1
    ∧ components (world scenario_S2_stopped) !! 1 = Some impl
    ∧ builtin_handlers_typed impl
    ∧ length (items (_msgQueue impl)) < 3
    ∧ ∃ s1 : St,
        ComponentImpl.message_loop (U := sample_code) 3 1 scenario_S2_stopped
        = Val (if closed (_msgQueue impl) then Finished else Blocked) s1
        ∧ trace s1
          = trace scenario_S2_stopped ++ omap (handler_call impl) (items (_msgQueue impl))
        ∧ components (world s1) !! 1
          = Some (with_msgQueue {| closed := closed (_msgQueue impl); items := [] |} impl).
Proof.
  eexists. apply and_wlog_r; [apply sample_code_leaves_component|intros H0].
  apply and_wlog_r; [vm_compute; reflexivity|intros H1].
  apply and_wlog_r.
  { unfold builtin_handlers_typed. apply map_Forall_to_list.
    unfold _msgHandlers. vm_compute. repeat constructor. }
  intros H2.
  apply and_wlog_r; [vm_compute; lia|intros H3].
  exact (queue_drained_in_order (U := sample_code) 3 1 _ scenario_S2_stopped H0 H1 H2 H3).
Defined.

(** X12 on timer 7 of [armed_timer], a running one-shot timer made cyclic. *)
Lemma setCyclic_sets_flag_witness :
  ∃ t,
    timers (world armed_timer) !! 7 = Some t
    ∧ (∀ m, _myMgr t = Some m → is_Some (managers (world armed_timer) !! m))
    ∧ ∃ s1 : St,
        Timer.setCyclic 7 true armed_timer = Val () s1
        ∧ timers (world s1) !! 7
          = Some {| _id := _id t; _cyclic := true; _myMgr := _myMgr t |}
        ∧ (true = _cyclic t → s1 = armed_timer)
        ∧ Timer.setCyclic 7 true s1 = Val () s1
        ∧ components (world s1) = components (world armed_timer)
        ∧ (∀ (m : nat) (mgr : TimerManager) (j : Job),
             true ≠ _cyclic t →
             _myMgr t = Some m →
             managers (world armed_timer) !! m = Some mgr →
             jobs mgr !! _id t = Some j →
             ∃ mgr1 : TimerManager,
               managers (world s1) !! m = Some mgr1
               ∧ jobs mgr1 !! _id t
                 = Some {| duration := duration j; cyclic := true;
                           job_callback := job_callback j |}
               ∧ ∀ id : nat, id ≠ _id t → jobs mgr1 !! id = jobs mgr !! id).
Proof.
  eexists. apply and_wlog_r; [vm_compute; reflexivity|intros H1].
  apply and_wlog_r.
  { intros m Hm. vm_compute in Hm. injection Hm as <-. eexists. vm_compute. reflexivity. }
  intros H2.
  exact (setCyclic_sets_flag 7 true _ armed_timer H1 H2).
Defined.

(** X13 on timer 7 of [armed_timer]. *)
Lemma timer_stop_cancels_job_witness :
  ∃ t mgr,
    timers (world armed_timer) !! 7 = Some t
    ∧ _myMgr t = Some 0
    ∧ managers (world armed_timer) !! 0 = Some mgr
    ∧ ∃ (s1 : St) (mgr1 : TimerManager),
        Timer.stop 7 armed_timer = Val () s1
        ∧ managers (world s1) !! 0 = Some mgr1
        ∧ jobs mgr1 !! _id t = None
        ∧ (∀ id : nat, id ≠ _id t → jobs mgr1 !! id = jobs mgr !! id)
        ∧ timers (world s1) = timers (world armed_timer)
        ∧ components (world s1) = components (world armed_timer)
        ∧ Timer.running 7 s1 = Val false s1
        ∧ (∀ faults : list (option Exn),
             expire_all (U := sample_code) faults 0 (_id t) s1 = Val () s1)
        ∧ Timer.dtor 7 armed_timer
          = Val () {| world := set_timers (delete 7) (world s1); trace := trace s1 |}.
Proof.
  eexists _, _. apply and_wlog_r; [vm_compute; reflexivity|intros H1].
  apply and_wlog_r; [reflexivity|intros H2].
  apply and_wlog_r; [vm_compute; reflexivity|intros H3].
  exact (timer_stop_cancels_job (U := sample_code) 7 _ 0 _ armed_timer H1 H2 H3).
Defined.

(** X14 on timer 7 of [armed_timer], started again while it is running. *)
Lemma start_schedules_job_witness :
  ∃ t impl,
    timers (world armed_timer) !! 7 = Some t
    ∧ _tlwpInstance (world armed_timer) !! 3 = Some 1
    ∧ components (world armed_timer) !! 1 = Some impl
    ∧ (∀ m, _timerMgr impl = Some m →
            ∃ mgr, managers (world armed_timer) !! m = Some mgr ∧ stopped mgr = false)
    ∧ ∃ (s1 : St) (m : nat) (mgr0 mgr1 : TimerManager),
        Timer.start 3 7 50 (Some 1) armed_timer = Val () s1
        ∧ (∀ m0 : nat,
             _timerMgr impl = Some m0 →
             m0 = m ∧ managers (world armed_timer) !! m = Some mgr0)
        ∧ (_timerMgr impl = None → mgr0 = TimerManager.new)
        ∧ timers (world s1) !! 7
          = Some {| _id := next_id mgr0; _cyclic := _cyclic t; _myMgr := Some m |}
        ∧ managers (world s1) !! m = Some mgr1
        ∧ jobs mgr1
          = <[next_id mgr0 := {| duration := 50; cyclic := _cyclic t;
                                 job_callback := OnTimeout (Some 1) 1 7 |}]>
              (delete (_id t) (jobs mgr0))
        ∧ Timer.running 7 s1 = Val true s1.
Proof.
  eexists _, _. apply and_wlog_r; [vm_compute; reflexivity|intros H1].
  apply and_wlog_r; [reflexivity|intros H2].
  apply and_wlog_r; [vm_compute; reflexivity|intros H3].
  apply and_wlog_r.
  { intros m Hm. vm_compute in Hm. injection Hm as <-. eexists.
    split; [vm_compute; reflexivity|reflexivity]. }
  intros H4.
  exact (start_schedules_job 3 7 50 1 _ 1 _ armed_timer H1 H2 H3 H4).
Defined.

(** X15 on [cyclic_timer], for three expiries. *)
Lemma cyclic_timer_posts_every_expiry_witness :
  ∃ t mgr impl,
    timers (world cyclic_timer) !! 7 = Some t
    ∧ _cyclic t = true
    ∧ _id t = 1
    ∧ managers (world cyclic_timer) !! 0 = Some mgr
    ∧ jobs mgr !! 1
      = Some {| duration := 10; cyclic := true; job_callback := OnTimeout (Some 1) 0 7 |}
    ∧ components (world cyclic_timer) !! 1 = Some impl
    ∧ closed (_msgQueue impl) = false
    ∧ ∃ (s1 : St) (impl1 : ComponentImpl),
        expire_all (U := sample_code) (replicate 3 None) 0 1 cyclic_timer = Val () s1
        ∧ components (world s1) !! 1 = Some impl1
        ∧ items (_msgQueue impl1)
          = items (_msgQueue impl) ++ replicate 3 (Some (TimeoutMessage 1 (Some 0)))
        ∧ timers (world s1) = timers (world cyclic_timer)
        ∧ managers (world s1) = managers (world cyclic_timer).
Proof.
  eexists _, _, _. apply and_wlog_r; [vm_compute; reflexivity|intros H1].
  apply and_wlog_r; [reflexivity|intros H2].
  apply and_wlog_r; [reflexivity|intros H3].
  apply and_wlog_r; [vm_compute; reflexivity|intros H4].
  apply and_wlog_r; [vm_compute; reflexivity|intros H5].
  apply and_wlog_r; [vm_compute; reflexivity|intros H6].
  apply and_wlog_r; [reflexivity|intros H7].
  exact (cyclic_timer_posts_every_expiry (U := sample_code)
           3 7 _ 0 _ 1 10 1 0 _ cyclic_timer H1 H2 H3 H4 H5 H6 H7).
Defined.

(** X16 on [orphaned_cyclic_timer]. *)
Lemma cyclic_timer_cancels_when_component_gone_witness :
  ∃ t mgr,
    timers (world orphaned_cyclic_timer) !! 7 = Some t
    ∧ _cyclic t = true
    ∧ _id t = 1
    ∧ _myMgr t = Some 0
    ∧ managers (world orphaned_cyclic_timer) !! 0 = Some mgr
    ∧ jobs mgr !! 1
      = Some {| duration := 10; cyclic := true; job_callback := OnTimeout (Some 1) 0 7 |}
    ∧ ¬ upgrades (Some 1) (world orphaned_cyclic_timer)
    ∧ ∃ s1 : St,
        TimerThread.expire (U := sample_code) None 0 1 orphaned_cyclic_timer = Val () s1
        ∧ components (world s1) = components (world orphaned_cyclic_timer)
        ∧ log (world s1) = log (world orphaned_cyclic_timer)
        ∧ managers (world s1)
          = <[0 := TimerManager.stop_job 1 mgr]> (managers (world orphaned_cyclic_timer))
        ∧ timers (world s1)
          = <[7 := with_id TimerManager.invalidJobID t]>
              (timers (world orphaned_cyclic_timer))
        ∧ (∀ faults : list (option Exn),
             expire_all (U := sample_code) faults 0 1 s1 = Val () s1).
Proof.
  eexists _, _. apply and_wlog_r; [vm_compute; reflexivity|intros H1].
  apply and_wlog_r; [reflexivity|intros H2].
  apply and_wlog_r; [reflexivity|intros H3].
  apply and_wlog_r; [reflexivity|intros H4].
  apply and_wlog_r; [vm_compute; reflexivity|intros H5].
  apply and_wlog_r; [vm_compute; reflexivity|intros H6].
  apply and_wlog_r.
  { intros (c & [= <-] & [i Hi]). vm_compute in Hi. discriminate. }
  intros H7.
  exact (cyclic_timer_cancels_when_component_gone (U := sample_code)
           None 7 _ 0 _ 1 10 (Some 1) 0 orphaned_cyclic_timer H1 H2 H3 H4 H5 H6 H7).
Defined.

(** ** Where the built-in handlers are stored *)

Lemma builtin_handlers_in_place_typed impl :
  builtin_handlers_in_place impl → builtin_handlers_typed impl.
Proof.
  intros P msgType h E. destruct (P msgType) as [PT PC].
  destruct h; try reflexivity.
  - by rewrite (PT E).
  - by rewrite (PC E).
Qed.

Lemma std_map_insert_in_place t f impl :
  builtin_handlers_in_place impl →
  (f = ExecuteTimeout → t = idof_TimeoutMessage) →
  (f = ExecuteCallback → t = idof_CallbackExcMsg) →
  builtin_handlers_in_place
    (with_msgHandlers (std_map_insert t f (_msgHandlers impl)) impl).
Proof.
  intros P NT NC msgType. simpl. unfold std_map_insert.
  destruct (_msgHandlers impl !! t) eqn:L; [apply P|].
  destruct (decide (msgType = t)) as [->|N].
  - rewrite lookup_insert_eq. split; intros [= E]; auto.
  - rewrite lookup_insert_ne by done. apply P.
Qed.

Lemma ctor_builtin_handlers_in_place this s :
  ∃ s1 impl,
    Component.ctor this s = Val () s1
    ∧ components (world s1) !! this = Some impl
    ∧ builtin_handlers_in_place impl.
Proof.
  unfold Component.ctor, ComponentImpl.ctor.
  set (i0 := mkImpl None None MessageQueue.empty ∅ None).
  set (s0 := mkSt (set_components <[this := i0]> (world s)) (trace s)).
  assert (E0 : components (world s0) !! this = Some i0) by apply lookup_set_components.
  pose proof (registerMessageHandler_Some this idof_TimeoutMessage ExecuteTimeout _ _ E0) as R1.
  set (s1 := mkSt _ _) in R1.
  set (i1 := with_msgHandlers
               (std_map_insert idof_TimeoutMessage ExecuteTimeout (_msgHandlers i0)) i0) in *.
  assert (E1 : components (world s1) !! this = Some i1) by apply lookup_set_components.
  pose proof (registerMessageHandler_Some this idof_CallbackExcMsg ExecuteCallback _ _ E1) as R2.
  assert (P0 : builtin_handlers_in_place i0).
  { intros msgType. simpl. rewrite lookup_empty. split; discriminate. }
  assert (P1 : builtin_handlers_in_place i1).
  { apply std_map_insert_in_place; [done|done|discriminate]. }
  eexists _, _. split; [|split].
  - rewrite (bind_Val (modify _) _ s () s0 eq_refl).
    rewrite (bind_Val _ _ _ _ _ R1). exact R2.
  - apply lookup_set_components.
  - apply std_map_insert_in_place; [done|discriminate|done].
Qed.

Lemma register_builtin_handlers_in_place this r impl s :
  components (world s) !! this = Some impl →
  builtin_handlers_in_place impl →
  application_registration r = true →
  ∃ s1 impl1,
    register this r s = Val () s1
    ∧ components (world s1) !! this = Some impl1
    ∧ builtin_handlers_in_place impl1.
Proof.
  intros E P A.
  destruct r as [t [f|] | t [h|]]; simpl in *.
  - eexists _, _. split; [by apply registerMessageHandler_Some|].
    split; [apply lookup_set_components|].
    apply std_map_insert_in_place; [done|intros ->; discriminate|intros ->; discriminate].
  - by exists s, impl.
  - eexists _, _. split; [by apply registerMessageHandler_Some|].
    split; [apply lookup_set_components|].
    apply std_map_insert_in_place; [done|discriminate|discriminate].
  - by exists s, impl.
Qed.

(** X20.  The constructor's two lambdas stay where the constructor put
    them: after construction and any sequence of registrations made by
    application code, through either overload and for any types, the handler
    for TimeoutMessage is stored under no other type, and neither is the
    handler for CallbackExcMsg; in particular neither is ever looked up for
    a message of an application type. *)
Theorem builtin_handlers_stay_in_place this rs s :
  Forall (λ r, application_registration r = true) rs →
  ∃ s1 impl,
    (Component.ctor this ;;; register_all this rs) s = Val () s1
    ∧ components (world s1) !! this = Some impl
    ∧ (∀ msgType,
         _msgHandlers impl !! msgType = Some ExecuteTimeout → msgType = idof_TimeoutMessage)
    ∧ (∀ msgType,
         _msgHandlers impl !! msgType = Some ExecuteCallback → msgType = idof_CallbackExcMsg)
    ∧ builtin_handlers_typed impl.
Proof.
  intros A.
  destruct (ctor_builtin_handlers_in_place this s) as (s0 & impl0 & C & E0 & P0).
  rewrite (bind_Val _ _ _ _ _ C). clear C s.
  revert impl0 s0 E0 P0.
  induction A as [|r rs Ar _ IH]; intros impl0 s0 E0 P0; simpl.
  - exists s0, impl0. split; [reflexivity|]. split; [done|].
    split; [intros t; apply P0|]. split; [intros t; apply P0|].
    by apply builtin_handlers_in_place_typed.
  - destruct (register_builtin_handlers_in_place this r impl0 s0 E0 P0 Ar)
      as (s1 & impl1 & R & E1 & P1).
    rewrite (bind_Val _ _ _ _ _ R). by apply (IH impl1).
Qed.

(** X20 on component 1 with three registrations, one of them for
    TimeoutMessage. *)
Lemma builtin_handlers_stay_in_place_witness :
  Forall (λ r, application_registration r = true)
    [RegisterFunc (idof_user 7) (Some (UserFunc 0));
     RegisterObj idof_TimeoutMessage (Some 5);
     RegisterFunc idof_CallbackExcMsg None]
  ∧ ∃ s1 impl,
      (Component.ctor 1 ;;;
       register_all 1 [RegisterFunc (idof_user 7) (Some (UserFunc 0));
                       RegisterObj idof_TimeoutMessage (Some 5);
                       RegisterFunc idof_CallbackExcMsg None]) empty_state = Val () s1
      ∧ components (world s1) !! 1 = Some impl
      ∧ (∀ msgType,
           _msgHandlers impl !! msgType = Some ExecuteTimeout → msgType = idof_TimeoutMessage)
      ∧ (∀ msgType,
           _msgHandlers impl !! msgType = Some ExecuteCallback → msgType = idof_CallbackExcMsg)
      ∧ builtin_handlers_typed impl.
Proof.
  apply and_wlog_r; [repeat constructor|intros H1].
  exact (builtin_handlers_stay_in_place 1 _ empty_state H1).
Defined.
